(** * sul::dynamic_bitset: a shallow embedding and its verification

    The development follows [include/sul/dynamic_bitset.hpp].

    - A block ([block_type], an unsigned integral type of [bits_per_block]
      binary digits) is an integer in [[0, 2 ^ bits_per_block)]; shifts and
      complements are written with their truncation to the block width.
    - A position or a size ([size_type]) is a non-negative integer.  The
      stored sizes fit in memory, and on arguments that satisfy the documented
      preconditions (read over the integers) no addition of the source wraps,
      so sizes are not reduced modulo [2 ^ 64]; [npos] keeps its value.
      [set_range_size_t] is [set(pos, len, value)] with [pos + len - 1]
      computed in [size_type], for the lengths at which that sum wraps.
    - [m_blocks] is a [list Z]; [std::vector::capacity()] is taken to be the
      least value the standard allows, the number of elements.
    - [assert] is kept: a function whose source asserts returns an [option],
      [None] when an assertion fails.  Reading a vector outside its bounds,
      which the assertions and the class invariant exclude, reads
      [zero_block]; writing there changes nothing. *)

From Stdlib Require Import ZArith Lia Bool List Ascii.
From stdpp Require Import base tactics option list numbers strings.

Local Open Scope Z_scope.

(** ** The block type *)

(** [Block] template parameter: an unsigned integral type, known by its
    number of binary digits. *)
Class UnsignedBlock := {
  digits : Z;
  digits_pos : 0 < digits
}.

(** What the preprocessor selects: libpopcnt for [count], the compiler's
    population count for [block_count], its count of trailing zeros (or
    [_BitScanForward]) for [first_on].  Each has a portable fallback. *)
Class Toolchain := {
  use_libpopcnt : bool;
  builtin_popcount : bool;
  builtin_ctz : bool
}.

(** ** std::vector<block_type> *)

Module Vec.

Definition size (m : list Z) : Z := Z.of_nat (length m).

(** [m[i]] *)
Definition get (m : list Z) (i : Z) : Z := nth (Z.to_nat i) m 0.

(** [m[i] = x] *)
Definition set (m : list Z) (i x : Z) : list Z := <[Z.to_nat i := x]> m.


Definition resize (m : list Z) (n x : Z) : list Z :=
  take (Z.to_nat n) m ++ replicate (Z.to_nat n - length m)%nat x.

(** [m.push_back(x)] and [m.pop_back()] *)
Definition push_back (m : list Z) (x : Z) : list Z := m ++ [x].

Definition pop_back (m : list Z) : list Z := removelast m.

(** [std::fill(begin + first, begin + last, x)] *)
Definition fill (m : list Z) (first last x : Z) : list Z :=
  take (Z.to_nat first) m
    ++ replicate (Z.to_nat (last - first)) x
    ++ drop (Z.to_nat last) m.

(** [lhs == rhs] *)
Fixpoint eqb (a b : list Z) : bool :=
  match a, b with
  | [], [] => true
  | x :: a', y :: b' => (x =? y) && eqb a' b'
  | _, _ => false
  end.

End Vec.

(** ** Control flow *)

(** [assert(c)] *)
Definition assert (c : bool) : option unit := if c then Some tt else None.

(** [for (i = first; ...; ++i) body], [n] iterations. *)
Fixpoint for_up {S : Type} (n : nat) (i : Z) (body : Z -> S -> S) (s : S) : S :=
  match n with
  | O => s
  | S n' => for_up n' (i + 1) body (body i s)
  end.

(** [for (i = first; ...; --i) body], [n] iterations. *)
Fixpoint for_down {S : Type} (n : nat) (i : Z) (body : Z -> S -> S) (s : S) : S :=
  match n with
  | O => s
  | S n' => for_down n' (i - 1) body (body i s)
  end.

(** An ascending loop whose body may fail an assertion. *)
Fixpoint for_up_chk {S : Type} (n : nat) (i : Z) (body : Z -> S -> option S) (s : S)
  : option S :=
  match n with
  | O => Some s
  | S n' => s' ← body i s; for_up_chk n' (i + 1) body s'
  end.

(** An ascending loop whose body only tests and may [return]: the value
    returned by the first iteration that returns. *)
Fixpoint scan_up {R : Type} (n : nat) (i : Z) (body : Z -> option R) : option R :=
  match n with
  | O => None
  | S n' => match body i with
            | Some r => Some r
            | None => scan_up n' (i + 1) body
            end
  end.

(** The same, descending. *)
Fixpoint scan_down {R : Type} (n : nat) (i : Z) (body : Z -> option R) : option R :=
  match n with
  | O => None
  | S n' => match body i with
            | Some r => Some r
            | None => scan_down n' (i - 1) body
            end
  end.

(** Trip counts of the loop headers of the source:
    [i < bound; ++i], [i <= bound; ++i], [i > bound; --i], [i >= bound; --i]. *)
Definition trips_lt (first bound : Z) : nat := Z.to_nat (bound - first).
Definition trips_le (first bound : Z) : nat := Z.to_nat (bound + 1 - first).
Definition trips_gt (first bound : Z) : nat := Z.to_nat (first - bound).
Definition trips_ge (first bound : Z) : nat := Z.to_nat (first + 1 - bound).

(** ** Compiler and library primitives *)

(** [__builtin_popcountll] and its siblings, and libpopcnt's [popcnt] on one
    word: the number of one bits. *)
Fixpoint Pos_popcount (p : positive) : Z :=
  match p with
  | xH => 1
  | xO q => Pos_popcount q
  | xI q => 1 + Pos_popcount q
  end.

Definition popcount (x : Z) : Z :=
  match x with
  | Zpos p => Pos_popcount p
  | _ => 0
  end.

(** libpopcnt's [popcnt(data, size)] on the bytes of a vector of blocks. *)
Definition popcnt (m : list Z) : Z := fold_right (fun b acc => popcount b + acc) 0 m.

(** [__builtin_ctzll] and its siblings, [_BitScanForward]: the index of the
    lowest one bit of a non-zero word. *)
Fixpoint Pos_ctz (p : positive) : Z :=
  match p with
  | xO q => 1 + Pos_ctz q
  | _ => 0
  end.

Definition ctz (x : Z) : Z :=
  match x with
  | Zpos p => Pos_ctz p
  | _ => 0
  end.

(** [std::numeric_limits<size_t>::max()], [unsigned long long] and [sizeof] *)
Definition size_type_max : Z := 2 ^ 64 - 1.

(** ** The class *)

Record dynamic_bitset := mk_bitset {
  m_blocks : list Z;
  m_bits_number : Z
}.

Definition with_blocks (v : dynamic_bitset) (m : list Z) : dynamic_bitset :=
  mk_bitset m (m_bits_number v).

Definition with_bits_number (v : dynamic_bitset) (n : Z) : dynamic_bitset :=
  mk_bitset (m_blocks v) n.

Section Model.

Context {Block : UnsignedBlock} {Tools : Toolchain}.

(** *** Constants and block arithmetic *)

Definition bits_per_block : Z := digits.
Definition npos : Z := size_type_max.

(** conversion to [block_type] *)
Definition block_type (z : Z) : Z := z mod 2 ^ bits_per_block.

Definition zero_block : Z := 0.
Definition one_block : Z := block_type (Z.lnot zero_block).
Definition block_last_bit_index : Z := bits_per_block - 1.

(** [x << k], [x >> k], [~x] and [x - y] on blocks *)
Definition shl (x k : Z) : Z := block_type (Z.shiftl x k).
Definition shr (x k : Z) : Z := Z.shiftr x k.
Definition bnot (x : Z) : Z := block_type (Z.lnot x).
Definition bsub (x y : Z) : Z := block_type (x - y).

(** [x != zero_block] *)
Definition nonzero (x : Z) : bool := negb (x =? zero_block).

(** *** Private static helpers *)

Definition blocks_required (nbits : Z) : Z :=
  nbits / bits_per_block + (if 0 <? nbits mod bits_per_block then 1 else 0).

Definition block_index (pos : Z) : Z := pos / bits_per_block.

Definition bit_index (pos : Z) : Z := pos mod bits_per_block.

Definition bit_mask (pos : Z) : Z := block_type (shl (block_type 1) (bit_index pos)).

Definition bit_mask_range (first last : Z) : Z :=
  let first := bit_index first in
  let last := bit_index last in
  if last =? block_last_bit_index then block_type (shl one_block first)
  else block_type (Z.lxor (bsub (shl (block_type 1) (last + 1)) 1)
                          (bsub (shl (block_type 1) first) 1)).

Definition set_block_bits (block first last : Z) (val : bool) : Z :=
  if val then Z.lor block (bit_mask_range first last)
  else Z.land block (bnot (bit_mask_range first last)).

Definition flip_block_bits (block first last : Z) : Z :=
  Z.lxor block (bit_mask_range first last).

(** The portable loop shared by both [block_count]s: [count] and [mask]. *)
Definition block_count_body (block : Z) (_ : Z) (s : Z * Z) : Z * Z :=
  (fst s + Z.b2z (nonzero (Z.land block (snd s))), shl (snd s) 1).

Definition block_count (block : Z) : Z :=
  if block =? zero_block then 0
  else if builtin_popcount then popcount block
  else fst (for_up (trips_lt 0 bits_per_block) 0 (block_count_body block) (0, 1)).

Definition block_count_n (block nbits : Z) : option Z :=
  assert (nbits <=? bits_per_block);;
  if block =? zero_block then Some 0
  else if builtin_popcount then
    let shifted_block := block_type (shl block (bits_per_block - nbits)) in
    Some (popcount shifted_block)
  else Some (fst (for_up (trips_lt 0 nbits) 0 (block_count_body block) (0, 1))).

Fixpoint first_on_loop (n : nat) (i : Z) (block mask : Z) : Z :=
  match n with
  | O => npos
  | S n' => if nonzero (Z.land block mask) then i
            else first_on_loop n' (i + 1) block (shl mask 1)
  end.

Definition first_on (block : Z) : option Z :=
  assert (nonzero block);;
  if builtin_ctz then Some (ctz block)
  else Some (first_on_loop (trips_lt 0 bits_per_block) 0 block (block_type 1)).

(** *** Private members *)

Definition size (v : dynamic_bitset) : Z := m_bits_number v.

Definition num_blocks (v : dynamic_bitset) : Z := Vec.size (m_blocks v).

Definition empty (v : dynamic_bitset) : bool := size v =? 0.

Definition capacity (v : dynamic_bitset) : Z := Vec.size (m_blocks v) * bits_per_block.

Definition get_block (v : dynamic_bitset) (pos : Z) : Z :=
  Vec.get (m_blocks v) (block_index pos).

Definition last_block (v : dynamic_bitset) : Z :=
  Vec.get (m_blocks v) (Vec.size (m_blocks v) - 1).

(** [last_block() = x] *)
Definition set_last_block (v : dynamic_bitset) (x : Z) : dynamic_bitset :=
  with_blocks v (Vec.set (m_blocks v) (Vec.size (m_blocks v) - 1) x).

Definition extra_bits_number (v : dynamic_bitset) : Z := bit_index (m_bits_number v).

Definition unused_bits_number (v : dynamic_bitset) : Z :=
  bits_per_block - extra_bits_number v.

Definition sanitize (v : dynamic_bitset) : dynamic_bitset :=
  let shift := m_bits_number v mod bits_per_block in
  if 0 <? shift then
    set_last_block v (Z.land (last_block v) (bnot (shl one_block shift)))
  else v.

Definition check_unused_bits (v : dynamic_bitset) : bool :=
  let extra_bits := extra_bits_number v in
  if 0 <? extra_bits then
    Z.land (last_block v) (shl one_block extra_bits) =? zero_block
  else true.

Definition check_size (v : dynamic_bitset) : bool :=
  blocks_required (size v) =? Vec.size (m_blocks v).

Definition check_consistency (v : dynamic_bitset) : bool :=
  check_unused_bits v && check_size v.

Definition apply_left_shift (v : dynamic_bitset) (shift : Z) : option dynamic_bitset :=
  assert (0 <? shift);;
  assert (shift <? capacity v);;
  let blocks_shift := shift / bits_per_block in
  let bits_offset := shift mod bits_per_block in
  let n := Vec.size (m_blocks v) in
  let m :=
    if bits_offset =? 0 then
      for_down (trips_ge (n - 1) blocks_shift) (n - 1)
        (fun i m => Vec.set m i (Vec.get m (i - blocks_shift)))
        (m_blocks v)
    else
      let reverse_bits_offset := bits_per_block - bits_offset in
      let m' :=
        for_down (trips_gt (n - 1) blocks_shift) (n - 1)
          (fun i m =>
             Vec.set m i
               (block_type
                  (Z.lor (shl (Vec.get m (i - blocks_shift)) bits_offset)
                         (block_type
                            (shr (Vec.get m (i - blocks_shift - 1)) reverse_bits_offset)))))
          (m_blocks v) in
      Vec.set m' blocks_shift (block_type (shl (Vec.get m' 0) bits_offset)) in
  Some (with_blocks v (Vec.fill m 0 blocks_shift zero_block)).

Definition apply_right_shift (v : dynamic_bitset) (shift : Z) : option dynamic_bitset :=
  assert (0 <? shift);;
  assert (shift <? capacity v);;
  let blocks_shift := shift / bits_per_block in
  let bits_offset := shift mod bits_per_block in
  let n := Vec.size (m_blocks v) in
  let last_block_to_shift := n - blocks_shift - 1 in
  let m :=
    if bits_offset =? 0 then
      for_up (trips_le 0 last_block_to_shift) 0
        (fun i m => Vec.set m i (Vec.get m (i + blocks_shift)))
        (m_blocks v)
    else
      let reverse_bits_offset := bits_per_block - bits_offset in
      let m' :=
        for_up (trips_lt 0 last_block_to_shift) 0
          (fun i m =>
             Vec.set m i
               (block_type
                  (Z.lor (shr (Vec.get m (i + blocks_shift)) bits_offset)
                         (block_type
                            (shl (Vec.get m (i + blocks_shift + 1)) reverse_bits_offset)))))
          (m_blocks v) in
      Vec.set m' last_block_to_shift (block_type (shr (Vec.get m' (n - 1)) bits_offset)) in
  Some (with_blocks v (Vec.fill m (last_block_to_shift + 1) n zero_block)).

(** *** Constructors *)

Definition dynamic_bitset_default : dynamic_bitset := mk_bitset [] 0.



(** *** Single bits *)

(** [set(pos, value)] *)
Definition set_bit (v : dynamic_bitset) (pos : Z) (value : bool) : option dynamic_bitset :=
  assert (pos <? size v);;
  let i := block_index pos in
  let m := m_blocks v in
  if value then Some (with_blocks v (Vec.set m i (Z.lor (Vec.get m i) (bit_mask pos))))
  else Some (with_blocks v (Vec.set m i (Z.land (Vec.get m i) (bnot (bit_mask pos))))).

(** [reset(pos)] *)
Definition reset_bit (v : dynamic_bitset) (pos : Z) : option dynamic_bitset :=
  set_bit v pos false.

(** [flip(pos)] *)
Definition flip_bit (v : dynamic_bitset) (pos : Z) : option dynamic_bitset :=
  assert (pos <? size v);;
  let i := block_index pos in
  let m := m_blocks v in
  Some (with_blocks v (Vec.set m i (Z.lxor (Vec.get m i) (bit_mask pos)))).

Definition test (v : dynamic_bitset) (pos : Z) : option bool :=
  assert (pos <? size v);;
  Some (nonzero (Z.land (Vec.get (m_blocks v) (block_index pos)) (bit_mask pos))).

(** [operator[](pos)] on a non-const bitset, read through the [reference]. *)
Definition subscript (v : dynamic_bitset) (pos : Z) : option bool :=
  assert (pos <? size v);;
  let m_block := get_block v pos in
  let m_mask := bit_mask pos in
  Some (nonzero (Z.land m_block m_mask)).

(** *** Ranges and whole-bitset fills *)

(** [set(pos, len, value)], for a range whose end [pos + len - 1] does not
    wrap in [size_type]; [set_range_size_t] computes the sum as the source
    does for every [len]. *)
Definition set_range (v : dynamic_bitset) (pos len : Z) (value : bool)
  : option dynamic_bitset :=
  assert (pos <? size v);;
  if len =? 0 then Some v
  else
    assert (pos + len - 1 <? size v);;
    let first_block := block_index pos in
    let last_block := block_index (pos + len - 1) in
    let first_bit_index := bit_index pos in
    let last_bit_index := bit_index (pos + len - 1) in
    let m := m_blocks v in
    if first_block =? last_block then
      Some (with_blocks v
              (Vec.set m first_block
                 (set_block_bits (Vec.get m first_block)
                    first_bit_index last_bit_index value)))
    else
      let '(first_full_block, m) :=
        if negb (first_bit_index =? 0) then
          (first_block + 1,
           Vec.set m first_block
             (set_block_bits (Vec.get m first_block)
                first_bit_index block_last_bit_index value))
        else (first_block, m) in
      let '(last_full_block, m) :=
        if negb (last_bit_index =? block_last_bit_index) then
          (last_block - 1,
           Vec.set m last_block
             (set_block_bits (Vec.get m last_block) 0 last_bit_index value))
        else (last_block, m) in
      let full_block := if value then one_block else zero_block in
      Some (with_blocks v
              (for_up (trips_le first_full_block last_full_block) first_full_block
                 (fun i m => Vec.set m i full_block) m)).

(** [set()] *)
Definition set_all (v : dynamic_bitset) : dynamic_bitset :=
  let m := m_blocks v in
  sanitize (with_blocks v (Vec.fill m 0 (Vec.size m) one_block)).

(** [reset(pos, len)] and [reset()] *)
Definition reset_range (v : dynamic_bitset) (pos len : Z) : option dynamic_bitset :=
  set_range v pos len false.

Definition reset_all (v : dynamic_bitset) : dynamic_bitset :=
  let m := m_blocks v in
  with_blocks v (Vec.fill m 0 (Vec.size m) zero_block).

(** [flip(pos, len)], for a range whose end [pos + len - 1] does not wrap in
    [size_type]. *)
Definition flip_range (v : dynamic_bitset) (pos len : Z) : option dynamic_bitset :=
  assert (pos <? size v);;
  if len =? 0 then Some v
  else
    assert (pos + len - 1 <? size v);;
    let first_block := block_index pos in
    let last_block := block_index (pos + len - 1) in
    let first_bit_index := bit_index pos in
    let last_bit_index := bit_index (pos + len - 1) in
    let m := m_blocks v in
    if first_block =? last_block then
      Some (with_blocks v
              (Vec.set m first_block
                 (flip_block_bits (Vec.get m first_block)
                    first_bit_index last_bit_index)))
    else
      let '(first_full_block, m) :=
        if negb (first_bit_index =? 0) then
          (first_block + 1,
           Vec.set m first_block
             (flip_block_bits (Vec.get m first_block)
                first_bit_index block_last_bit_index))
        else (first_block, m) in
      let '(last_full_block, m) :=
        if negb (last_bit_index =? block_last_bit_index) then
          (last_block - 1,
           Vec.set m last_block
             (flip_block_bits (Vec.get m last_block) 0 last_bit_index))
        else (last_block, m) in
      Some (with_blocks v
              (for_up (trips_le first_full_block last_full_block) first_full_block
                 (fun i m => Vec.set m i (bnot (Vec.get m i))) m)).

(** [flip()]: [std::transform] with [std::bit_not] *)
Definition flip_all (v : dynamic_bitset) : dynamic_bitset :=
  sanitize (with_blocks v (map bnot (m_blocks v))).

(** *** Size changes *)

Definition resize (v : dynamic_bitset) (nbits : Z) (value : bool) : option dynamic_bitset :=
  if nbits =? m_bits_number v then Some v
  else
    let old_num_blocks := num_blocks v in
    let new_num_blocks := blocks_required nbits in
    let init_value := if value then one_block else zero_block in
    let m :=
      if negb (new_num_blocks =? old_num_blocks)
      then Vec.resize (m_blocks v) new_num_blocks init_value
      else m_blocks v in
    let m :=
      if value && (m_bits_number v <? nbits) && (0 <? old_num_blocks) then
        let extra_bits := extra_bits_number v in
        if 0 <? extra_bits then
          Vec.set m (old_num_blocks - 1)
            (Z.lor (Vec.get m (old_num_blocks - 1)) (shl init_value extra_bits))
        else m
      else m in
    let v' := sanitize (mk_bitset m nbits) in
    assert (check_consistency v');;
    Some v'.

Definition clear (v : dynamic_bitset) : dynamic_bitset := mk_bitset [] 0.

Definition push_back (v : dynamic_bitset) (value : bool) : option dynamic_bitset :=
  let new_last_bit := m_bits_number v in
  let v := with_bits_number v (m_bits_number v + 1) in
  v ← (if m_bits_number v <=? Vec.size (m_blocks v) * bits_per_block then
         if value then set_bit v new_last_bit value else Some v
       else Some (with_blocks v (Vec.push_back (m_blocks v) (block_type (Z.b2z value)))));
  b ← subscript v new_last_bit;
  assert (Bool.eqb b value);;
  assert (check_consistency v);;
  Some v.

Definition pop_back (v : dynamic_bitset) : option dynamic_bitset :=
  if empty v then Some v
  else
    let v := with_bits_number v (m_bits_number v - 1) in
    v ← (if blocks_required (m_bits_number v) <? Vec.size (m_blocks v) then
           let v := with_blocks v (Vec.pop_back (m_blocks v)) in
           assert (extra_bits_number v =? 0);;
           Some v
         else Some (sanitize v));
    assert (check_consistency v);;
    Some v.

(** [append(block)] *)
Definition append_block (v : dynamic_bitset) (block : Z) : option dynamic_bitset :=
  let extra_bits := extra_bits_number v in
  let v :=
    if extra_bits =? 0 then with_blocks v (Vec.push_back (m_blocks v) block)
    else
      let v := set_last_block v (Z.lor (last_block v) (shl block extra_bits)) in
      with_blocks v
        (Vec.push_back (m_blocks v) (block_type (shr block (bits_per_block - extra_bits)))) in
  let v := with_bits_number v (m_bits_number v + bits_per_block) in
  assert (check_consistency v);;
  Some v.

(** The [while (first != last)] loop of [append(first, last)]; [rest] is
    what the iterator has still to yield, [block] the carried block. *)
Fixpoint append_range_loop (extra_bits unused_bits : Z) (rest : list Z)
    (block : Z) (v : dynamic_bitset) : dynamic_bitset * Z :=
  match rest with
  | [] => (v, block)
  | x :: rest' =>
      let block := Z.lor block (shl x extra_bits) in
      let v := with_blocks v (Vec.push_back (m_blocks v) block) in
      let v := with_bits_number v (m_bits_number v + bits_per_block) in
      let block := block_type (shr x unused_bits) in
      append_range_loop extra_bits unused_bits rest' block v
  end.

(** [append(first, last)], the range given as the list it yields. *)
Definition append_range (v : dynamic_bitset) (blocks : list Z) : option dynamic_bitset :=
  match blocks with
  | [] => Some v
  | first :: rest =>
      assert (0 <? Vec.size blocks);;
      let extra_bits := extra_bits_number v in
      let unused_bits := unused_bits_number v in
      v ← (if extra_bits =? 0 then
             let pos := Vec.size (m_blocks v) in
             let v := with_blocks v (m_blocks v ++ blocks) in
             let distance := Vec.size (m_blocks v) - pos in
             assert (0 <? distance);;
             Some (with_bits_number v (m_bits_number v + distance * bits_per_block))
           else
             let v := set_last_block v (Z.lor (last_block v) (shl first extra_bits)) in
             let block := block_type (shr first unused_bits) in
             let '(v, block) := append_range_loop extra_bits unused_bits rest block v in
             let v := with_blocks v (Vec.push_back (m_blocks v) block) in
             Some (with_bits_number v (m_bits_number v + bits_per_block)));
      assert (check_consistency v);;
      Some v
  end.

(** *** Bitwise operators *)

(** The loop [for (i = 0; i < m_blocks.size(); ++i) m_blocks[i] = f(m_blocks[i], rhs.m_blocks[i])]. *)
Definition blockwise (f : Z -> Z -> Z) (v rhs : dynamic_bitset) : dynamic_bitset :=
  with_blocks v
    (for_up (trips_lt 0 (Vec.size (m_blocks v))) 0
       (fun i m => Vec.set m i (f (Vec.get m i) (Vec.get (m_blocks rhs) i)))
       (m_blocks v)).

(** [operator&=], [operator|=], [operator^=], [operator-=] *)
Definition op_and_assign (v rhs : dynamic_bitset) : option dynamic_bitset :=
  assert (size v =? size rhs);;
  Some (blockwise Z.land v rhs).

Definition op_or_assign (v rhs : dynamic_bitset) : option dynamic_bitset :=
  assert (size v =? size rhs);;
  Some (blockwise Z.lor v rhs).

Definition op_xor_assign (v rhs : dynamic_bitset) : option dynamic_bitset :=
  assert (size v =? size rhs);;
  Some (blockwise Z.lxor v rhs).

Definition op_sub_assign (v rhs : dynamic_bitset) : option dynamic_bitset :=
  assert (size v =? size rhs);;
  Some (blockwise (fun x y => Z.land x (bnot y)) v rhs).

(** [operator<<=] and [operator>>=] *)
Definition op_shl_assign (v : dynamic_bitset) (shift : Z) : option dynamic_bitset :=
  if negb (shift =? 0) then
    if m_bits_number v <=? shift then Some (reset_all v)
    else
      v ← apply_left_shift v shift;
      Some (sanitize v)
  else Some v.

Definition op_shr_assign (v : dynamic_bitset) (shift : Z) : option dynamic_bitset :=
  if negb (shift =? 0) then
    if m_bits_number v <=? shift then Some (reset_all v)
    else apply_right_shift v shift
  else Some v.

(** [operator<<], [operator>>], [operator~], [operator&]: the mutating
    operator on a copy. *)
Definition op_shl (v : dynamic_bitset) (shift : Z) : option dynamic_bitset :=
  op_shl_assign v shift.

Definition op_shr (v : dynamic_bitset) (shift : Z) : option dynamic_bitset :=
  op_shr_assign v shift.

Definition op_not (v : dynamic_bitset) : dynamic_bitset := flip_all v.

Definition op_and (lhs rhs : dynamic_bitset) : option dynamic_bitset :=
  op_and_assign lhs rhs.

(** *** Queries *)

Definition any (v : dynamic_bitset) : bool := existsb nonzero (m_blocks v).

Definition none (v : dynamic_bitset) : bool := negb (any v).

Definition count (v : dynamic_bitset) : option Z :=
  if empty v then Some 0
  else if use_libpopcnt then Some (popcnt (m_blocks v))
  else
    let m := m_blocks v in
    let count :=
      for_up (trips_lt 0 (Vec.size m - 1)) 0
        (fun i count => count + block_count (Vec.get m i)) 0 in
    let block := last_block v in
    if nonzero block then
      let extra_bits := extra_bits_number v in
      if extra_bits =? 0 then Some (count + block_count block)
      else
        c ← block_count_n block extra_bits;
        Some (count + c)
    else Some count.

Definition is_subset_of (v bitset : dynamic_bitset) : option bool :=
  assert (size v =? size bitset);;
  let m := m_blocks v in
  match scan_up (trips_lt 0 (Vec.size m)) 0
          (fun i =>
             if nonzero (Z.land (Vec.get m i) (bnot (Vec.get (m_blocks bitset) i)))
             then Some false else None)
  with
  | Some r => Some r
  | None => Some true
  end.

Fixpoint is_proper_subset_of_loop (n : nat) (i : Z) (self other : list Z)
    (is_proper : bool) : bool :=
  match n with
  | O => is_proper
  | S n' =>
      let self_block := Vec.get self i in
      let other_block := Vec.get other i in
      if nonzero (Z.land self_block (bnot other_block)) then false
      else
        is_proper_subset_of_loop n' (i + 1) self other
          (if nonzero (Z.land (bnot self_block) other_block) then true else is_proper)
  end.

Definition is_proper_subset_of (v bitset : dynamic_bitset) : option bool :=
  assert (size v =? size bitset);;
  let is_proper := false in
  Some (is_proper_subset_of_loop (trips_lt 0 (Vec.size (m_blocks v))) 0
          (m_blocks v) (m_blocks bitset) is_proper).

Definition intersects (v bitset : dynamic_bitset) : bool :=
  let min_blocks_number := Z.min (Vec.size (m_blocks v)) (Vec.size (m_blocks bitset)) in
  match scan_up (trips_lt 0 min_blocks_number) 0
          (fun i =>
             if nonzero (Z.land (Vec.get (m_blocks v) i) (Vec.get (m_blocks bitset) i))
             then Some true else None)
  with
  | Some r => r
  | None => false
  end.

(** The body shared by the block loops of [find_first] and [find_next]. *)
Definition find_in_block (m : list Z) (i : Z) : option (option Z) :=
  if nonzero (Vec.get m i) then
    Some (r ← first_on (Vec.get m i); Some (i * bits_per_block + r))
  else None.

Definition find_first (v : dynamic_bitset) : option Z :=
  let m := m_blocks v in
  match scan_up (trips_lt 0 (Vec.size m)) 0 (find_in_block m) with
  | Some r => r
  | None => Some npos
  end.

Definition find_next (v : dynamic_bitset) (prev : Z) : option Z :=
  if empty v || (size v - 1 <=? prev) then Some npos
  else
    let m := m_blocks v in
    let first_bit := prev + 1 in
    let first_block := block_index first_bit in
    let first_bit_index := bit_index first_bit in
    let first_block_shifted := block_type (shr (Vec.get m first_block) first_bit_index) in
    if nonzero first_block_shifted then
      r ← first_on first_block_shifted;
      Some (first_bit + r)
    else
      match scan_up (trips_lt (first_block + 1) (Vec.size m)) (first_block + 1)
              (find_in_block m)
      with
      | Some r => r
      | None => Some npos
      end.

(** *** Comparison *)

(** [operator==] and [operator!=] *)
Definition op_eq (lhs rhs : dynamic_bitset) : bool :=
  (m_bits_number lhs =? m_bits_number rhs) && Vec.eqb (m_blocks lhs) (m_blocks rhs).

Definition op_ne (lhs rhs : dynamic_bitset) : bool := negb (op_eq lhs rhs).

(** The body of the loops of [operator<] that compare a block pair. *)
Definition lt_at (lhs rhs : dynamic_bitset) (i : Z) : option bool :=
  let l := Vec.get (m_blocks lhs) i in
  let r := Vec.get (m_blocks rhs) i in
  if negb (l =? r) then Some (l <? r) else None.

(** [operator<] *)
Definition op_lt (lhs rhs : dynamic_bitset) : bool :=
  let lhs_size := size lhs in
  let rhs_size := size rhs in
  let lhs_blocks_size := Vec.size (m_blocks lhs) in
  let rhs_blocks_size := Vec.size (m_blocks rhs) in
  if lhs_size =? rhs_size then
    if lhs_size =? 0 then false
    else
      match scan_down (trips_gt (lhs_blocks_size - 1) 0) (lhs_blocks_size - 1)
              (lt_at lhs rhs)
      with
      | Some r => r
      | None => Vec.get (m_blocks lhs) 0 <? Vec.get (m_blocks rhs) 0
      end
  else if lhs_size =? 0 then true
  else if rhs_size =? 0 then false
  else
    let rhs_longer := lhs_size <? rhs_size in
    let longest_bitset := if rhs_longer then rhs else lhs in
    let longest_blocks_size := Z.max lhs_blocks_size rhs_blocks_size in
    let shortest_blocks_size := Z.min lhs_blocks_size rhs_blocks_size in
    match scan_down (trips_ge (longest_blocks_size - 1) shortest_blocks_size)
            (longest_blocks_size - 1)
            (fun i =>
               if negb (Vec.get (m_blocks longest_bitset) i =? block_type 0)
               then Some rhs_longer else None)
    with
    | Some r => r
    | None =>
        match scan_down (trips_gt (shortest_blocks_size - 1) 0) (shortest_blocks_size - 1)
                (lt_at lhs rhs)
        with
        | Some r => r
        | None =>
            if negb (Vec.get (m_blocks lhs) 0 =? Vec.get (m_blocks rhs) 0)
            then Vec.get (m_blocks lhs) 0 <? Vec.get (m_blocks rhs) 0
            else lhs_size <? rhs_size
        end
    end.

(** *** Strings *)

Section Strings.

Context {CharT : Type} `{EqDecision CharT}.

(** The inner loop of [to_string] carries [mask] and the string. *)
Definition to_string_bit (len i_block block : Z) (one : CharT) (i_bit : Z)
    (s : Z * list CharT) : Z * list CharT :=
  let '(mask, str) := s in
  (shl mask 1,
   if nonzero (Z.land block mask)
   then <[Z.to_nat (len - (i_block * bits_per_block + i_bit + 1)) := one]> str
   else str).

Definition to_string (v : dynamic_bitset) (zero one : CharT) : list CharT :=
  let len := size v in
  let m := m_blocks v in
  for_up (trips_lt 0 (Vec.size m)) 0
    (fun i_block str =>
       if Vec.get m i_block =? zero_block then str
       else
         let mask := block_type 1 in
         let limit :=
           if i_block * bits_per_block <? len
           then len - i_block * bits_per_block
           else bits_per_block in
         snd (for_up (trips_lt 0 limit) 0
                (to_string_bit len i_block (Vec.get m i_block) one) (mask, str)))
    (replicate (Z.to_nat len) zero).

Definition init_from_string (str : list CharT) (pos n : Z) (zero one : CharT)
  : option dynamic_bitset :=
  let str_size := Z.of_nat (length str) in
  assert (pos <? str_size);;
  let size := Z.min n (str_size - pos) in
  let v := mk_bitset (Vec.resize [] (blocks_required size) 0) size in
  for_up_chk (trips_lt 0 size) 0
    (fun i v =>
       let c := nth (Z.to_nat ((pos + size - 1) - i)) str zero in
       assert (bool_decide (c = zero) || bool_decide (c = one));;
       if bool_decide (c = one) then set_bit v i true else Some v)
    v.

(** The constructors from a string, a string view or a character array. *)
Definition dynamic_bitset_string (str : list CharT) (pos n : Z) (zero one : CharT)
  : option dynamic_bitset :=
  assert (pos <? Z.of_nat (length str));;
  init_from_string str pos n zero one.

End Strings.

(** *** Further members *)

(** [test_set(pos, value)]: the value returned and the bitset after the call. *)
Definition test_set (v : dynamic_bitset) (pos : Z) (value : bool)
  : option (bool * dynamic_bitset) :=
  result ← test v pos;
  if negb (Bool.eqb result value) then
    v' ← set_bit v pos value;
    Some (result, v')
  else Some (result, v).

(** [all()] *)
Definition all (v : dynamic_bitset) : bool :=
  if empty v then true
  else
    let full_block := one_block in
    let m := m_blocks v in
    if extra_bits_number v =? 0 then
      forallb (fun block => block =? full_block) m
    else
      match scan_up (trips_lt 0 (Vec.size m - 1)) 0
              (fun i => if negb (Vec.get m i =? full_block) then Some false else None)
      with
      | Some r => r
      | None =>
          if negb (last_block v =? shr full_block (unused_bits_number v)) then false
          else true
      end.

(** *** The [reference] proxy *)

(** A [reference] holds a C++ reference to a block of the bitset and the mask
    of one bit: here the index of that block in [m_blocks], and the mask.
    Its members read and write the block of the bitset it was made from. *)
Record reference := mk_reference { m_block : Z; m_mask : Z }.

(** [reference(bitset, bit_pos)] *)
Definition reference_of (bit_pos : Z) : reference :=
  mk_reference (block_index bit_pos) (bit_mask bit_pos).

(** [operator[](pos)] on a non-const bitset *)
Definition subscript_reference (v : dynamic_bitset) (pos : Z) : option reference :=
  assert (pos <? size v);;
  Some (reference_of pos).

Definition reference_block (v : dynamic_bitset) (r : reference) : Z :=
  Vec.get (m_blocks v) (m_block r).

Definition reference_store (v : dynamic_bitset) (r : reference) (x : Z) : dynamic_bitset :=
  with_blocks v (Vec.set (m_blocks v) (m_block r) x).

(** [reference::set()], [reset()], [flip()], [assign(bool)] *)
Definition reference_set (v : dynamic_bitset) (r : reference) : dynamic_bitset :=
  reference_store v r (Z.lor (reference_block v r) (m_mask r)).

Definition reference_reset (v : dynamic_bitset) (r : reference) : dynamic_bitset :=
  reference_store v r (Z.land (reference_block v r) (bnot (m_mask r))).

Definition reference_flip (v : dynamic_bitset) (r : reference) : dynamic_bitset :=
  reference_store v r (Z.lxor (reference_block v r) (m_mask r)).

Definition reference_assign (v : dynamic_bitset) (r : reference) (b : bool)
  : dynamic_bitset :=
  if b then reference_set v r else reference_reset v r.

(** [reference::operator bool()] and [reference::operator~()] *)
Definition reference_bool (v : dynamic_bitset) (r : reference) : bool :=
  nonzero (Z.land (reference_block v r) (m_mask r)).

Definition reference_not (v : dynamic_bitset) (r : reference) : bool :=
  Z.land (reference_block v r) (m_mask r) =? zero_block.

(** [reference::operator&=], [operator|=], [operator^=], [operator-=] *)
Definition reference_and_assign (v : dynamic_bitset) (r : reference) (b : bool)
  : dynamic_bitset :=
  if negb b then reference_reset v r else v.

Definition reference_or_assign (v : dynamic_bitset) (r : reference) (b : bool)
  : dynamic_bitset :=
  if b then reference_set v r else v.

Definition reference_xor_assign (v : dynamic_bitset) (r : reference) (b : bool)
  : dynamic_bitset :=
  if b then reference_flip v r else v.

Definition reference_sub_assign (v : dynamic_bitset) (r : reference) (b : bool)
  : dynamic_bitset :=
  if b then reference_reset v r else v.

(** *** Further operators *)

(** [operator<=], [operator>], [operator>=] *)
Definition op_le (lhs rhs : dynamic_bitset) : bool := negb (op_lt rhs lhs).

Definition op_gt (lhs rhs : dynamic_bitset) : bool := op_lt rhs lhs.

Definition op_ge (lhs rhs : dynamic_bitset) : bool := negb (op_lt lhs rhs).

(** [operator|], [operator^], [operator-]: the compound assignment on a copy. *)
Definition op_or (lhs rhs : dynamic_bitset) : option dynamic_bitset :=
  op_or_assign lhs rhs.

Definition op_xor (lhs rhs : dynamic_bitset) : option dynamic_bitset :=
  op_xor_assign lhs rhs.

Definition op_sub (lhs rhs : dynamic_bitset) : option dynamic_bitset :=
  op_sub_assign lhs rhs.

(** *** [size_type] arithmetic in [set(pos, len, value)] *)

(** The value of an expression of type [size_type]: unsigned arithmetic is
    modulo [2 ^ 64]. *)
Definition size_type_wrap (z : Z) : Z := z mod (size_type_max + 1).

(** [set(pos, len, value)] for every [pos] and [len] of [size_type]: the
    sum [pos + len - 1], which the second assertion tests and from which the
    last block and bit are computed, and the decrement of [last_full_block]
    are taken in [size_type].  Where the sum does not exceed [size_type_max]
    this is [set_range]. *)
Definition set_range_size_t (v : dynamic_bitset) (pos len : Z) (value : bool)
  : option dynamic_bitset :=
  assert (pos <? size v);;
  if len =? 0 then Some v
  else
    assert (size_type_wrap (pos + len - 1) <? size v);;
    let first_block := block_index pos in
    let last_block := block_index (size_type_wrap (pos + len - 1)) in
    let first_bit_index := bit_index pos in
    let last_bit_index := bit_index (size_type_wrap (pos + len - 1)) in
    let m := m_blocks v in
    if first_block =? last_block then
      Some (with_blocks v
              (Vec.set m first_block
                 (set_block_bits (Vec.get m first_block)
                    first_bit_index last_bit_index value)))
    else
      let '(first_full_block, m) :=
        if negb (first_bit_index =? 0) then
          (first_block + 1,
           Vec.set m first_block
             (set_block_bits (Vec.get m first_block)
                first_bit_index block_last_bit_index value))
        else (first_block, m) in
      let '(last_full_block, m) :=
        if negb (last_bit_index =? block_last_bit_index) then
          (size_type_wrap (last_block - 1),
           Vec.set m last_block
             (set_block_bits (Vec.get m last_block) 0 last_bit_index value))
        else (last_block, m) in
      let full_block := if value then one_block else zero_block in
      Some (with_blocks v
              (for_up (trips_le first_full_block last_full_block) first_full_block
                 (fun i m => Vec.set m i full_block) m)).

End Model.

(** * Specification vocabulary *)

Section Vocabulary.

Context {Block : UnsignedBlock} {Tools : Toolchain}.

(** A value of [block_type]. *)
Definition is_block (b : Z) : Prop := 0 <= b < 2 ^ bits_per_block.

(** Bit [p] of a vector of blocks, counted from the low bit of block 0;
    [false] outside the vector. *)
Definition bit_at (m : list Z) (p : Z) : bool :=
  (0 <=? p) && Z.testbit (Vec.get m (p / bits_per_block)) (p mod bits_per_block).

(** [ceil(a / b)] *)
Definition ceil_div (a b : Z) : Z := (a + b - 1) / b.

(** The members have values of their types. *)
Definition well_typed (v : dynamic_bitset) : Prop :=
  Forall is_block (m_blocks v) /\ 0 <= m_bits_number v.

(** I2: the number of stored blocks is [ceil(size / bits_per_block)]. *)
Definition sizing_invariant (v : dynamic_bitset) : Prop :=
  num_blocks v = ceil_div (size v) bits_per_block.

(** I1: when the size is not block-aligned, the bits of the last block at
    intra-block positions [>= size mod bits_per_block] are zero. *)
Definition sanitization_invariant (v : dynamic_bitset) : Prop :=
  size v mod bits_per_block <> 0 ->
  forall j, size v mod bits_per_block <= j < bits_per_block ->
            Z.testbit (last_block v) j = false.

(** The class invariant. *)
Definition invariant (v : dynamic_bitset) : Prop :=
  well_typed v /\ sizing_invariant v /\ sanitization_invariant v.

(** Bit [p] of a bitset. *)
Definition bit (v : dynamic_bitset) (p : Z) : bool := bit_at (m_blocks v) p.

(** The mutating member functions, as calls. *)
Inductive mutation :=
| Resize (nbits : Z) (value : bool)
| Clear
| PushBack (value : bool)
| PopBack
| AppendBlock (block : Z)
| AppendRange (blocks : list Z)
| AndAssign (rhs : dynamic_bitset)
| OrAssign (rhs : dynamic_bitset)
| XorAssign (rhs : dynamic_bitset)
| SubAssign (rhs : dynamic_bitset)
| ShlAssign (shift : Z)
| ShrAssign (shift : Z)
| SetRange (pos len : Z) (value : bool)
| SetBit (pos : Z) (value : bool)
| SetAll
| ResetRange (pos len : Z)
| ResetBit (pos : Z)
| ResetAll
| FlipRange (pos len : Z)
| FlipBit (pos : Z)
| FlipAll.

Definition mutate (v : dynamic_bitset) (call : mutation) : option dynamic_bitset :=
  match call with
  | Resize nbits value => resize v nbits value
  | Clear => Some (clear v)
  | PushBack value => push_back v value
  | PopBack => pop_back v
  | AppendBlock block => append_block v block
  | AppendRange blocks => append_range v blocks
  | AndAssign rhs => op_and_assign v rhs
  | OrAssign rhs => op_or_assign v rhs
  | XorAssign rhs => op_xor_assign v rhs
  | SubAssign rhs => op_sub_assign v rhs
  | ShlAssign shift => op_shl_assign v shift
  | ShrAssign shift => op_shr_assign v shift
  | SetRange pos len value => set_range v pos len value
  | SetBit pos value => set_bit v pos value
  | SetAll => Some (set_all v)
  | ResetRange pos len => reset_range v pos len
  | ResetBit pos => reset_bit v pos
  | ResetAll => Some (reset_all v)
  | FlipRange pos len => flip_range v pos len
  | FlipBit pos => flip_bit v pos
  | FlipAll => Some (flip_all v)
  end.

(** The arguments have values of their types and meet the documented
    precondition of the call. *)
Definition range_pre (v : dynamic_bitset) (pos len : Z) : Prop :=
  0 <= pos < size v /\ 0 <= len /\ (len = 0 \/ pos + len - 1 < size v).

Definition mutation_pre (v : dynamic_bitset) (call : mutation) : Prop :=
  match call with
  | Resize nbits _ => 0 <= nbits
  | Clear | PushBack _ | PopBack | SetAll | ResetAll | FlipAll => True
  | AppendBlock block => is_block block
  | AppendRange blocks => Forall is_block blocks
  | AndAssign rhs | OrAssign rhs | XorAssign rhs | SubAssign rhs =>
      invariant rhs /\ size v = size rhs
  | ShlAssign shift | ShrAssign shift => 0 <= shift
  | SetRange pos len _ | ResetRange pos len | FlipRange pos len => range_pre v pos len
  | SetBit pos _ | ResetBit pos | FlipBit pos => 0 <= pos < size v
  end.

(** Appending the blocks of a list one [append(block)] at a time. *)
Fixpoint append_blocks (v : dynamic_bitset) (blocks : list Z) : option dynamic_bitset :=
  match blocks with
  | [] => Some v
  | block :: rest => v' ← append_block v block; append_blocks v' rest
  end.

(** The three zones that [set(pos, len, value)] and [flip(pos, len)] share:
    [partial block first last] rewrites the bits [first .. last] of a block,
    [full block] all its bits. *)
Definition range_update (partial : Z -> Z -> Z -> Z) (full : Z -> Z)
    (v : dynamic_bitset) (pos len : Z) : option dynamic_bitset :=
  assert (pos <? size v);;
  if len =? 0 then Some v
  else
    assert (pos + len - 1 <? size v);;
    let first_block := block_index pos in
    let last_block := block_index (pos + len - 1) in
    let first_bit_index := bit_index pos in
    let last_bit_index := bit_index (pos + len - 1) in
    let m := m_blocks v in
    if first_block =? last_block then
      Some (with_blocks v
              (Vec.set m first_block
                 (partial (Vec.get m first_block) first_bit_index last_bit_index)))
    else
      let '(first_full_block, m) :=
        if negb (first_bit_index =? 0) then
          (first_block + 1,
           Vec.set m first_block
             (partial (Vec.get m first_block) first_bit_index block_last_bit_index))
        else (first_block, m) in
      let '(last_full_block, m) :=
        if negb (last_bit_index =? block_last_bit_index) then
          (last_block - 1,
           Vec.set m last_block (partial (Vec.get m last_block) 0 last_bit_index))
        else (last_block, m) in
      Some (with_blocks v
              (for_up (trips_le first_full_block last_full_block) first_full_block
                 (fun i m => Vec.set m i (full (Vec.get m i))) m)).


(** The unsigned integer that a bitset represents, block 0 the least
    significant. *)
Definition magnitude (v : dynamic_bitset) : Z :=
  fold_right (fun block acc => block + 2 ^ bits_per_block * acc) 0 (m_blocks v).

(** Counting by testing every position: the reference that [count] is
    measured against. *)
Definition brute_force_count (v : dynamic_bitset) : Z :=
  for_up (trips_lt 0 (size v)) 0
    (fun p n => match test v p with Some true => n + 1 | _ => n end) 0.

(** The number of [i] in [[lo, lo + n)] at which [f] holds. *)
Fixpoint count_true (f : Z -> bool) (n : nat) (lo : Z) : Z :=
  match n with
  | O => 0
  | S n' => Z.b2z (f lo) + count_true f n' (lo + 1)
  end.

(** [r] is the lowest position at or above [from] whose bit is set. *)
Definition lowest_set_bit (v : dynamic_bitset) (from r : Z) : Prop :=
  from <= r < size v
  /\ test v r = Some true
  /\ forall q, from <= q < r -> test v q = Some false.

(** No bit is set at or above position [from]. *)
Definition no_set_bit (v : dynamic_bitset) (from : Z) : Prop :=
  forall q, from <= q < size v -> test v q = Some false.

(** [str] has [len] characters and shows bit [p] of [g], for [p < len], at
    index [len - 1 - p], as [one] or [zero]: the most significant bit first. *)
Definition renders {CharT : Type} (len : Z) (zero one : CharT) (str : list CharT)
    (g : Z -> bool) : Prop :=
  length str = Z.to_nat len
  /\ forall p, 0 <= p < len ->
               nth (Z.to_nat (len - 1 - p)) str zero = if g p then one else zero.

End Vocabulary.

(** ** Block types and toolchains of the examples *)

(** [uint8_t] and [unsigned long long] *)
Definition uint8 : UnsignedBlock := {| digits := 8; digits_pos := eq_refl |}.
Definition uint64 : UnsignedBlock := {| digits := 64; digits_pos := eq_refl |}.


Definition portable : Toolchain :=
  {| use_libpopcnt := false; builtin_popcount := false; builtin_ctz := false |}.
Definition gcc : Toolchain :=
  {| use_libpopcnt := false; builtin_popcount := true; builtin_ctz := true |}.
Definition gcc_libpopcnt : Toolchain :=
  {| use_libpopcnt := true; builtin_popcount := true; builtin_ctz := true |}.

(** [dynamic_bitset("...")] with the default designators. *)
Definition of_chars {Block : UnsignedBlock} (str : list ascii) : option dynamic_bitset :=
  dynamic_bitset_string str 0 npos "0"%char "1"%char.

(** The bitset of the string "10110011101", stored in [uint8_t] blocks. *)
Definition sample : dynamic_bitset := mk_bitset [157; 5] 11.

(** * Verification *)

(** Case analysis on the integer comparisons of a goal. *)
Ltac destruct_cmp :=
  repeat first
    [ match goal with |- context [?x <=? ?y] => destruct (Z.leb_spec x y) end
    | match goal with |- context [?x <? ?y] => destruct (Z.ltb_spec x y) end
    | match goal with |- context [?x =? ?y] => destruct (Z.eqb_spec x y) end ].

Section Arithmetic.

Context {Block : UnsignedBlock}.

Lemma W_pos : 0 < bits_per_block.
Proof. exact digits_pos. Qed.

Lemma pow2_W_pos : 0 < 2 ^ bits_per_block.
Proof. apply Z.pow_pos_nonneg; [lia | pose proof W_pos; lia]. Qed.

Lemma div_mod_W (p : Z) :
  p = bits_per_block * (p / bits_per_block) + p mod bits_per_block
  /\ 0 <= p mod bits_per_block < bits_per_block.
Proof.
  pose proof W_pos. split; [apply Z.div_mod; lia | apply Z.mod_pos_bound; lia].
Qed.

Lemma div_W_nonneg (p : Z) : 0 <= p -> 0 <= p / bits_per_block.
Proof. pose proof W_pos. intros. apply Z.div_pos; lia. Qed.

Lemma div_mod_W_unique (i j : Z) :
  0 <= j < bits_per_block ->
  (i * bits_per_block + j) / bits_per_block = i
  /\ (i * bits_per_block + j) mod bits_per_block = j.
Proof.
  intros Hj. pose proof W_pos.
  rewrite Z.add_comm, Z.div_add, Z.mod_add by lia.
  rewrite Z.div_small, Z.mod_small by lia. lia.
Qed.

Lemma div_W_lt (p n : Z) : p < n * bits_per_block <-> p / bits_per_block < n.
Proof.
  pose proof W_pos. pose proof (div_mod_W p). split; intros; nia.
Qed.

Lemma div_W_le (p n : Z) : n * bits_per_block <= p <-> n <= p / bits_per_block.
Proof.
  pose proof W_pos. pose proof (div_mod_W p). split; intros; nia.
Qed.

Lemma blocks_required_ceil (n : Z) : blocks_required n = ceil_div n bits_per_block.
Proof.
  unfold blocks_required, ceil_div. pose proof W_pos.
  pose proof (div_mod_W n) as [Hn Hb].
  destruct (Z.ltb_spec 0 (n mod bits_per_block)).
  - apply (Z.div_unique _ _ _ (n mod bits_per_block - 1)); nia.
  - apply (Z.div_unique _ _ _ (bits_per_block - 1)); nia.
Qed.

Lemma blocks_required_bounds (n : Z) :
  n <= blocks_required n * bits_per_block < n + bits_per_block.
Proof.
  unfold blocks_required. pose proof (div_mod_W n) as [Hn Hb].
  destruct (Z.ltb_spec 0 (n mod bits_per_block)); nia.
Qed.

Lemma blocks_required_nonneg (n : Z) : 0 <= n -> 0 <= blocks_required n.
Proof. intros. pose proof (blocks_required_bounds n). pose proof W_pos. nia. Qed.

Lemma blocks_required_0 : blocks_required 0 = 0.
Proof.
  unfold blocks_required. pose proof W_pos.
  rewrite Z.div_0_l, Z.mod_0_l by lia. reflexivity.
Qed.

Lemma blocks_required_aligned (n : Z) :
  n mod bits_per_block = 0 -> blocks_required n * bits_per_block = n.
Proof.
  intros H0. unfold blocks_required. rewrite H0. simpl.
  pose proof (div_mod_W n). lia.
Qed.

Lemma blocks_required_unaligned (n : Z) :
  n mod bits_per_block <> 0 -> blocks_required n = n / bits_per_block + 1.
Proof.
  intros H0. unfold blocks_required. pose proof (div_mod_W n).
  destruct (Z.ltb_spec 0 (n mod bits_per_block)); lia.
Qed.

End Arithmetic.

Section VecFacts.

Context {Block : UnsignedBlock}.

Lemma Vec_size_nonneg (m : list Z) : 0 <= Vec.size m.
Proof. unfold Vec.size. lia. Qed.

Lemma Vec_get_lookup (m : list Z) (i : Z) :
  Vec.get m i = default 0 (m !! Z.to_nat i).
Proof. unfold Vec.get. apply nth_lookup. Qed.

Lemma Vec_get_out (m : list Z) (i : Z) : Vec.size m <= i -> Vec.get m i = 0.
Proof.
  intros Hi. rewrite Vec_get_lookup, lookup_ge_None_2; [done |].
  unfold Vec.size in Hi. lia.
Qed.

Lemma Vec_size_set (m : list Z) (i x : Z) : Vec.size (Vec.set m i x) = Vec.size m.
Proof. unfold Vec.size, Vec.set. by rewrite length_insert. Qed.

Lemma Vec_get_set_eq (m : list Z) (i x : Z) :
  0 <= i < Vec.size m -> Vec.get (Vec.set m i x) i = x.
Proof.
  intros Hi. rewrite Vec_get_lookup. unfold Vec.set.
  rewrite list_lookup_insert_eq; [done |]. unfold Vec.size in Hi. lia.
Qed.

Lemma Vec_get_set_ne (m : list Z) (i j x : Z) :
  0 <= i -> 0 <= j -> i <> j -> Vec.get (Vec.set m i x) j = Vec.get m j.
Proof.
  intros Hi Hj Hne. rewrite !Vec_get_lookup. unfold Vec.set.
  rewrite list_lookup_insert_ne; [done | lia].
Qed.

Lemma Vec_get_set (m : list Z) (i j x : Z) :
  0 <= i < Vec.size m -> 0 <= j ->
  Vec.get (Vec.set m i x) j = if i =? j then x else Vec.get m j.
Proof.
  intros Hi Hj. destruct (Z.eqb_spec i j) as [-> | Hne].
  - by apply Vec_get_set_eq.
  - apply Vec_get_set_ne; lia.
Qed.

Lemma Vec_set_out (m : list Z) (i x : Z) : Vec.size m <= i -> Vec.set m i x = m.
Proof.
  intros Hi. unfold Vec.set. apply list_insert_ge. unfold Vec.size in Hi. lia.
Qed.

Lemma Vec_ext (a b : list Z) :
  Vec.size a = Vec.size b ->
  (forall i, 0 <= i < Vec.size a -> Vec.get a i = Vec.get b i) ->
  a = b.
Proof.
  intros Hlen Hget. apply (nth_ext a b 0 0).
  - unfold Vec.size in Hlen. lia.
  - intros n Hn. specialize (Hget (Z.of_nat n)). unfold Vec.get in Hget.
    rewrite Nat2Z.id in Hget. apply Hget. unfold Vec.size. lia.
Qed.

Lemma Vec_get_block (m : list Z) (i : Z) :
  Forall is_block m -> is_block (Vec.get m i).
Proof.
  intros Hm. rewrite Vec_get_lookup.
  destruct (m !! Z.to_nat i) as [x |] eqn:E; simpl.
  - eapply Forall_lookup_1; eauto.
  - unfold is_block. pose proof pow2_W_pos. lia.
Qed.

Lemma Vec_set_block (m : list Z) (i x : Z) :
  Forall is_block m -> is_block x -> Forall is_block (Vec.set m i x).
Proof. intros Hm Hx. unfold Vec.set. by apply Forall_insert. Qed.

Lemma Vec_size_app (a b : list Z) : Vec.size (a ++ b) = Vec.size a + Vec.size b.
Proof. unfold Vec.size. rewrite length_app. lia. Qed.

Lemma Vec_get_app_l (a b : list Z) (i : Z) :
  0 <= i < Vec.size a -> Vec.get (a ++ b) i = Vec.get a i.
Proof.
  intros Hi. rewrite !Vec_get_lookup, lookup_app_l; [done |].
  unfold Vec.size in Hi. lia.
Qed.

Lemma Vec_get_app_r (a b : list Z) (i : Z) :
  Vec.size a <= i -> Vec.get (a ++ b) i = Vec.get b (i - Vec.size a).
Proof.
  intros Hi. rewrite !Vec_get_lookup. unfold Vec.size in *.
  rewrite lookup_app_r by lia. do 2 f_equal. lia.
Qed.

Lemma Vec_size_replicate (n : nat) (x : Z) : Vec.size (replicate n x) = Z.of_nat n.
Proof. unfold Vec.size. by rewrite length_replicate. Qed.

Lemma Vec_get_replicate (n : nat) (x i : Z) :
  0 <= i < Z.of_nat n -> Vec.get (replicate n x) i = x.
Proof.
  intros Hi. rewrite Vec_get_lookup, lookup_replicate_2; [done | lia].
Qed.

Lemma Vec_size_take (n : nat) (m : list Z) :
  Vec.size (take n m) = Z.min (Z.of_nat n) (Vec.size m).
Proof. unfold Vec.size. rewrite length_take. lia. Qed.

Lemma Vec_get_take (n : nat) (m : list Z) (i : Z) :
  0 <= i < Z.of_nat n -> Vec.get (take n m) i = Vec.get m i.
Proof.
  intros Hi. rewrite !Vec_get_lookup, lookup_take_lt; [done | lia].
Qed.

Lemma Vec_size_drop (n : nat) (m : list Z) :
  Vec.size (drop n m) = Z.max 0 (Vec.size m - Z.of_nat n).
Proof. unfold Vec.size. rewrite length_drop. lia. Qed.

Lemma Vec_get_drop (n : nat) (m : list Z) (i : Z) :
  0 <= i -> Vec.get (drop n m) i = Vec.get m (Z.of_nat n + i).
Proof.
  intros Hi. rewrite !Vec_get_lookup, lookup_drop. do 2 f_equal. lia.
Qed.

End VecFacts.

Section BlockFacts.

Context {Block : UnsignedBlock}.

Lemma block_type_is_block (z : Z) : is_block (block_type z).
Proof. unfold is_block, block_type. apply Z.mod_pos_bound, pow2_W_pos. Qed.

Lemma block_type_small (z : Z) : is_block z -> block_type z = z.
Proof. intros Hz. unfold block_type. by apply Z.mod_small. Qed.

Lemma testbit_block_type (z j : Z) :
  Z.testbit (block_type z) j = (j <? bits_per_block) && Z.testbit z j.
Proof.
  unfold block_type. pose proof W_pos. apply Z.testbit_mod_pow2. lia.
Qed.

Lemma is_block_high (b j : Z) : is_block b -> bits_per_block <= j -> Z.testbit b j = false.
Proof.
  intros Hb Hj. rewrite <- (block_type_small b Hb), testbit_block_type.
  destruct (Z.ltb_spec j bits_per_block); [lia | done].
Qed.

Lemma is_block_0 : is_block 0.
Proof. unfold is_block. pose proof pow2_W_pos. lia. Qed.

Lemma is_block_1 : is_block 1.
Proof.
  unfold is_block. pose proof W_pos.
  assert (2 ^ 1 <= 2 ^ bits_per_block) by (apply Z.pow_le_mono_r; lia). lia.
Qed.

Lemma is_block_of_bits (b : Z) :
  0 <= b -> (forall j, bits_per_block <= j -> Z.testbit b j = false) -> is_block b.
Proof.
  intros Hb Hhigh. rewrite <- (Z.mod_small b (2 ^ bits_per_block)).
  - apply block_type_is_block.
  - split; [done |]. pose proof W_pos.
    destruct (Z.eq_dec b 0) as [-> | Hne]; [apply pow2_W_pos |].
    apply Z.log2_lt_pow2; [lia |].
    destruct (Z.lt_ge_cases (Z.log2 b) bits_per_block) as [| Hge]; [done |].
    pose proof (Z.bit_log2 b ltac:(lia)) as Hlog.
    rewrite Hhigh in Hlog; [discriminate | done].
Qed.

Lemma block_ext (a b : Z) :
  is_block a -> is_block b ->
  (forall j, 0 <= j < bits_per_block -> Z.testbit a j = Z.testbit b j) ->
  a = b.
Proof.
  intros Ha Hb Hbits. apply Z.bits_inj'. intros j Hj.
  destruct (Z.lt_ge_cases j bits_per_block).
  - apply Hbits. lia.
  - by rewrite !is_block_high.
Qed.

Lemma is_block_land (a b : Z) : is_block a -> is_block b -> is_block (Z.land a b).
Proof.
  intros Ha Hb. apply is_block_of_bits.
  - apply Z.land_nonneg. left. apply Ha.
  - intros j Hj. by rewrite Z.land_spec, (is_block_high a).
Qed.

Lemma is_block_land_l (a b : Z) : is_block a -> is_block (Z.land a b).
Proof.
  intros Ha. apply is_block_of_bits.
  - apply Z.land_nonneg. left. apply Ha.
  - intros j Hj. by rewrite Z.land_spec, (is_block_high a).
Qed.

Lemma is_block_lor (a b : Z) : is_block a -> is_block b -> is_block (Z.lor a b).
Proof.
  intros Ha Hb. apply is_block_of_bits.
  - apply Z.lor_nonneg. split; [apply Ha | apply Hb].
  - intros j Hj. by rewrite Z.lor_spec, (is_block_high a), (is_block_high b).
Qed.

Lemma is_block_lxor (a b : Z) : is_block a -> is_block b -> is_block (Z.lxor a b).
Proof.
  intros Ha Hb. apply is_block_of_bits.
  - apply Z.lxor_nonneg. split; intros _; [apply Hb | apply Ha].
  - intros j Hj. by rewrite Z.lxor_spec, (is_block_high a), (is_block_high b).
Qed.

Lemma is_block_shr (a k : Z) : is_block a -> 0 <= k -> is_block (shr a k).
Proof.
  intros Ha Hk. unfold shr. apply is_block_of_bits.
  - apply Z.shiftr_nonneg, Ha.
  - intros j Hj. pose proof W_pos.
    rewrite Z.shiftr_spec by lia. apply is_block_high; [done | lia].
Qed.

Lemma is_block_shl (a k : Z) : is_block (shl a k).
Proof. apply block_type_is_block. Qed.

Lemma is_block_bnot (a : Z) : is_block (bnot a).
Proof. apply block_type_is_block. Qed.

Lemma testbit_shl (x k j : Z) :
  0 <= j -> Z.testbit (shl x k) j = (j <? bits_per_block) && Z.testbit x (j - k).
Proof. intros Hj. unfold shl. by rewrite testbit_block_type, Z.shiftl_spec. Qed.

Lemma testbit_shr (x k j : Z) : 0 <= j -> Z.testbit (shr x k) j = Z.testbit x (j + k).
Proof. intros Hj. unfold shr. by rewrite Z.shiftr_spec. Qed.

Lemma testbit_bnot (x j : Z) :
  0 <= j -> Z.testbit (bnot x) j = (j <? bits_per_block) && negb (Z.testbit x j).
Proof. intros Hj. unfold bnot. by rewrite testbit_block_type, Z.lnot_spec. Qed.

Lemma one_block_ones : one_block = Z.ones bits_per_block.
Proof.
  unfold one_block, block_type, zero_block. pose proof W_pos.
  rewrite Z.ones_equiv. change (Z.lnot 0) with (-1).
  pose proof pow2_W_pos.
  symmetry. apply (Z.mod_unique _ _ (-1)); lia.
Qed.

Lemma is_block_one_block : is_block one_block.
Proof. apply block_type_is_block. Qed.

Lemma testbit_one_block (j : Z) :
  Z.testbit one_block j = (0 <=? j) && (j <? bits_per_block).
Proof.
  rewrite one_block_ones. pose proof W_pos.
  destruct (Z.leb_spec 0 j); simpl.
  - apply Z.testbit_ones_nonneg; lia.
  - apply Z.testbit_neg_r. lia.
Qed.

Lemma nonzero_true (x : Z) : nonzero x = true <-> x <> 0.
Proof. unfold nonzero, zero_block. destruct (Z.eqb_spec x 0); split; (done || lia). Qed.

Lemma nonzero_false (x : Z) : nonzero x = false <-> x = 0.
Proof. unfold nonzero, zero_block. destruct (Z.eqb_spec x 0); split; (done || lia). Qed.

Lemma nonzero_bits (x : Z) :
  0 <= x -> nonzero x = true <-> exists j, 0 <= j /\ Z.testbit x j = true.
Proof.
  intros Hx. rewrite nonzero_true. split.
  - intros Hne. exists (Z.log2 x). split; [apply Z.log2_nonneg |].
    apply Z.bit_log2. lia.
  - intros (j & Hj & Hbit) ->. by rewrite Z.bits_0 in Hbit.
Qed.

Lemma block_nonzero_bits (x : Z) :
  is_block x ->
  nonzero x = true <-> exists j, 0 <= j < bits_per_block /\ Z.testbit x j = true.
Proof.
  intros Hx. rewrite nonzero_bits by apply Hx. split.
  - intros (j & Hj & Hbit). exists j. split; [| done].
    destruct (Z.lt_ge_cases j bits_per_block); [lia |].
    by rewrite is_block_high in Hbit.
  - intros (j & Hj & Hbit). exists j. split; [lia | done].
Qed.

Lemma block_zero_bits (x : Z) :
  is_block x ->
  nonzero x = false <-> forall j, 0 <= j < bits_per_block -> Z.testbit x j = false.
Proof.
  intros Hx. split.
  - intros Hz%nonzero_false j Hj. subst. apply Z.bits_0.
  - intros Hbits. destruct (nonzero x) eqn:E; [| done].
    apply block_nonzero_bits in E as (j & Hj & Hbit); [| done].
    by rewrite Hbits in Hbit.
Qed.

End BlockFacts.

Section MaskFacts.

Context {Block : UnsignedBlock}.

Lemma shl_1 (k : Z) : 0 <= k < bits_per_block -> shl (block_type 1) k = 2 ^ k.
Proof.
  intros Hk. rewrite (block_type_small 1) by apply is_block_1.
  unfold shl. rewrite Z.shiftl_1_l. apply block_type_small.
  split; [apply Z.pow_nonneg; lia | apply Z.pow_lt_mono_r; lia].
Qed.

Lemma testbit_bit_mask (pos j : Z) :
  0 <= j -> Z.testbit (bit_mask pos) j = (j =? bit_index pos).
Proof.
  intros Hj. unfold bit_mask, bit_index.
  pose proof (div_mod_W pos) as [_ Hb].
  rewrite shl_1 by done.
  rewrite block_type_small.
  - rewrite Z.pow2_bits_eqb by lia. apply Z.eqb_sym.
  - split; [apply Z.pow_nonneg; lia | apply Z.pow_lt_mono_r; lia].
Qed.

Lemma is_block_bit_mask (pos : Z) : is_block (bit_mask pos).
Proof. apply block_type_is_block. Qed.

Lemma nonzero_land_bit_mask (x pos : Z) :
  is_block x -> nonzero (Z.land x (bit_mask pos)) = Z.testbit x (bit_index pos).
Proof.
  intros Hx. pose proof (div_mod_W pos) as [_ Hb]. fold (bit_index pos) in Hb.
  destruct (Z.testbit x (bit_index pos)) eqn:E.
  - apply block_nonzero_bits; [by apply is_block_land_l |].
    exists (bit_index pos). split; [done |].
    rewrite Z.land_spec, E, testbit_bit_mask by lia. by rewrite Z.eqb_refl.
  - apply block_zero_bits; [by apply is_block_land_l |].
    intros j Hj. rewrite Z.land_spec, testbit_bit_mask by lia.
    destruct (Z.eqb_spec j (bit_index pos)) as [-> |]; [by rewrite E |].
    apply andb_false_r.
Qed.

Lemma bsub_shl_1 (k : Z) :
  0 <= k < bits_per_block -> bsub (shl (block_type 1) k) 1 = Z.ones k.
Proof.
  intros Hk. rewrite shl_1 by done. unfold bsub. rewrite Z.ones_equiv.
  apply block_type_small. unfold Z.pred.
  assert (0 < 2 ^ k) by (apply Z.pow_pos_nonneg; lia).
  assert (2 ^ k < 2 ^ bits_per_block) by (apply Z.pow_lt_mono_r; lia).
  unfold is_block. lia.
Qed.

Lemma is_block_bit_mask_range (first last : Z) : is_block (bit_mask_range first last).
Proof. unfold bit_mask_range. destruct (_ =? _); apply block_type_is_block. Qed.

Lemma testbit_bit_mask_range (first last j : Z) :
  0 <= j < bits_per_block ->
  bit_index first <= bit_index last ->
  Z.testbit (bit_mask_range first last) j
  = (bit_index first <=? j) && (j <=? bit_index last).
Proof.
  intros Hj Hfl. unfold bit_mask_range, block_last_bit_index.
  pose proof (div_mod_W first) as [_ Hf]. fold (bit_index first) in Hf.
  pose proof (div_mod_W last) as [_ Hl]. fold (bit_index last) in Hl.
  destruct (Z.eqb_spec (bit_index last) (bits_per_block - 1)) as [Heq | Hne].
  - rewrite testbit_block_type, testbit_shl, testbit_one_block by lia.
    destruct (Z.ltb_spec j bits_per_block), (Z.leb_spec 0 (j - bit_index first)),
      (Z.ltb_spec (j - bit_index first) bits_per_block),
      (Z.leb_spec (bit_index first) j), (Z.leb_spec j (bit_index last));
      simpl; (done || lia).
  - rewrite testbit_block_type, Z.lxor_spec, !bsub_shl_1 by lia.
    rewrite !Z.testbit_ones_nonneg by lia.
    destruct (Z.ltb_spec j bits_per_block), (Z.ltb_spec j (bit_index last + 1)),
      (Z.ltb_spec j (bit_index first)),
      (Z.leb_spec (bit_index first) j), (Z.leb_spec j (bit_index last));
      simpl; (done || lia).
Qed.

End MaskFacts.

Section BitAt.

Context {Block : UnsignedBlock}.

Lemma bit_at_neg (m : list Z) (p : Z) : p < 0 -> bit_at m p = false.
Proof. intros Hp. unfold bit_at. destruct (Z.leb_spec 0 p); [lia | done]. Qed.

Lemma bit_at_split (m : list Z) (i j : Z) :
  0 <= i -> 0 <= j < bits_per_block ->
  bit_at m (i * bits_per_block + j) = Z.testbit (Vec.get m i) j.
Proof.
  intros Hi Hj. unfold bit_at.
  destruct (div_mod_W_unique i j Hj) as [-> ->].
  destruct (Z.leb_spec 0 (i * bits_per_block + j)); [done | nia].
Qed.

Lemma bit_at_testbit (m : list Z) (p : Z) :
  0 <= p ->
  bit_at m p = Z.testbit (Vec.get m (block_index p)) (bit_index p).
Proof.
  intros Hp. unfold bit_at, block_index, bit_index.
  destruct (Z.leb_spec 0 p); [done | lia].
Qed.

Lemma bit_at_out (m : list Z) (p : Z) :
  Vec.size m * bits_per_block <= p -> bit_at m p = false.
Proof.
  intros Hp. unfold bit_at. rewrite Vec_get_out.
  - rewrite Z.bits_0. apply andb_false_r.
  - by apply div_W_le.
Qed.

Lemma bit_at_set (m : list Z) (i x p : Z) :
  0 <= i < Vec.size m -> 0 <= p ->
  bit_at (Vec.set m i x) p
  = if block_index p =? i then Z.testbit x (bit_index p) else bit_at m p.
Proof.
  intros Hi Hp. rewrite !bit_at_testbit by done.
  pose proof (div_W_nonneg p Hp). fold (block_index p) in *.
  rewrite Vec_get_set by lia. rewrite (Z.eqb_sym i).
  by destruct (block_index p =? i).
Qed.

Lemma Vec_ext_bits (a b : list Z) :
  Forall is_block a -> Forall is_block b ->
  Vec.size a = Vec.size b ->
  (forall p, 0 <= p < Vec.size a * bits_per_block -> bit_at a p = bit_at b p) ->
  a = b.
Proof.
  intros Ha Hb Hlen Hbits. apply Vec_ext; [done |].
  intros i Hi. apply block_ext; [by apply Vec_get_block .. |].
  intros j Hj. rewrite <- !bit_at_split by lia. apply Hbits. nia.
Qed.

End BitAt.

Section Loops.

Context {Block : UnsignedBlock}.

(** An ascending loop that writes [m[i] = g i m], where [g i] reads only
    entries at or above [i]. *)
Lemma for_up_set (g : Z -> list Z -> Z) (n : nat) (lo : Z) (m : list Z) :
  0 <= lo -> lo + Z.of_nat n <= Vec.size m ->
  (forall i m1 m2, lo <= i < lo + Z.of_nat n ->
                   (forall j, i <= j -> Vec.get m1 j = Vec.get m2 j) ->
                   g i m1 = g i m2) ->
  let r := for_up n lo (fun i m => Vec.set m i (g i m)) m in
  Vec.size r = Vec.size m
  /\ forall j, 0 <= j ->
       Vec.get r j = if (lo <=? j) && (j <? lo + Z.of_nat n) then g j m else Vec.get m j.
Proof.
  revert lo m. induction n as [| n IH]; intros lo m Hlo Hhi Hg; simpl.
  - split; [done |]. intros j Hj.
    destruct_cmp; simpl; (done || lia).
  - destruct (IH (lo + 1) (Vec.set m lo (g lo m))) as [Hsz Hget];
      [lia | rewrite Vec_size_set; lia | |].
    { intros i m1 m2 Hi. apply Hg. lia. }
    rewrite Vec_size_set in Hsz. split; [done |].
    intros j Hj. rewrite Hget by done.
    destruct_cmp; simpl; try lia;
      first [ apply Hg; [lia |]; intros; apply Vec_get_set_ne; lia
            | apply Vec_get_set_ne; lia
            | assert (j = lo) as -> by lia; apply Vec_get_set_eq; lia ].
Qed.

(** A descending loop that writes [m[i] = g i m], where [g i] reads only
    entries at or below [i]. *)
Lemma for_down_set (g : Z -> list Z -> Z) (n : nat) (hi : Z) (m : list Z) :
  Z.of_nat n <= hi + 1 -> hi < Vec.size m ->
  (forall i m1 m2, hi - Z.of_nat n < i <= hi ->
                   (forall j, 0 <= j <= i -> Vec.get m1 j = Vec.get m2 j) ->
                   g i m1 = g i m2) ->
  let r := for_down n hi (fun i m => Vec.set m i (g i m)) m in
  Vec.size r = Vec.size m
  /\ forall j, 0 <= j ->
       Vec.get r j = if (hi - Z.of_nat n <? j) && (j <=? hi) then g j m else Vec.get m j.
Proof.
  revert hi m. induction n as [| n IH]; intros hi m Hlo Hhi Hg; simpl.
  - split; [done |]. intros j Hj.
    destruct_cmp; simpl; (done || lia).
  - destruct (IH (hi - 1) (Vec.set m hi (g hi m))) as [Hsz Hget];
      [lia | rewrite Vec_size_set; lia | |].
    { intros i m1 m2 Hi. apply Hg. lia. }
    rewrite Vec_size_set in Hsz. split; [done |].
    intros j Hj. rewrite Hget by done.
    destruct_cmp; simpl; try lia;
      first [ apply Hg; [lia |]; intros; apply Vec_get_set_ne; lia
            | apply Vec_get_set_ne; lia
            | assert (j = hi) as -> by lia; apply Vec_get_set_eq; lia ].
Qed.

Lemma for_up_set_blocks (g : Z -> list Z -> Z) (n : nat) (lo : Z) (m : list Z) :
  Forall is_block m -> (forall i m', Forall is_block m' -> is_block (g i m')) ->
  Forall is_block (for_up n lo (fun i m => Vec.set m i (g i m)) m).
Proof.
  intros Hm Hg. revert lo m Hm. induction n as [| n IH]; intros lo m Hm; simpl; [done |].
  apply IH. apply Vec_set_block; [done | by apply Hg].
Qed.

Lemma for_down_set_blocks (g : Z -> list Z -> Z) (n : nat) (hi : Z) (m : list Z) :
  Forall is_block m -> (forall i m', Forall is_block m' -> is_block (g i m')) ->
  Forall is_block (for_down n hi (fun i m => Vec.set m i (g i m)) m).
Proof.
  intros Hm Hg. revert hi m Hm. induction n as [| n IH]; intros hi m Hm; simpl; [done |].
  apply IH. apply Vec_set_block; [done | by apply Hg].
Qed.

(** The first returning iteration of a scan. *)
Lemma scan_up_None {R : Type} (body : Z -> option R) (n : nat) (lo : Z) :
  scan_up n lo body = None <-> forall i, lo <= i < lo + Z.of_nat n -> body i = None.
Proof.
  revert lo. induction n as [| n IH]; intros lo; simpl.
  - split; [intros _ i Hi; lia | done].
  - destruct (body lo) eqn:E.
    + split; [done |]. intros H. rewrite H in E by lia. done.
    + rewrite IH. split.
      * intros H i Hi. destruct (Z.eq_dec i lo) as [-> |]; [done |]. apply H. lia.
      * intros H i Hi. apply H. lia.
Qed.

Lemma scan_up_Some {R : Type} (body : Z -> option R) (n : nat) (lo : Z) (r : R) :
  scan_up n lo body = Some r <->
  exists i, lo <= i < lo + Z.of_nat n /\ body i = Some r
            /\ forall k, lo <= k < i -> body k = None.
Proof.
  revert lo. induction n as [| n IH]; intros lo; simpl.
  - split; [done | intros (i & Hi & _); lia].
  - destruct (body lo) eqn:E.
    + split.
      * intros [= ->]. exists lo. split; [lia |]. split; [done |]. intros k Hk. lia.
      * intros (i & Hi & Hbody & Hmin).
        destruct (Z.eq_dec i lo) as [-> |]; [congruence |].
        rewrite Hmin in E by lia. done.
    + rewrite IH. split.
      * intros (i & Hi & Hbody & Hmin). exists i. split; [lia |]. split; [done |].
        intros k Hk. destruct (Z.eq_dec k lo) as [-> |]; [done |]. apply Hmin. lia.
      * intros (i & Hi & Hbody & Hmin). exists i.
        destruct (Z.eq_dec i lo) as [-> |]; [congruence |].
        split; [lia |]. split; [done |]. intros k Hk. apply Hmin. lia.
Qed.

Lemma scan_down_None {R : Type} (body : Z -> option R) (n : nat) (hi : Z) :
  scan_down n hi body = None <-> forall i, hi - Z.of_nat n < i <= hi -> body i = None.
Proof.
  revert hi. induction n as [| n IH]; intros hi; simpl.
  - split; [intros _ i Hi; lia | done].
  - destruct (body hi) eqn:E.
    + split; [done |]. intros H. rewrite H in E by lia. done.
    + rewrite IH. split.
      * intros H i Hi. destruct (Z.eq_dec i hi) as [-> |]; [done |]. apply H. lia.
      * intros H i Hi. apply H. lia.
Qed.

Lemma scan_down_Some {R : Type} (body : Z -> option R) (n : nat) (hi : Z) (r : R) :
  scan_down n hi body = Some r <->
  exists i, hi - Z.of_nat n < i <= hi /\ body i = Some r
            /\ forall k, i < k <= hi -> body k = None.
Proof.
  revert hi. induction n as [| n IH]; intros hi; simpl.
  - split; [done | intros (i & Hi & _); lia].
  - destruct (body hi) eqn:E.
    + split.
      * intros [= ->]. exists hi. split; [lia |]. split; [done |]. intros k Hk. lia.
      * intros (i & Hi & Hbody & Hmin).
        destruct (Z.eq_dec i hi) as [-> |]; [congruence |].
        rewrite Hmin in E by lia. done.
    + rewrite IH. split.
      * intros (i & Hi & Hbody & Hmin). exists i. split; [lia |]. split; [done |].
        intros k Hk. destruct (Z.eq_dec k hi) as [-> |]; [done |]. apply Hmin. lia.
      * intros (i & Hi & Hbody & Hmin). exists i.
        destruct (Z.eq_dec i hi) as [-> |]; [congruence |].
        split; [lia |]. split; [done |]. intros k Hk. apply Hmin. lia.
Qed.

End Loops.

Section Invariant.

Context {Block : UnsignedBlock}.

(** The invariant, with I1 read on positions: every bit at a position
    [>= size] is zero. *)
Lemma invariant_bits (v : dynamic_bitset) :
  invariant v <->
  Forall is_block (m_blocks v)
  /\ 0 <= m_bits_number v
  /\ Vec.size (m_blocks v) = blocks_required (m_bits_number v)
  /\ forall p, m_bits_number v <= p -> bit_at (m_blocks v) p = false.
Proof.
  unfold invariant, well_typed, sizing_invariant, sanitization_invariant,
    num_blocks, size, last_block.
  rewrite <- blocks_required_ceil.
  destruct v as [m n]; simpl.
  pose proof W_pos as HW. pose proof (div_mod_W n) as [Hn Hnb].
  pose proof (blocks_required_bounds n) as Hreq.
  split.
  - intros ((Hm & Hn0) & Hsz & Hsan). repeat split; try done.
    intros p Hp.
    destruct (Z.le_gt_cases (Vec.size m * bits_per_block) p) as [Hout | Hin];
      [by apply bit_at_out |].
    assert (n mod bits_per_block <> 0) as Hne.
    { intros H0. apply blocks_required_aligned in H0. lia. }
    pose proof (blocks_required_unaligned n Hne) as Hreq'.
    pose proof (div_mod_W p) as [Hpd Hpb].
    assert (p / bits_per_block = Vec.size m - 1) as Hidx by nia.
    rewrite bit_at_testbit by lia. unfold block_index, bit_index. rewrite Hidx.
    apply Hsan; [done |]. nia.
  - intros (Hm & Hn0 & Hsz & Hhigh). repeat split; try done.
    intros Hne j Hj.
    pose proof (blocks_required_unaligned n Hne) as Hreq'.
    replace (Vec.size m - 1) with (n / bits_per_block) by lia.
    rewrite <- bit_at_split; [| apply div_W_nonneg; lia | lia].
    apply Hhigh. nia.
Qed.

Lemma invariant_blocks (v : dynamic_bitset) : invariant v -> Forall is_block (m_blocks v).
Proof. by intros ((? & ?) & _). Qed.

Lemma invariant_size_nonneg (v : dynamic_bitset) : invariant v -> 0 <= m_bits_number v.
Proof. by intros ((? & ?) & _). Qed.

Lemma invariant_num_blocks (v : dynamic_bitset) :
  invariant v -> Vec.size (m_blocks v) = blocks_required (m_bits_number v).
Proof. intros Hv. apply invariant_bits in Hv. tauto. Qed.

Lemma invariant_high (v : dynamic_bitset) (p : Z) :
  invariant v -> m_bits_number v <= p -> bit_at (m_blocks v) p = false.
Proof. intros Hv. apply invariant_bits in Hv. destruct Hv as (_ & _ & _ & H). apply H. Qed.

Lemma invariant_capacity (v : dynamic_bitset) :
  invariant v ->
  m_bits_number v <= Vec.size (m_blocks v) * bits_per_block
                  < m_bits_number v + bits_per_block.
Proof.
  intros Hv. rewrite (invariant_num_blocks v Hv). apply blocks_required_bounds.
Qed.

Lemma invariant_block_index (v : dynamic_bitset) (p : Z) :
  invariant v -> 0 <= p < m_bits_number v ->
  0 <= block_index p < Vec.size (m_blocks v).
Proof.
  intros Hv Hp. pose proof (invariant_capacity v Hv).
  unfold block_index. split; [apply div_W_nonneg; lia | apply div_W_lt; lia].
Qed.

(** Two bitsets that satisfy the invariant and agree on their size and on
    every bit are the same. *)
Lemma invariant_ext (a b : dynamic_bitset) :
  invariant a -> invariant b ->
  m_bits_number a = m_bits_number b ->
  (forall p, 0 <= p < m_bits_number a -> bit_at (m_blocks a) p = bit_at (m_blocks b) p) ->
  a = b.
Proof.
  intros Ha Hb Hsz Hbits.
  destruct a as [ma na], b as [mb nb]; simpl in *. subst nb. f_equal.
  apply Vec_ext_bits.
  - apply (invariant_blocks _ Ha).
  - apply (invariant_blocks _ Hb).
  - pose proof (invariant_num_blocks _ Ha). pose proof (invariant_num_blocks _ Hb).
    simpl in *. congruence.
  - intros p Hp. destruct (Z.lt_ge_cases p na) as [Hlt | Hge]; [apply Hbits; lia |].
    pose proof (invariant_high _ p Ha) as Ha'. pose proof (invariant_high _ p Hb) as Hb'.
    simpl in *. rewrite Ha', Hb'; (done || lia).
Qed.

(** [check_consistency] decides I1 and I2. *)
Lemma check_unused_bits_spec (v : dynamic_bitset) :
  Forall is_block (m_blocks v) ->
  check_unused_bits v = true <-> sanitization_invariant v.
Proof.
  intros Hm. unfold check_unused_bits, sanitization_invariant, extra_bits_number,
    bit_index, size.
  pose proof (div_mod_W (m_bits_number v)) as [_ Hb].
  set (e := m_bits_number v mod bits_per_block) in *.
  assert (is_block (last_block v)) as Hlast by (by apply Vec_get_block).
  destruct (Z.ltb_spec 0 e) as [Hpos | Hzero].
  - rewrite <- (negb_false_iff (_ =? _)). fold (nonzero (Z.land (last_block v) (shl one_block e))).
    rewrite block_zero_bits by (by apply is_block_land_l).
    split.
    + intros H _ j Hj. specialize (H j ltac:(lia)).
      rewrite Z.land_spec, testbit_shl, testbit_one_block in H by lia.
      destruct (Z.testbit (last_block v) j); [| done].
      revert H. destruct_cmp; simpl; (done || lia).
    + intros H j Hj. rewrite Z.land_spec, testbit_shl, testbit_one_block by lia.
      destruct (Z.lt_ge_cases j e).
      * destruct_cmp; simpl; try lia; apply andb_false_r.
      * rewrite H; [done | lia | lia].
  - split; [intros _ Hne; lia | done].
Qed.

Lemma check_size_spec (v : dynamic_bitset) :
  check_size v = true <-> sizing_invariant v.
Proof.
  unfold check_size, sizing_invariant, num_blocks. rewrite <- blocks_required_ceil.
  rewrite Z.eqb_eq. split; intros; congruence.
Qed.

Lemma check_consistency_spec (v : dynamic_bitset) :
  well_typed v ->
  check_consistency v = true <-> invariant v.
Proof.
  intros Hwt. unfold check_consistency, invariant.
  rewrite andb_true_iff, check_size_spec, check_unused_bits_spec by apply Hwt.
  tauto.
Qed.

Lemma invariant_check (v : dynamic_bitset) : invariant v -> check_consistency v = true.
Proof. intros Hv. apply check_consistency_spec; [apply Hv | done]. Qed.

Lemma assert_true (c : bool) : c = true -> assert c = Some tt.
Proof. by intros ->. Qed.

Lemma assert_Some (c : bool) (u : unit) : assert c = Some u -> c = true.
Proof. by destruct c. Qed.

End Invariant.

Section Sanitize.

Context {Block : UnsignedBlock}.

Lemma invariant_intro (m : list Z) (n : Z) :
  Forall is_block m -> 0 <= n ->
  Vec.size m = blocks_required n ->
  (forall p, n <= p < Vec.size m * bits_per_block -> bit_at m p = false) ->
  invariant (mk_bitset m n).
Proof.
  intros Hm Hn Hsz Hhigh. apply invariant_bits; simpl. repeat split; try done.
  intros p Hp.
  destruct (Z.le_gt_cases (Vec.size m * bits_per_block) p); [by apply bit_at_out |].
  apply Hhigh. lia.
Qed.

(** The mask of [sanitize] keeps the bits below [shift]. *)
Lemma testbit_sanitize_mask (x shift j : Z) :
  is_block x -> 0 <= shift -> 0 <= j ->
  Z.testbit (Z.land x (bnot (shl one_block shift))) j = Z.testbit x j && (j <? shift).
Proof.
  intros Hx Hs Hj. rewrite Z.land_spec, testbit_bnot, testbit_shl, testbit_one_block by lia.
  destruct (Z.lt_ge_cases j bits_per_block).
  - destruct (Z.testbit x j); [| done]. destruct_cmp; simpl; (done || lia).
  - by rewrite is_block_high.
Qed.

Lemma sanitize_spec (v : dynamic_bitset) :
  well_typed v ->
  Vec.size (m_blocks v) = blocks_required (m_bits_number v) ->
  invariant (sanitize v)
  /\ m_bits_number (sanitize v) = m_bits_number v
  /\ forall p, p < m_bits_number v ->
       bit_at (m_blocks (sanitize v)) p = bit_at (m_blocks v) p.
Proof.
  intros [Hm Hn] Hsz. destruct v as [m n]; simpl in *.
  pose proof W_pos as HW. pose proof (div_mod_W n) as [Hnd Hnb].
  pose proof (blocks_required_bounds n) as Hreq.
  unfold sanitize; simpl.
  destruct (Z.ltb_spec 0 (n mod bits_per_block)) as [Hpos | Hzero].
  - assert (n mod bits_per_block <> 0) as Hne by lia.
    pose proof (blocks_required_unaligned n Hne) as Hreq'.
    unfold set_last_block, last_block, with_blocks; simpl.
    set (x := Z.land _ _).
    assert (0 <= Vec.size m - 1 < Vec.size m) as Hidx.
    { pose proof (div_W_nonneg n Hn). lia. }
    assert (forall p, 0 <= p ->
              bit_at (Vec.set m (Vec.size m - 1) x) p
              = bit_at m p && ((p <? n) || negb (block_index p =? Vec.size m - 1)))
      as Hbit.
    { intros p Hp. rewrite bit_at_set by lia.
      destruct (Z.eqb_spec (block_index p) (Vec.size m - 1)) as [Heq | Hneq].
      - unfold x. pose proof (div_mod_W p) as [Hpd Hpb].
        rewrite testbit_sanitize_mask; [| by apply Vec_get_block | lia | apply Hpb].
        rewrite <- Heq. rewrite <- bit_at_testbit by done.
        unfold block_index, bit_index in *. f_equal.
        rewrite orb_false_r. destruct_cmp; (done || nia).
      - by rewrite orb_true_r, andb_true_r. }
    split; [| split; [done |]].
    + apply invariant_intro; try done.
      * apply Vec_set_block; [done |]. by apply is_block_land_l, Vec_get_block.
      * by rewrite Vec_size_set.
      * rewrite Vec_size_set. intros p Hp. rewrite Hbit by lia.
        assert (block_index p = Vec.size m - 1) as ->.
        { unfold block_index. pose proof (div_mod_W p). nia. }
        rewrite Z.eqb_refl. destruct_cmp; try lia; try apply andb_false_r.
    + intros p Hp. destruct (Z.lt_ge_cases p 0); [by rewrite !bit_at_neg |].
      rewrite Hbit by done. destruct_cmp; try lia; try apply andb_true_r.
  - split; [| done]. apply invariant_intro; try done.
    intros p Hp. assert (n mod bits_per_block = 0) as H0 by lia.
    pose proof (blocks_required_aligned n H0). lia.
Qed.

Lemma sanitize_blocks_size (v : dynamic_bitset) :
  Vec.size (m_blocks (sanitize v)) = Vec.size (m_blocks v).
Proof.
  unfold sanitize. destruct (0 <? _); [| done].
  unfold set_last_block, with_blocks; simpl. apply Vec_size_set.
Qed.

End Sanitize.

Section SingleBits.

Context {Block : UnsignedBlock}.

Lemma bit_neg (v : dynamic_bitset) (p : Z) : p < 0 -> bit v p = false.
Proof. apply bit_at_neg. Qed.

Lemma bit_high (v : dynamic_bitset) (p : Z) :
  invariant v -> m_bits_number v <= p -> bit v p = false.
Proof. apply invariant_high. Qed.

Lemma test_spec (v : dynamic_bitset) (pos : Z) :
  invariant v -> 0 <= pos < size v -> test v pos = Some (bit v pos).
Proof.
  intros Hv Hpos. unfold test. rewrite assert_true by (apply Z.ltb_lt; lia). simpl.
  rewrite nonzero_land_bit_mask by (apply Vec_get_block, invariant_blocks, Hv).
  unfold bit. by rewrite bit_at_testbit by lia.
Qed.

Lemma subscript_test (v : dynamic_bitset) (pos : Z) : subscript v pos = test v pos.
Proof. reflexivity. Qed.

(** Replacing one block by a block that agrees with the invariant. *)
Lemma invariant_set_block (v : dynamic_bitset) (i x : Z) :
  invariant v -> is_block x -> 0 <= i < Vec.size (m_blocks v) ->
  (forall j, 0 <= j < bits_per_block -> m_bits_number v <= i * bits_per_block + j ->
             Z.testbit x j = false) ->
  invariant (with_blocks v (Vec.set (m_blocks v) i x)).
Proof.
  intros Hv Hx Hi Hhigh. unfold with_blocks. apply invariant_intro.
  - apply Vec_set_block; [apply (invariant_blocks _ Hv) | done].
  - apply (invariant_size_nonneg _ Hv).
  - rewrite Vec_size_set. apply (invariant_num_blocks _ Hv).
  - intros p Hp. pose proof (invariant_size_nonneg _ Hv).
    rewrite bit_at_set by lia.
    destruct (Z.eqb_spec (block_index p) i) as [Heq | Hne].
    + pose proof (div_mod_W p) as [Hpd Hpb]. apply Hhigh; [done |].
      unfold block_index in Heq. unfold bit_index. nia.
    + apply (invariant_high _ _ Hv). lia.
Qed.

Lemma bit_set_block (v : dynamic_bitset) (i x p : Z) :
  0 <= i < Vec.size (m_blocks v) ->
  bit (with_blocks v (Vec.set (m_blocks v) i x)) p
  = if (0 <=? p) && (block_index p =? i) then Z.testbit x (bit_index p) else bit v p.
Proof.
  intros Hi. unfold bit, with_blocks; simpl.
  destruct (Z.leb_spec 0 p); simpl; [by apply bit_at_set |].
  by rewrite !bit_at_neg.
Qed.

Lemma set_bit_spec (v : dynamic_bitset) (pos : Z) (value : bool) :
  invariant v -> 0 <= pos < size v ->
  exists v', set_bit v pos value = Some v'
             /\ invariant v' /\ size v' = size v
             /\ forall p, bit v' p = if p =? pos then value else bit v p.
Proof.
  intros Hv Hpos. unfold set_bit.
  rewrite assert_true by (apply Z.ltb_lt; lia). simpl.
  pose proof (invariant_block_index v pos Hv Hpos) as Hidx.
  pose proof (invariant_blocks v Hv) as Hm.
  pose proof (div_mod_W pos) as [Hpd Hpb].
  set (m := m_blocks v) in *. set (i := block_index pos) in *.
  assert (forall x,
    is_block x ->
    (forall j, 0 <= j < bits_per_block ->
       Z.testbit x j = if j =? bit_index pos then value else Z.testbit (Vec.get m i) j) ->
    invariant (with_blocks v (Vec.set m i x))
    /\ size (with_blocks v (Vec.set m i x)) = size v
    /\ forall p, bit (with_blocks v (Vec.set m i x)) p
                 = if p =? pos then value else bit v p) as Hgen.
  { intros x Hx Hbits. split; [| split; [done |]].
    - apply invariant_set_block; try done.
      intros j Hj Hhigh. rewrite Hbits by done.
      destruct (Z.eqb_spec j (bit_index pos)) as [-> | Hne].
      + unfold i, block_index, bit_index, size in *. nia.
      + rewrite <- bit_at_split by lia. apply (invariant_high _ _ Hv). lia.
    - intros p. rewrite bit_set_block by done.
      destruct (Z.leb_spec 0 p); simpl.
      + pose proof (div_mod_W p) as [Hqd Hqb].
        destruct (Z.eqb_spec (block_index p) i) as [Heq | Hne].
        * rewrite Hbits by apply Hqb. unfold bit. rewrite bit_at_testbit by done.
          rewrite Heq. unfold i, block_index, bit_index in *.
          destruct_cmp; (done || nia).
        * destruct (Z.eqb_spec p pos) as [-> | _]; [done | done].
      + destruct (Z.eqb_spec p pos); [lia | done]. }
  destruct value.
  - eexists. split; [done |]. apply Hgen.
    + apply is_block_lor; [by apply Vec_get_block | apply is_block_bit_mask].
    + intros j Hj. rewrite Z.lor_spec, testbit_bit_mask by lia.
      destruct (j =? bit_index pos); [apply orb_true_r | apply orb_false_r].
  - eexists. split; [done |]. apply Hgen.
    + apply is_block_land_l. by apply Vec_get_block.
    + intros j Hj. rewrite Z.land_spec, testbit_bnot, testbit_bit_mask by lia.
      destruct_cmp; simpl; try lia; (apply andb_false_r || apply andb_true_r).
Qed.

Lemma flip_bit_spec (v : dynamic_bitset) (pos : Z) :
  invariant v -> 0 <= pos < size v ->
  exists v', flip_bit v pos = Some v'
             /\ invariant v' /\ size v' = size v
             /\ forall p, bit v' p = if p =? pos then negb (bit v p) else bit v p.
Proof.
  intros Hv Hpos. unfold flip_bit.
  rewrite assert_true by (apply Z.ltb_lt; lia). simpl.
  pose proof (invariant_block_index v pos Hv Hpos) as Hidx.
  pose proof (invariant_blocks v Hv) as Hm.
  pose proof (div_mod_W pos) as [Hpd Hpb].
  set (m := m_blocks v) in *. set (i := block_index pos) in *.
  eexists. split; [done |]. split; [| split; [done |]].
  - apply invariant_set_block; try done.
    + apply is_block_lxor; [by apply Vec_get_block | apply is_block_bit_mask].
    + intros j Hj Hhigh. rewrite Z.lxor_spec, testbit_bit_mask by lia.
      destruct (Z.eqb_spec j (bit_index pos)) as [-> | Hne].
      * unfold i, block_index, bit_index, size in *. nia.
      * rewrite <- bit_at_split by lia.
        pose proof (invariant_high _ (i * bits_per_block + j) Hv Hhigh) as Hz.
        fold m in Hz. by rewrite Hz.
  - intros p. rewrite bit_set_block by done.
    destruct (Z.leb_spec 0 p); simpl.
    + pose proof (div_mod_W p) as [Hqd Hqb].
      destruct (Z.eqb_spec (block_index p) i) as [Heq | Hne].
      * rewrite Z.lxor_spec, testbit_bit_mask by apply Hqb.
        unfold bit. rewrite bit_at_testbit by done. rewrite Heq.
        unfold i, block_index, bit_index in *.
        destruct_cmp; try nia; [apply xorb_true_r | apply xorb_false_r].
      * destruct (Z.eqb_spec p pos) as [-> | _]; [done | done].
    + destruct (Z.eqb_spec p pos); [lia | done].
Qed.

End SingleBits.

Section WholeBitset.

Context {Block : UnsignedBlock}.

Lemma Vec_size_fill (m : list Z) (first last x : Z) :
  0 <= first <= last -> last <= Vec.size m ->
  Vec.size (Vec.fill m first last x) = Vec.size m.
Proof.
  intros Hf Hl. unfold Vec.fill.
  rewrite !Vec_size_app, Vec_size_take, Vec_size_replicate, Vec_size_drop. lia.
Qed.

Lemma Vec_get_fill (m : list Z) (first last x j : Z) :
  0 <= first <= last -> last <= Vec.size m -> 0 <= j ->
  Vec.get (Vec.fill m first last x) j
  = if (first <=? j) && (j <? last) then x else Vec.get m j.
Proof.
  intros Hf Hl Hj. unfold Vec.fill.
  destruct (Z.lt_ge_cases j first) as [Hlt | Hge].
  - rewrite Vec_get_app_l by (rewrite Vec_size_take; lia).
    rewrite Vec_get_take by lia. destruct_cmp; simpl; (done || lia).
  - rewrite Vec_get_app_r by (rewrite Vec_size_take; lia).
    rewrite Vec_size_take, Z.min_l by lia. rewrite Z2Nat.id by lia.
    destruct (Z.lt_ge_cases j last) as [Hlt' | Hge'].
    + rewrite Vec_get_app_l by (rewrite Vec_size_replicate; lia).
      rewrite Vec_get_replicate by lia. destruct_cmp; simpl; (done || lia).
    + rewrite Vec_get_app_r by (rewrite Vec_size_replicate; lia).
      rewrite Vec_size_replicate, Vec_get_drop by lia.
      destruct_cmp; simpl; try lia. f_equal. lia.
Qed.

Lemma Vec_fill_blocks (m : list Z) (first last x : Z) :
  Forall is_block m -> is_block x -> Forall is_block (Vec.fill m first last x).
Proof.
  intros Hm Hx. unfold Vec.fill. rewrite !Forall_app. repeat split.
  - by apply Forall_take.
  - by apply Forall_replicate.
  - by apply Forall_drop.
Qed.

Lemma Vec_size_map (f : Z -> Z) (m : list Z) : Vec.size (map f m) = Vec.size m.
Proof. unfold Vec.size. by rewrite length_map. Qed.

Lemma Vec_get_map (f : Z -> Z) (m : list Z) (i : Z) :
  0 <= i < Vec.size m -> Vec.get (map f m) i = f (Vec.get m i).
Proof.
  intros Hi. unfold Vec.get. rewrite (nth_indep _ 0 (f 0)).
  - apply map_nth.
  - rewrite length_map. unfold Vec.size in Hi. lia.
Qed.

Lemma reset_all_spec (v : dynamic_bitset) :
  invariant v ->
  invariant (reset_all v) /\ size (reset_all v) = size v
  /\ forall p, bit (reset_all v) p = false.
Proof.
  intros Hv. pose proof (invariant_blocks v Hv) as Hm.
  pose proof (Vec_size_nonneg (m_blocks v)) as Hsz.
  assert (forall p, bit (reset_all v) p = false) as Hbits.
  { intros p. unfold bit, reset_all, with_blocks; simpl. unfold bit_at.
    destruct (Z.leb_spec 0 p); [| done]. simpl.
    pose proof (div_W_nonneg p ltac:(done)).
    rewrite Vec_get_fill by lia.
    destruct_cmp; simpl; try apply Z.bits_0; try lia.
    rewrite Vec_get_out by done. apply Z.bits_0. }
  split; [| split; [done | done]].
  unfold reset_all, with_blocks. apply invariant_intro.
  - apply Vec_fill_blocks; [done | apply is_block_0].
  - apply (invariant_size_nonneg _ Hv).
  - rewrite Vec_size_fill by lia. apply (invariant_num_blocks _ Hv).
  - intros p _. apply Hbits.
Qed.

Lemma set_all_spec (v : dynamic_bitset) :
  invariant v ->
  invariant (set_all v) /\ size (set_all v) = size v
  /\ forall p, bit (set_all v) p = (0 <=? p) && (p <? size v).
Proof.
  intros Hv. pose proof (invariant_blocks v Hv) as Hm.
  pose proof (Vec_size_nonneg (m_blocks v)) as Hsz.
  pose proof (invariant_capacity v Hv) as Hcap.
  unfold set_all.
  set (w := with_blocks v (Vec.fill (m_blocks v) 0 (Vec.size (m_blocks v)) one_block)).
  destruct (sanitize_spec w) as (Hinv & Hsize & Hbits).
  - split; [| apply (invariant_size_nonneg _ Hv)].
    apply Vec_fill_blocks; [done | apply is_block_one_block].
  - unfold w; simpl. rewrite Vec_size_fill by lia. apply (invariant_num_blocks _ Hv).
  - split; [done |]. split; [done |]. intros p.
    destruct (Z.lt_ge_cases p (m_bits_number v)) as [Hlt | Hge].
    + unfold bit. rewrite Hbits by done. unfold w; simpl. unfold bit_at, size.
      destruct (Z.leb_spec 0 p); [| done]. simpl.
      pose proof (div_W_nonneg p ltac:(done)). pose proof (div_mod_W p) as [_ Hpb].
      rewrite Vec_get_fill by lia.
      assert (p / bits_per_block < Vec.size (m_blocks v)) by (apply div_W_lt; lia).
      destruct_cmp; simpl; try lia.
      rewrite testbit_one_block. destruct_cmp; simpl; (done || lia).
    + rewrite (bit_high _ _ Hinv) by (unfold w in *; simpl in *; lia).
      unfold size. destruct_cmp; simpl; (done || lia).
Qed.

Lemma flip_all_spec (v : dynamic_bitset) :
  invariant v ->
  invariant (flip_all v) /\ size (flip_all v) = size v
  /\ forall p, bit (flip_all v) p = (0 <=? p) && (p <? size v) && negb (bit v p).
Proof.
  intros Hv. pose proof (invariant_blocks v Hv) as Hm.
  pose proof (invariant_capacity v Hv) as Hcap.
  unfold flip_all. set (w := with_blocks v (map bnot (m_blocks v))).
  destruct (sanitize_spec w) as (Hinv & Hsize & Hbits).
  - split; [| apply (invariant_size_nonneg _ Hv)].
    unfold w; simpl. apply List.Forall_map, Forall_true. intros x. apply is_block_bnot.
  - unfold w; simpl. rewrite Vec_size_map. apply (invariant_num_blocks _ Hv).
  - split; [done |]. split; [done |]. intros p.
    destruct (Z.lt_ge_cases p (m_bits_number v)) as [Hlt | Hge].
    + unfold bit. rewrite Hbits by done. unfold w; simpl. unfold bit_at, size.
      destruct (Z.leb_spec 0 p); [| done]. simpl.
      pose proof (div_W_nonneg p ltac:(done)). pose proof (div_mod_W p) as [_ Hpb].
      assert (p / bits_per_block < Vec.size (m_blocks v)) by (apply div_W_lt; lia).
      rewrite Vec_get_map, testbit_bnot by lia.
      destruct_cmp; simpl; (done || lia).
    + rewrite (bit_high _ _ Hinv) by (unfold w in *; simpl in *; lia).
      unfold size. destruct_cmp; simpl; (done || lia).
Qed.

Lemma blockwise_spec (f : Z -> Z -> Z) (fb : bool -> bool -> bool)
    (v rhs : dynamic_bitset) :
  invariant v -> invariant rhs -> size v = size rhs ->
  (forall x y, is_block x -> is_block y -> is_block (f x y)) ->
  (forall x y j, is_block x -> is_block y -> 0 <= j < bits_per_block ->
                 Z.testbit (f x y) j = fb (Z.testbit x j) (Z.testbit y j)) ->
  fb false false = false ->
  invariant (blockwise f v rhs) /\ size (blockwise f v rhs) = size v
  /\ forall p, bit (blockwise f v rhs) p = fb (bit v p) (bit rhs p).
Proof.
  intros Hv Hrhs Hsize Hblock Hbits Hfalse.
  pose proof (invariant_blocks v Hv) as Hm.
  pose proof (invariant_blocks rhs Hrhs) as Hm'.
  pose proof (Vec_size_nonneg (m_blocks v)) as Hsz.
  assert (Vec.size (m_blocks rhs) = Vec.size (m_blocks v)) as Hsz'.
  { rewrite (invariant_num_blocks _ Hv), (invariant_num_blocks _ Hrhs).
    unfold size in Hsize. by rewrite Hsize. }
  unfold blockwise, trips_lt.
  set (g := fun (i : Z) (m : list Z) => f (Vec.get m i) (Vec.get (m_blocks rhs) i)).
  destruct (for_up_set g (Z.to_nat (Vec.size (m_blocks v) - 0)) 0 (m_blocks v))
    as [Hlen Hget]; [lia | lia | |].
  { intros i m1 m2 _ H12. unfold g. rewrite (H12 i); [done | lia]. }
  fold g. set (r := for_up _ _ _ _) in *.
  assert (forall p, bit_at r p = fb (bit v p) (bit rhs p)) as Hr.
  { intros p. unfold bit, bit_at. destruct (Z.leb_spec 0 p); simpl; [| done].
    pose proof (div_W_nonneg p ltac:(done)). pose proof (div_mod_W p) as [_ Hpb].
    rewrite Hget by done.
    destruct (Z.lt_ge_cases (p / bits_per_block) (Vec.size (m_blocks v))).
    - replace (_ && _) with true by (destruct_cmp; simpl; (done || lia)).
      unfold g. apply Hbits; try done; by apply Vec_get_block.
    - replace (_ && _) with false by (destruct_cmp; simpl; (done || lia)).
      rewrite !Vec_get_out by lia. by rewrite Z.bits_0. }
  split; [| split; [done | apply Hr]].
  unfold with_blocks. apply invariant_intro.
  - apply for_up_set_blocks; [done |]. intros i m' Hm''. unfold g.
    apply Hblock; by apply Vec_get_block.
  - apply (invariant_size_nonneg _ Hv).
  - rewrite Hlen. apply (invariant_num_blocks _ Hv).
  - intros p Hp. rewrite Hr, (bit_high v), (bit_high rhs); try done; [| lia].
    unfold size in Hsize. lia.
Qed.

End WholeBitset.

Section BitwiseAssign.

Context {Block : UnsignedBlock}.

Lemma op_and_assign_spec (v rhs : dynamic_bitset) :
  invariant v -> invariant rhs -> size v = size rhs ->
  exists v', op_and_assign v rhs = Some v' /\ invariant v' /\ size v' = size v
             /\ forall p, bit v' p = bit v p && bit rhs p.
Proof.
  intros Hv Hrhs Hsize. unfold op_and_assign.
  rewrite assert_true by (by apply Z.eqb_eq). simpl.
  eexists. split; [done |]. apply blockwise_spec; try done.
  - intros x y Hx Hy. by apply is_block_land.
  - intros x y j _ _ _. apply Z.land_spec.
Qed.

Lemma op_or_assign_spec (v rhs : dynamic_bitset) :
  invariant v -> invariant rhs -> size v = size rhs ->
  exists v', op_or_assign v rhs = Some v' /\ invariant v' /\ size v' = size v
             /\ forall p, bit v' p = bit v p || bit rhs p.
Proof.
  intros Hv Hrhs Hsize. unfold op_or_assign.
  rewrite assert_true by (by apply Z.eqb_eq). simpl.
  eexists. split; [done |]. apply blockwise_spec; try done.
  - intros x y Hx Hy. by apply is_block_lor.
  - intros x y j _ _ _. apply Z.lor_spec.
Qed.

Lemma op_xor_assign_spec (v rhs : dynamic_bitset) :
  invariant v -> invariant rhs -> size v = size rhs ->
  exists v', op_xor_assign v rhs = Some v' /\ invariant v' /\ size v' = size v
             /\ forall p, bit v' p = xorb (bit v p) (bit rhs p).
Proof.
  intros Hv Hrhs Hsize. unfold op_xor_assign.
  rewrite assert_true by (by apply Z.eqb_eq). simpl.
  eexists. split; [done |]. apply blockwise_spec; try done.
  - intros x y Hx Hy. by apply is_block_lxor.
  - intros x y j _ _ _. apply Z.lxor_spec.
Qed.

Lemma op_sub_assign_spec (v rhs : dynamic_bitset) :
  invariant v -> invariant rhs -> size v = size rhs ->
  exists v', op_sub_assign v rhs = Some v' /\ invariant v' /\ size v' = size v
             /\ forall p, bit v' p = bit v p && negb (bit rhs p).
Proof.
  intros Hv Hrhs Hsize. unfold op_sub_assign.
  rewrite assert_true by (by apply Z.eqb_eq). simpl.
  eexists. split; [done |].
  apply (blockwise_spec _ (fun a b => a && negb b)); try done.
  - intros x y Hx Hy. by apply is_block_land_l.
  - intros x y j _ _ Hj. rewrite Z.land_spec, testbit_bnot by lia.
    destruct_cmp; (done || lia).
Qed.

Lemma clear_spec (v : dynamic_bitset) : invariant (clear v) /\ size (clear v) = 0.
Proof.
  split; [| done]. unfold clear. apply invariant_intro; try done.
  intros p Hp. unfold Vec.size in Hp. simpl in Hp. lia.
Qed.

Lemma default_spec : invariant dynamic_bitset_default /\ size dynamic_bitset_default = 0.
Proof. apply (clear_spec dynamic_bitset_default). Qed.

End BitwiseAssign.

Section SizeChanges.

Context {Block : UnsignedBlock}.

Lemma Vec_size_resize (m : list Z) (n x : Z) : 0 <= n -> Vec.size (Vec.resize m n x) = n.
Proof.
  intros Hn. unfold Vec.resize.
  rewrite Vec_size_app, Vec_size_take, Vec_size_replicate. unfold Vec.size. lia.
Qed.

Lemma Vec_get_resize (m : list Z) (n x i : Z) :
  0 <= i < n ->
  Vec.get (Vec.resize m n x) i = if i <? Vec.size m then Vec.get m i else x.
Proof.
  intros Hi. unfold Vec.resize.
  destruct (Z.ltb_spec i (Vec.size m)) as [Hlt | Hge].
  - rewrite Vec_get_app_l by (rewrite Vec_size_take; lia).
    apply Vec_get_take. lia.
  - rewrite Vec_get_app_r by (rewrite Vec_size_take; lia).
    rewrite Vec_size_take. apply Vec_get_replicate. unfold Vec.size in *. lia.
Qed.

Lemma Vec_resize_blocks (m : list Z) (n x : Z) :
  Forall is_block m -> is_block x -> Forall is_block (Vec.resize m n x).
Proof.
  intros Hm Hx. unfold Vec.resize. apply Forall_app. split.
  - by apply Forall_take.
  - by apply Forall_replicate.
Qed.

Lemma blocks_required_mono (a b : Z) : a <= b -> blocks_required a <= blocks_required b.
Proof.
  intros Hab. pose proof (blocks_required_bounds a). pose proof (blocks_required_bounds b).
  pose proof W_pos. nia.
Qed.

Lemma resize_spec (v : dynamic_bitset) (nbits : Z) (value : bool) :
  invariant v -> 0 <= nbits ->
  exists v', resize v nbits value = Some v' /\ invariant v' /\ size v' = nbits
             /\ forall p, 0 <= p < nbits ->
                  bit v' p = if p <? size v then bit v p else value.
Proof.
  intros Hv Hnbits. unfold resize.
  destruct (Z.eqb_spec nbits (m_bits_number v)) as [-> | Hne].
  { exists v. split; [done |]. split; [done |]. split; [done |]. intros p Hp. unfold size.
    destruct (Z.ltb_spec p (m_bits_number v)); [done | lia]. }
  pose proof (invariant_blocks v Hv) as Hm.
  pose proof (invariant_size_nonneg v Hv) as Hn.
  pose proof (invariant_num_blocks v Hv) as Hnum.
  pose proof (invariant_capacity v Hv) as Hcap.
  pose proof W_pos as HW.
  destruct v as [m n]; simpl in *. unfold num_blocks, extra_bits_number, bit_index; simpl.
  set (init_value := if value then one_block else zero_block).
  assert (is_block init_value) as Hinit.
  { unfold init_value. destruct value; [apply is_block_one_block | apply is_block_0]. }
  assert (forall j, 0 <= j < bits_per_block -> Z.testbit init_value j = value) as Hinitb.
  { intros j Hj. unfold init_value. destruct value.
    - rewrite testbit_one_block. destruct_cmp; (done || lia).
    - apply Z.bits_0. }
  pose proof (blocks_required_nonneg nbits Hnbits) as Hnew.
  pose proof (blocks_required_bounds nbits) as Hnewb.
  set (m1 := if negb (blocks_required nbits =? Vec.size m)
             then Vec.resize m (blocks_required nbits) init_value else m).
  assert (Vec.size m1 = blocks_required nbits) as Hsz1.
  { unfold m1. destruct (Z.eqb_spec (blocks_required nbits) (Vec.size m)); simpl;
      [lia | by apply Vec_size_resize]. }
  assert (Forall is_block m1) as Hm1.
  { unfold m1. destruct (negb _); [by apply Vec_resize_blocks | done]. }
  assert (forall i, 0 <= i < blocks_required nbits ->
            Vec.get m1 i = if i <? Vec.size m then Vec.get m i else init_value) as Hget1.
  { intros i Hi. unfold m1.
    destruct (Z.eqb_spec (blocks_required nbits) (Vec.size m)); simpl.
    - destruct (Z.ltb_spec i (Vec.size m)); [done | lia].
    - by apply Vec_get_resize. }
  set (m2 := if value && (n <? nbits) && (0 <? Vec.size m) then _ else m1).
  pose proof (div_mod_W n) as [Hnd Hnb].
  assert (Vec.size m2 = blocks_required nbits /\ Forall is_block m2
          /\ forall p, 0 <= p < nbits ->
               bit_at m2 p = if p <? n then bit_at m p else value) as (Hsz2 & Hm2 & Hbits2).
  { assert (forall p, 0 <= p < nbits ->
              bit_at m1 p = if p <? Vec.size m * bits_per_block then bit_at m p else value)
      as Hbits1.
    { intros p Hp. pose proof (div_mod_W p) as [Hpd Hpb].
      pose proof (div_W_nonneg p ltac:(lia)).
      rewrite !bit_at_testbit by lia. unfold block_index, bit_index.
      rewrite Hget1 by (split; [done | apply div_W_lt; lia]).
      destruct (Z.ltb_spec (p / bits_per_block) (Vec.size m)),
        (Z.ltb_spec p (Vec.size m * bits_per_block)); try nia; [done |].
      by apply Hinitb. }
    assert (forall p, n <= p -> bit_at m p = false) as Hhigh.
    { intros p Hp. by apply (invariant_high _ p Hv). }
    unfold m2.
    destruct (value && (n <? nbits) && (0 <? Vec.size m)) eqn:Hcond;
      [destruct (Z.ltb_spec 0 (n mod bits_per_block)) as [Hext | Hext] |].
    - apply andb_true_iff in Hcond as [Hcond Hold%Z.ltb_lt].
      apply andb_true_iff in Hcond as [-> Hgrow%Z.ltb_lt].
      assert (n mod bits_per_block <> 0) as Hne' by lia.
      pose proof (blocks_required_unaligned n Hne') as Hreq.
      pose proof (blocks_required_mono n nbits ltac:(lia)) as Hmono.
      assert (0 <= Vec.size m - 1 < Vec.size m1) as Hidx by lia.
      split; [by rewrite Vec_size_set |]. split.
      { apply Vec_set_block; [done |].
        apply is_block_lor; [by apply Vec_get_block | apply is_block_shl]. }
      intros p Hp. pose proof (div_mod_W p) as [Hpd Hpb].
      rewrite bit_at_set by lia.
      destruct (Z.eqb_spec (block_index p) (Vec.size m - 1)) as [Heq | Hneq].
      + rewrite Z.lor_spec, testbit_shl by apply Hpb.
        rewrite Hget1 by lia.
        destruct (Z.ltb_spec (Vec.size m - 1) (Vec.size m)) as [_ |]; [| lia].
        rewrite <- Heq, <- bit_at_testbit by lia.
        unfold bit_index, block_index in *.
        destruct (Z.ltb_spec p n) as [Hlt | Hge].
        * rewrite (Z.testbit_neg_r init_value) by nia.
          by rewrite andb_false_r, orb_false_r.
        * rewrite Hinitb by nia.
          destruct (Z.ltb_spec (p mod bits_per_block) bits_per_block); [| lia].
          apply orb_true_r.
      + rewrite Hbits1 by lia. unfold block_index in *.
        destruct (Z.ltb_spec p n), (Z.ltb_spec p (Vec.size m * bits_per_block));
          (done || nia).
    - split; [done |]. split; [done |]. intros p Hp. rewrite Hbits1 by done.
      assert (n mod bits_per_block = 0) as Hal by lia.
      pose proof (blocks_required_aligned n Hal). destruct_cmp; (done || lia).
    - split; [done |]. split; [done |]. intros p Hp. rewrite Hbits1 by done.
      destruct_cmp; try done; try lia.
      rewrite Hhigh by lia.
      destruct value; [| done]. simpl in Hcond.
      apply andb_false_iff in Hcond as [Hc%Z.ltb_ge | Hc%Z.ltb_ge]; [lia |].
      assert (Vec.size m = 0) as Hempty by (pose proof (Vec_size_nonneg m); lia).
      rewrite Hempty in *. lia. }
  clearbody m2.
  destruct (sanitize_spec (mk_bitset m2 nbits)) as (Hinv & Hsize & Hbits); [done | done |].
  rewrite assert_true by (by apply invariant_check). simpl.
  eexists. split; [done |]. split; [done |]. split; [done |].
  intros p Hp. unfold bit. rewrite Hbits by (simpl; lia). simpl. unfold size; simpl.
  by apply Hbits2.
Qed.

End SizeChanges.

Section PushPop.

Context {Block : UnsignedBlock}.

Lemma Vec_size_push_back (m : list Z) (x : Z) :
  Vec.size (Vec.push_back m x) = Vec.size m + 1.
Proof. unfold Vec.push_back. rewrite Vec_size_app. unfold Vec.size. simpl. lia. Qed.

Lemma Vec_get_push_back (m : list Z) (x i : Z) :
  0 <= i ->
  Vec.get (Vec.push_back m x) i
  = if i <? Vec.size m then Vec.get m i else if i =? Vec.size m then x else 0.
Proof.
  intros Hi. unfold Vec.push_back.
  destruct (Z.ltb_spec i (Vec.size m)).
  - by apply Vec_get_app_l.
  - rewrite Vec_get_app_r by done.
    destruct (Z.eqb_spec i (Vec.size m)) as [-> | Hne].
    + by rewrite Z.sub_diag.
    + apply Vec_get_out. unfold Vec.size in *. simpl. lia.
Qed.

Lemma Vec_push_back_blocks (m : list Z) (x : Z) :
  Forall is_block m -> is_block x -> Forall is_block (Vec.push_back m x).
Proof.
  intros Hm Hx. unfold Vec.push_back. apply Forall_app. split; [done |].
  by apply Forall_singleton.
Qed.

Lemma Vec_size_pop_back (m : list Z) :
  0 < Vec.size m -> Vec.size (Vec.pop_back m) = Vec.size m - 1.
Proof.
  intros Hm. unfold Vec.pop_back, Vec.size in *.
  destruct (exists_last (l := m)) as (m' & x & ->).
  - intros ->. simpl in Hm. lia.
  - rewrite removelast_last, length_app. simpl. lia.
Qed.

Lemma Vec_get_pop_back (m : list Z) (i : Z) :
  0 <= i < Vec.size m - 1 -> Vec.get (Vec.pop_back m) i = Vec.get m i.
Proof.
  intros Hi. unfold Vec.pop_back.
  destruct (exists_last (l := m)) as (m' & x & ->).
  - intros ->. unfold Vec.size in Hi. simpl in Hi. lia.
  - rewrite removelast_last. symmetry. apply Vec_get_app_l.
    rewrite Vec_size_app in Hi. unfold Vec.size in *. simpl in Hi. lia.
Qed.

Lemma Vec_pop_back_blocks (m : list Z) :
  Forall is_block m -> Forall is_block (Vec.pop_back m).
Proof.
  intros Hm. unfold Vec.pop_back.
  destruct (decide (m = [])) as [-> | Hne]; [done |].
  destruct (exists_last Hne) as (m' & x & ->).
  rewrite removelast_last. by apply Forall_app in Hm as [? _].
Qed.

Lemma bit_at_push_back (m : list Z) (x p : Z) :
  Forall is_block m -> is_block x ->
  bit_at (Vec.push_back m x) p
  = if p <? Vec.size m * bits_per_block then bit_at m p
    else Z.testbit x (p - Vec.size m * bits_per_block).
Proof.
  intros Hm Hx. pose proof (Vec_size_nonneg m) as Hsz. pose proof W_pos as HW.
  destruct (Z.lt_ge_cases p 0) as [Hneg | Hpos].
  { rewrite !bit_at_neg by done. destruct (Z.ltb_spec p (Vec.size m * bits_per_block)); [done | nia]. }
  pose proof (div_mod_W p) as [Hpd Hpb]. pose proof (div_W_nonneg p Hpos) as Hq.
  unfold bit_at. destruct (Z.leb_spec 0 p); [simpl | lia].
  rewrite Vec_get_push_back by done.
  destruct (Z.ltb_spec p (Vec.size m * bits_per_block)) as [Hlt | Hge].
  - apply div_W_lt in Hlt. destruct (Z.ltb_spec (p / bits_per_block) (Vec.size m)); [done | lia].
  - apply div_W_le in Hge as Hge'.
    destruct (Z.ltb_spec (p / bits_per_block) (Vec.size m)); [lia |].
    destruct (Z.eqb_spec (p / bits_per_block) (Vec.size m)) as [Heq | Hne].
    + f_equal. nia.
    + rewrite Z.bits_0. symmetry. apply is_block_high; [done | nia].
Qed.

Lemma push_back_spec (v : dynamic_bitset) (value : bool) :
  invariant v ->
  exists v', push_back v value = Some v' /\ invariant v' /\ size v' = size v + 1
             /\ forall p, bit v' p = if p =? size v then value else bit v p.
Proof.
  intros Hv.
  pose proof (invariant_blocks v Hv) as Hm.
  pose proof (invariant_size_nonneg v Hv) as Hn.
  pose proof (invariant_num_blocks v Hv) as Hnum.
  pose proof (invariant_capacity v Hv) as Hcap.
  pose proof W_pos as HW.
  assert (exists v', (if m_bits_number (with_bits_number v (m_bits_number v + 1))
                         <=? Vec.size (m_blocks (with_bits_number v (m_bits_number v + 1)))
                             * bits_per_block
                      then if value
                           then set_bit (with_bits_number v (m_bits_number v + 1))
                                  (m_bits_number v) value
                           else Some (with_bits_number v (m_bits_number v + 1))
                      else Some (with_blocks (with_bits_number v (m_bits_number v + 1))
                                   (Vec.push_back
                                      (m_blocks (with_bits_number v (m_bits_number v + 1)))
                                      (block_type (Z.b2z value))))) = Some v'
                     /\ invariant v' /\ size v' = size v + 1
                     /\ forall p, bit v' p = if p =? size v then value else bit v p)
    as (v' & Hstep & Hinv & Hsize & Hbits).
  { destruct v as [m n]; simpl in *. unfold size; simpl.
    assert (forall p, n <= p -> bit_at m p = false) as Hhigh.
    { intros p Hp. by apply (invariant_high _ p Hv). }
    destruct (Z.leb_spec (n + 1) (Vec.size m * bits_per_block)) as [Hroom | Hfull].
    - assert (invariant (mk_bitset m (n + 1))) as Hgrown.
      { apply invariant_intro; try done; [lia | |].
        - pose proof (blocks_required_bounds (n + 1)). nia.
        - intros p Hp. apply Hhigh. lia. }
      destruct value.
      + destruct (set_bit_spec (mk_bitset m (n + 1)) n true) as (v' & Hset & Hinv & Hsize & Hbits);
          [done | unfold size; simpl; lia |].
        exists v'. split; [done |]. split; [done |]. split; [done |]. done.
      + eexists. split; [done |]. split; [done |]. split; [done |].
        intros p. destruct (Z.eqb_spec p n) as [-> |]; [| done].
        apply Hhigh. lia.
    - assert (Vec.size m * bits_per_block = n) as Hal by lia.
      assert (is_block (block_type (Z.b2z value))) as Hb by apply block_type_is_block.
      assert (block_type (Z.b2z value) = Z.b2z value) as Hbv.
      { apply block_type_small. destruct value; [apply is_block_1 | apply is_block_0]. }
      eexists. split; [done |]. unfold with_blocks, with_bits_number; simpl.
      assert (forall p, bit_at (Vec.push_back m (block_type (Z.b2z value))) p
                        = if p =? n then value else bit_at m p) as Hbits.
      { intros p. rewrite bit_at_push_back by done. rewrite Hal, Hbv.
        destruct (Z.ltb_spec p n), (Z.eqb_spec p n); try lia; try done.
        - subst p. rewrite Z.sub_diag. by destruct value.
        - rewrite Hhigh by lia.
          destruct value; simpl; [| apply Z.bits_0].
          apply Z.bits_above_log2; simpl; lia. }
      split; [| split; [done | apply Hbits]].
      apply invariant_intro.
      + by apply Vec_push_back_blocks.
      + lia.
      + rewrite Vec_size_push_back. pose proof (blocks_required_bounds (n + 1)). nia.
      + intros p Hp. rewrite Hbits.
        destruct (Z.eqb_spec p n); [lia |]. apply Hhigh. lia. }
  exists v'. split; [| done].
  unfold push_back. rewrite Hstep. simpl.
  rewrite subscript_test, test_spec by (unfold size in *; lia || done). simpl.
  rewrite Hbits, Z.eqb_refl.
  rewrite (assert_true (Bool.eqb value value)) by (by destruct value). simpl.
  by rewrite assert_true by (by apply invariant_check).
Qed.

End PushPop.

Section PopAppend.

Context {Block : UnsignedBlock}.

Lemma pop_back_spec (v : dynamic_bitset) :
  invariant v ->
  exists v', pop_back v = Some v' /\ invariant v'
             /\ size v' = Z.max 0 (size v - 1)
             /\ forall p, p < size v - 1 -> bit v' p = bit v p.
Proof.
  intros Hv.
  pose proof (invariant_blocks v Hv) as Hm.
  pose proof (invariant_size_nonneg v Hv) as Hn.
  pose proof (invariant_num_blocks v Hv) as Hnum.
  pose proof (invariant_capacity v Hv) as Hcap.
  pose proof W_pos as HW.
  unfold pop_back, empty, size.
  destruct (Z.eqb_spec (m_bits_number v) 0) as [H0 | Hne].
  { exists v. split; [done |]. split; [done |]. split; [lia | done]. }
  destruct v as [m n]; simpl in *.
  pose proof (blocks_required_bounds (n - 1)) as Hreq.
  pose proof (div_mod_W (n - 1)) as [Hd Hb].
  destruct (Z.ltb_spec (blocks_required (n - 1)) (Vec.size m)) as [Hdrop | Hkeep].
  - assert ((n - 1) mod bits_per_block = 0) as Hal.
    { destruct (Z.eq_dec ((n - 1) mod bits_per_block) 0) as [| Hu]; [done |].
      pose proof (blocks_required_unaligned (n - 1) Hu).
      pose proof (blocks_required_bounds n). nia. }
    pose proof (blocks_required_aligned (n - 1) Hal) as Hal'.
    unfold extra_bits_number, bit_index; simpl.
    rewrite assert_true by (by apply Z.eqb_eq). simpl.
    assert (Vec.size m - 1 = blocks_required (n - 1)) as Hsz' by nia.
    assert (invariant (mk_bitset (Vec.pop_back m) (n - 1))) as Hinv.
    { apply invariant_intro.
      - by apply Vec_pop_back_blocks.
      - lia.
      - rewrite Vec_size_pop_back; lia.
      - rewrite Vec_size_pop_back by lia. intros p Hp. lia. }
    rewrite assert_true by (by apply invariant_check). simpl.
    eexists. split; [done |]. split; [done |]. split; [simpl; lia |].
    intros p Hp. unfold bit; simpl.
    destruct (Z.lt_ge_cases p 0); [by rewrite !bit_at_neg |].
    rewrite !bit_at_testbit by done. f_equal.
    apply Vec_get_pop_back. unfold block_index.
    split; [by apply div_W_nonneg | apply div_W_lt; lia].
  - destruct (sanitize_spec (mk_bitset m (n - 1))) as (Hinv & Hsize & Hbits).
    + split; [done | simpl; lia].
    + simpl. pose proof (blocks_required_mono (n - 1) n ltac:(lia)). lia.
    + unfold with_bits_number; simpl.
      rewrite assert_true by (by apply invariant_check). simpl.
      eexists. split; [done |]. split; [done |]. split; [simpl in *; lia |].
      intros p Hp. apply Hbits. simpl. lia.
Qed.

(** [append(block)] without its closing assertion. *)
Lemma append_block_spec (v : dynamic_bitset) (block : Z) :
  invariant v -> is_block block ->
  exists v', append_block v block = Some v' /\ invariant v'
             /\ size v' = size v + bits_per_block
             /\ forall p, bit v' p
                          = if p <? size v then bit v p
                            else Z.testbit block (p - size v).
Proof.
  intros Hv Hblock.
  pose proof (invariant_blocks v Hv) as Hm.
  pose proof (invariant_size_nonneg v Hv) as Hn.
  pose proof (invariant_num_blocks v Hv) as Hnum.
  pose proof (invariant_capacity v Hv) as Hcap.
  pose proof W_pos as HW.
  destruct v as [m n]; simpl in *.
  assert (forall p, n <= p -> bit_at m p = false) as Hhigh.
  { intros p Hp. by apply (invariant_high _ p Hv). }
  pose proof (div_mod_W n) as [Hnd Hnb].
  pose proof (blocks_required_bounds (n + bits_per_block)) as Hreq.
  unfold append_block, extra_bits_number, bit_index, size; simpl.
  set (e := n mod bits_per_block) in *.
  set (w := if e =? 0 then _ else _).
  assert (Forall is_block (m_blocks w)
          /\ Vec.size (m_blocks w) = Vec.size m + 1
          /\ m_bits_number w = n
          /\ forall p, bit_at (m_blocks w) p
                       = if p <? n then bit_at m p else Z.testbit block (p - n))
    as (Hmw & Hszw & Hnw & Hbw).
  { unfold w. destruct (Z.eqb_spec e 0) as [He | He].
    - unfold with_blocks; simpl.
      assert (Vec.size m * bits_per_block = n) as Hal.
      { rewrite Hnum. by apply blocks_required_aligned. }
      split; [by apply Vec_push_back_blocks |].
      split; [apply Vec_size_push_back |]. split; [done |].
      intros p. rewrite bit_at_push_back by done. by rewrite Hal.
    - unfold with_blocks, set_last_block, last_block; simpl.
      pose proof (blocks_required_unaligned n He) as Hreq'.
      assert (0 <= Vec.size m - 1 < Vec.size m) as Hidx.
      { pose proof (div_W_nonneg n Hn). lia. }
      set (x := Z.lor _ _).
      assert (is_block x) as Hx.
      { apply is_block_lor; [by apply Vec_get_block | apply is_block_shl]. }
      assert (is_block (block_type (shr block (bits_per_block - e)))) as Hy
        by apply block_type_is_block.
      split; [apply Vec_push_back_blocks; [by apply Vec_set_block | done] |].
      split; [by rewrite Vec_size_push_back, Vec_size_set |]. split; [done |].
      intros p. rewrite bit_at_push_back by (by try apply Vec_set_block).
      rewrite Vec_size_set.
      destruct (Z.lt_ge_cases p 0) as [Hneg | Hpos].
      { rewrite !bit_at_neg by done.
        destruct (Z.ltb_spec p (Vec.size m * bits_per_block)), (Z.ltb_spec p n);
          (done || nia). }
      pose proof (div_mod_W p) as [Hpd Hpb].
      destruct (Z.ltb_spec p (Vec.size m * bits_per_block)) as [Hlt | Hge].
      + rewrite bit_at_set by lia.
        destruct (Z.eqb_spec (block_index p) (Vec.size m - 1)) as [Heq | Hneq].
        * unfold x. rewrite Z.lor_spec, <- Heq, <- bit_at_testbit by done.
          rewrite testbit_shl by apply Hpb.
          unfold block_index, bit_index in *. fold e.
          destruct (Z.ltb_spec (p mod bits_per_block) bits_per_block); [simpl | lia].
          destruct (Z.ltb_spec p n).
          -- rewrite (Z.testbit_neg_r block) by (unfold e in *; nia).
             apply orb_false_r.
          -- rewrite Hhigh by done. simpl. f_equal. unfold e in *. nia.
        * unfold block_index in *.
          destruct (Z.ltb_spec p n); [done | unfold e in *; nia].
      + destruct (Z.ltb_spec p n); [lia |].
        rewrite testbit_block_type, testbit_shr by nia.
        destruct (Z.ltb_spec (p - Vec.size m * bits_per_block) bits_per_block);
          simpl.
        * f_equal. unfold e in *. nia.
        * symmetry. apply is_block_high; [done |]. unfold e in *. nia. }
  clearbody w. destruct w as [mw nw]; simpl in *. subst nw.
  unfold with_bits_number; simpl.
  assert (invariant (mk_bitset mw (n + bits_per_block))) as Hinv.
  { apply invariant_intro; try done; [lia | nia |].
    intros p Hp. rewrite Hbw. destruct (Z.ltb_spec p n); [lia |].
    apply is_block_high; [done | lia]. }
  rewrite assert_true by (by apply invariant_check). simpl.
  eexists. split; [done |]. split; [done |]. split; [done |].
  intros p. unfold bit; simpl. apply Hbw.
Qed.

End PopAppend.

Section AppendRange.

Context {Block : UnsignedBlock}.

Lemma bit_at_cons (b : Z) (r : list Z) (q : Z) :
  0 <= q ->
  bit_at (b :: r) q
  = if q <? bits_per_block then Z.testbit b q else bit_at r (q - bits_per_block).
Proof.
  intros Hq. pose proof W_pos as HW. pose proof (div_mod_W q) as [Hd Hb].
  pose proof (div_W_nonneg q Hq) as Hdn.
  destruct (Z.ltb_spec q bits_per_block) as [Hlt | Hge].
  - rewrite bit_at_testbit by done. unfold block_index, bit_index.
    rewrite Z.div_small, Z.mod_small by lia. done.
  - rewrite !bit_at_testbit by lia. unfold block_index, bit_index.
    replace q with ((q - bits_per_block) + 1 * bits_per_block) at 1 2 by lia.
    rewrite Z.div_add, Z.mod_add by lia.
    unfold Vec.get.
    assert (0 <= (q - bits_per_block) / bits_per_block) by (apply div_W_nonneg; lia).
    rewrite Z2Nat.inj_add by lia. rewrite Nat.add_comm. done.
Qed.

Lemma append_blocks_spec (blocks : list Z) (v : dynamic_bitset) :
  invariant v -> Forall is_block blocks ->
  exists v', append_blocks v blocks = Some v' /\ invariant v'
             /\ size v' = size v + Vec.size blocks * bits_per_block
             /\ forall p, bit v' p
                          = if p <? size v then bit v p else bit_at blocks (p - size v).
Proof.
  revert v. induction blocks as [| b r IH]; intros v Hv Hblocks; simpl.
  - exists v. split; [done |]. split; [done |]. split; [unfold Vec.size; simpl; lia |].
    intros p. destruct (Z.ltb_spec p (size v)); [done |].
    rewrite (bit_high _ _ Hv) by (unfold size in *; lia).
    symmetry. apply bit_at_out. unfold Vec.size; simpl. lia.
  - apply Forall_cons in Hblocks as [Hb Hr].
    destruct (append_block_spec v b Hv Hb) as (v1 & -> & Hv1 & Hsz1 & Hbits1). simpl.
    destruct (IH v1 Hv1 Hr) as (v' & -> & Hv' & Hsz' & Hbits').
    exists v'. split; [done |]. split; [done |].
    pose proof W_pos as HW. pose proof (invariant_size_nonneg v Hv) as Hn.
    split.
    { rewrite Hsz', Hsz1. unfold Vec.size. simpl length. lia. }
    intros p. rewrite Hbits', Hbits1, Hsz1.
    destruct (Z.ltb_spec p (size v)), (Z.ltb_spec p (size v + bits_per_block));
      try lia; try done.
    + rewrite bit_at_cons by (unfold size in *; lia).
      destruct (Z.ltb_spec (p - size v) bits_per_block); [done | lia].
    + rewrite bit_at_cons by (unfold size in *; lia).
      destruct (Z.ltb_spec (p - size v) bits_per_block); [lia |].
      f_equal. lia.
Qed.

Lemma append_blocks_aligned (blocks : list Z) (v : dynamic_bitset) :
  invariant v -> Forall is_block blocks -> extra_bits_number v = 0 ->
  append_blocks v blocks
  = Some (mk_bitset (m_blocks v ++ blocks)
            (m_bits_number v + Vec.size blocks * bits_per_block)).
Proof.
  revert v. induction blocks as [| b r IH]; intros v Hv Hblocks Hal; simpl.
  - destruct v as [m n]; simpl. rewrite app_nil_r. do 2 f_equal.
    unfold Vec.size; simpl. lia.
  - apply Forall_cons in Hblocks as [Hb Hr].
    destruct (append_block_spec v b Hv Hb) as (v1 & Hv1eq & Hv1 & Hsz1 & _).
    rewrite Hv1eq. simpl.
    assert (v1 = mk_bitset (m_blocks v ++ [b]) (m_bits_number v + bits_per_block)) as ->.
    { unfold append_block in Hv1eq. rewrite Hal in Hv1eq. simpl in Hv1eq.
      destruct (assert _); [| done]. simpl in Hv1eq. by injection Hv1eq as <-. }
    rewrite IH; try done.
    + simpl. rewrite <- app_assoc. do 2 f_equal.
      unfold Vec.size. simpl length. lia.
    + unfold extra_bits_number, bit_index in *. simpl.
      pose proof W_pos.
      replace (m_bits_number v + bits_per_block)
        with (m_bits_number v + 1 * bits_per_block) by lia.
      by rewrite Z.mod_add by lia.
Qed.

Lemma Vec_set_last (m : list Z) (b y : Z) :
  Vec.set (m ++ [b]) (Vec.size (m ++ [b]) - 1) y = m ++ [y].
Proof.
  unfold Vec.set. rewrite Vec_size_app. unfold Vec.size. simpl length.
  match goal with
  | |- context [Z.to_nat ?e] => replace (Z.to_nat e) with (length m + 0)%nat by lia
  end.
  by rewrite insert_app_r.
Qed.

Lemma Vec_get_last (m : list Z) (b : Z) : Vec.get (m ++ [b]) (Vec.size (m ++ [b]) - 1) = b.
Proof.
  rewrite Vec_get_app_r; rewrite Vec_size_app; unfold Vec.size; simpl length; [| lia].
  unfold Vec.get.
  match goal with
  | |- context [Z.to_nat ?e] => replace (Z.to_nat e) with 0%nat by lia
  end.
  done.
Qed.

(** The loop of [append(first, last)] appends block after block; the bitset
    it has built, completed by the carried block, is what [append(block)]
    builds. *)
Lemma append_range_loop_spec (rest : list Z) (v : dynamic_bitset) (block : Z)
    (w : dynamic_bitset) :
  invariant w -> Forall is_block rest ->
  extra_bits_number w <> 0 ->
  m_blocks w = m_blocks v ++ [block] ->
  m_bits_number w = m_bits_number v + bits_per_block ->
  exists w', append_blocks w rest = Some w'
             /\ m_blocks w'
                = m_blocks (fst (append_range_loop (extra_bits_number w)
                                   (bits_per_block - extra_bits_number w) rest block v))
                  ++ [snd (append_range_loop (extra_bits_number w)
                             (bits_per_block - extra_bits_number w) rest block v)]
             /\ m_bits_number w'
                = m_bits_number (fst (append_range_loop (extra_bits_number w)
                                        (bits_per_block - extra_bits_number w) rest block v))
                  + bits_per_block.
Proof.
  revert v block w. induction rest as [| x rest IH]; intros v block w Hw Hrest He Hm Hn.
  - simpl. exists w. done.
  - apply Forall_cons in Hrest as [Hx Hrest]. simpl.
    destruct (append_block_spec w x Hw Hx) as (w1 & Hw1eq & Hw1 & Hsz1 & _).
    rewrite Hw1eq. simpl.
    assert (m_blocks w1
            = (m_blocks v ++ [Z.lor block (shl x (extra_bits_number w))])
                ++ [block_type (shr x (bits_per_block - extra_bits_number w))]
            /\ m_bits_number w1 = m_bits_number w + bits_per_block) as [Hm1 Hn1].
    { unfold append_block in Hw1eq.
      destruct (Z.eqb_spec (extra_bits_number w) 0) as [| _]; [done |].
      destruct (assert _); [| done]. simpl in Hw1eq. injection Hw1eq as <-.
      unfold with_bits_number, with_blocks, set_last_block, last_block; simpl.
      split; [| done]. unfold Vec.push_back. f_equal.
      rewrite Hm. by rewrite Vec_set_last, Vec_get_last. }
    assert (extra_bits_number w1 = extra_bits_number w) as He1.
    { unfold extra_bits_number, bit_index. rewrite Hn1. pose proof W_pos.
      replace (m_bits_number w + bits_per_block)
        with (m_bits_number w + 1 * bits_per_block) by lia.
      by rewrite Z.mod_add by lia. }
    destruct (IH (with_bits_number
                    (with_blocks v
                       (Vec.push_back (m_blocks v)
                          (Z.lor block (shl x (extra_bits_number w)))))
                    (m_bits_number v + bits_per_block))
                 (block_type (shr x (bits_per_block - extra_bits_number w))) w1)
      as (w' & Hw' & Hmw' & Hnw'); try done.
    + by rewrite He1.
    + simpl. lia.
    + rewrite He1 in *. exists w'. done.
Qed.

Lemma append_range_blocks (v : dynamic_bitset) (blocks : list Z) :
  invariant v -> Forall is_block blocks ->
  append_range v blocks = append_blocks v blocks.
Proof.
  intros Hv Hblocks. destruct blocks as [| first rest]; [done |].
  unfold append_range.
  rewrite (assert_true (0 <? Vec.size (first :: rest)))
    by (unfold Vec.size; simpl length; apply Z.ltb_lt; lia).
  simpl mbind.
  destruct (append_blocks_spec (first :: rest) v Hv Hblocks) as (v' & Hv'eq & Hv' & _).
  rewrite Hv'eq.
  destruct (Z.eqb_spec (extra_bits_number v) 0) as [Hal | Hun].
  - rewrite append_blocks_aligned in Hv'eq by done. injection Hv'eq as <-.
    rewrite assert_true.
    2:{ apply Z.ltb_lt. unfold with_blocks; simpl.
        rewrite Vec_size_app. unfold Vec.size. simpl length. lia. }
    simpl. unfold with_blocks, with_bits_number; simpl.
    replace (Vec.size (m_blocks v ++ first :: rest) - Vec.size (m_blocks v))
      with (Vec.size (first :: rest)) by (rewrite Vec_size_app; lia).
    by rewrite assert_true by (by apply invariant_check).
  - apply Forall_cons in Hblocks as [Hfirst Hrest].
    simpl in Hv'eq.
    destruct (append_block_spec v first Hv Hfirst) as (w & Hweq & Hw & Hszw & _).
    rewrite Hweq in Hv'eq. simpl in Hv'eq.
    assert (extra_bits_number w = extra_bits_number v) as Hew.
    { unfold extra_bits_number, bit_index. unfold size in Hszw. rewrite Hszw.
      pose proof W_pos.
      replace (m_bits_number v + bits_per_block)
        with (m_bits_number v + 1 * bits_per_block) by lia.
      by rewrite Z.mod_add by lia. }
    unfold append_block in Hweq.
    destruct (Z.eqb_spec (extra_bits_number v) 0) as [| _]; [done |].
    destruct (assert _); [| done]. simpl in Hweq. injection Hweq as <-.
    edestruct (append_range_loop_spec rest
                 (set_last_block v (Z.lor (last_block v) (shl first (extra_bits_number v))))
                 (block_type (shr first (bits_per_block - extra_bits_number v))))
      as (w' & Hw'eq & Hmw' & Hnw'); [exact Hw | done | by rewrite Hew | done | done |].
    rewrite Hv'eq in Hw'eq. injection Hw'eq as <-.
    rewrite Hew in *. unfold unused_bits_number.
    destruct (append_range_loop _ _ rest _ _) as [vl bl]; simpl in *.
    unfold with_blocks, with_bits_number; simpl. unfold Vec.push_back.
    rewrite <- Hmw', <- Hnw'. destruct v' as [m' n']; simpl.
    by rewrite assert_true by (by apply invariant_check).
Qed.

Lemma append_range_spec (v : dynamic_bitset) (blocks : list Z) :
  invariant v -> Forall is_block blocks ->
  exists v', append_range v blocks = Some v' /\ invariant v'
             /\ size v' = size v + Vec.size blocks * bits_per_block
             /\ forall p, bit v' p
                          = if p <? size v then bit v p else bit_at blocks (p - size v).
Proof.
  intros Hv Hblocks. rewrite append_range_blocks by done. by apply append_blocks_spec.
Qed.

End AppendRange.

Section Ranges.

Context {Block : UnsignedBlock}.

Lemma set_range_update (v : dynamic_bitset) (pos len : Z) (value : bool) :
  set_range v pos len value
  = range_update (fun x a b => set_block_bits x a b value)
      (fun _ => if value then one_block else zero_block) v pos len.
Proof. reflexivity. Qed.

Lemma flip_range_update (v : dynamic_bitset) (pos len : Z) :
  flip_range v pos len = range_update flip_block_bits bnot v pos len.
Proof. reflexivity. Qed.

Lemma bit_index_small (a : Z) : 0 <= a < bits_per_block -> bit_index a = a.
Proof. intros Ha. unfold bit_index. by apply Z.mod_small. Qed.

Lemma testbit_set_block_bits (x a b j : Z) (value : bool) :
  is_block x -> 0 <= a <= b -> b < bits_per_block -> 0 <= j < bits_per_block ->
  Z.testbit (set_block_bits x a b value) j
  = if (a <=? j) && (j <=? b) then value else Z.testbit x j.
Proof.
  intros Hx Ha Hb Hj. unfold set_block_bits. destruct value.
  - rewrite Z.lor_spec, testbit_bit_mask_range by (rewrite ?bit_index_small; lia).
    rewrite !bit_index_small by lia.
    destruct ((a <=? j) && (j <=? b)); [apply orb_true_r | apply orb_false_r].
  - rewrite Z.land_spec, testbit_bnot, testbit_bit_mask_range
      by (rewrite ?bit_index_small; lia).
    rewrite !bit_index_small by lia.
    destruct (Z.ltb_spec j bits_per_block); [simpl | lia].
    destruct ((a <=? j) && (j <=? b)); [apply andb_false_r | apply andb_true_r].
Qed.

Lemma testbit_flip_block_bits (x a b j : Z) :
  is_block x -> 0 <= a <= b -> b < bits_per_block -> 0 <= j < bits_per_block ->
  Z.testbit (flip_block_bits x a b) j
  = if (a <=? j) && (j <=? b) then negb (Z.testbit x j) else Z.testbit x j.
Proof.
  intros Hx Ha Hb Hj. unfold flip_block_bits.
  rewrite Z.lxor_spec, testbit_bit_mask_range by (rewrite ?bit_index_small; lia).
  rewrite !bit_index_small by lia.
  destruct ((a <=? j) && (j <=? b)); [apply xorb_true_r | apply xorb_false_r].
Qed.

Lemma is_block_set_block_bits (x a b : Z) (value : bool) :
  is_block x -> is_block (set_block_bits x a b value).
Proof.
  intros Hx. unfold set_block_bits. destruct value.
  - apply is_block_lor; [done | apply is_block_bit_mask_range].
  - by apply is_block_land_l.
Qed.

Lemma is_block_flip_block_bits (x a b : Z) :
  is_block x -> is_block (flip_block_bits x a b).
Proof.
  intros Hx. apply is_block_lxor; [done | apply is_block_bit_mask_range].
Qed.

(** A vector rewritten block by block inside [pos .. last] keeps the invariant. *)
Lemma range_result (fbit : bool -> bool) (v : dynamic_bitset) (r : list Z)
    (pos last : Z) :
  invariant v -> 0 <= pos <= last -> last < size v ->
  Forall is_block r -> Vec.size r = Vec.size (m_blocks v) ->
  (forall i j, 0 <= i < Vec.size r -> 0 <= j < bits_per_block ->
     Z.testbit (Vec.get r i) j
     = if (pos <=? i * bits_per_block + j) && (i * bits_per_block + j <=? last)
       then fbit (Z.testbit (Vec.get (m_blocks v) i) j)
       else Z.testbit (Vec.get (m_blocks v) i) j) ->
  invariant (with_blocks v r) /\ size (with_blocks v r) = size v
  /\ forall p, bit (with_blocks v r) p
               = if (pos <=? p) && (p <=? last) then fbit (bit v p) else bit v p.
Proof.
  intros Hv Hpos Hlast Hr Hsz Hbits. unfold size in *. pose proof W_pos as HW.
  assert (forall p, bit_at r p
                    = if (pos <=? p) && (p <=? last) then fbit (bit v p) else bit v p)
    as Hres.
  { intros p. destruct (Z.lt_ge_cases p 0) as [Hneg | Hnn].
    { unfold bit. rewrite !bit_at_neg by done. destruct_cmp; simpl; (done || lia). }
    pose proof (div_mod_W p) as [Hpd Hpb]. pose proof (div_W_nonneg p Hnn) as Hq.
    destruct (Z.lt_ge_cases (p / bits_per_block) (Vec.size r)) as [Hin | Hout].
    - unfold bit. rewrite !bit_at_testbit by done. unfold block_index, bit_index.
      rewrite Hbits by lia.
      replace (p / bits_per_block * bits_per_block + p mod bits_per_block) with p by lia.
      done.
    - rewrite bit_at_out by (by apply div_W_le).
      assert (m_bits_number v <= p) as Hhigh.
      { pose proof (invariant_capacity v Hv). apply div_W_le in Hout. lia. }
      rewrite (bit_high _ _ Hv) by done.
      destruct_cmp; simpl; (done || lia). }
  split; [| split; [done | apply Hres]].
  unfold with_blocks. apply invariant_intro; try done.
  - apply (invariant_size_nonneg _ Hv).
  - rewrite Hsz. apply (invariant_num_blocks _ Hv).
  - intros p Hp. rewrite Hres.
    destruct_cmp; simpl; try lia; apply (bit_high _ _ Hv); lia.
Qed.

End Ranges.

Section RangeUpdate.

Context {Block : UnsignedBlock}.

Lemma range_update_spec (partial : Z -> Z -> Z -> Z) (full : Z -> Z)
    (fbit : bool -> bool) (v : dynamic_bitset) (pos len : Z) :
  invariant v -> range_pre v pos len ->
  (forall x a b, is_block x -> is_block (partial x a b)) ->
  (forall x, is_block x -> is_block (full x)) ->
  (forall x a b j, is_block x -> 0 <= a <= b -> b < bits_per_block ->
     0 <= j < bits_per_block ->
     Z.testbit (partial x a b) j
     = if (a <=? j) && (j <=? b) then fbit (Z.testbit x j) else Z.testbit x j) ->
  (forall x j, is_block x -> 0 <= j < bits_per_block ->
     Z.testbit (full x) j = fbit (Z.testbit x j)) ->
  exists v', range_update partial full v pos len = Some v'
             /\ invariant v' /\ size v' = size v
             /\ forall p, bit v' p
                          = if (pos <=? p) && (p <? pos + len) then fbit (bit v p)
                            else bit v p.
Proof.
  intros Hv (Hpos & Hlen & Hlast) Hpb Hfb Hpartial Hfull.
  pose proof W_pos as HW. pose proof (invariant_blocks v Hv) as Hm.
  unfold range_update.
  rewrite (assert_true (pos <? size v)) by (apply Z.ltb_lt; lia). simpl.
  destruct (Z.eqb_spec len 0) as [-> | Hlen0].
  { exists v. split; [done |]. split; [done |]. split; [done |].
    intros p. destruct_cmp; simpl; (done || lia). }
  destruct Hlast as [| Hlast]; [lia |].
  rewrite assert_true by (apply Z.ltb_lt; lia). simpl.
  set (last := pos + len - 1) in *.
  assert (pos <= last) as Hpl by (unfold last; lia).
  pose proof (div_mod_W pos) as [Hposd Hposb].
  pose proof (div_mod_W last) as [Hlastd Hlastb].
  assert (0 <= pos < m_bits_number v) as Hpos' by (unfold size in *; lia).
  assert (0 <= last < m_bits_number v) as Hlast' by (unfold size in *; lia).
  pose proof (invariant_block_index v pos Hv Hpos') as Hfbi.
  pose proof (invariant_block_index v last Hv Hlast') as Hlbi.
  unfold block_index, bit_index, block_last_bit_index in *.
  set (fb := pos / bits_per_block) in *. set (lb := last / bits_per_block) in *.
  set (fi := pos mod bits_per_block) in *. set (li := last mod bits_per_block) in *.
  set (m := m_blocks v) in *.
  assert (forall r,
    Forall is_block r -> Vec.size r = Vec.size m ->
    (forall i j, 0 <= i < Vec.size r -> 0 <= j < bits_per_block ->
       Z.testbit (Vec.get r i) j
       = if (pos <=? i * bits_per_block + j) && (i * bits_per_block + j <=? last)
         then fbit (Z.testbit (Vec.get m i) j)
         else Z.testbit (Vec.get m i) j) ->
    exists v', Some (with_blocks v r) = Some v'
      /\ invariant v' /\ size v' = size v
      /\ forall p, bit v' p
                   = if (pos <=? p) && (p <? pos + len) then fbit (bit v p)
                     else bit v p) as Hfinish.
  { intros r Hr Hsz Hbits. eexists. split; [done |].
    destruct (range_result fbit v r pos last) as (Hinv & Hsize & Hres); try done; [lia |].
    split; [done |]. split; [done |]. intros p. rewrite Hres. unfold last.
    destruct_cmp; simpl; (done || lia). }
  destruct (Z.eqb_spec fb lb) as [Hsame | Hdiff].
  - apply Hfinish.
    + apply Vec_set_block; [done |]. by apply Hpb, Vec_get_block.
    + apply Vec_size_set.
    + intros i j Hi Hj. rewrite Vec_size_set in Hi. rewrite Vec_get_set by lia.
      destruct (Z.eqb_spec fb i) as [<- | Hne].
      * rewrite Hpartial; [| by apply Vec_get_block | nia | lia | done].
        destruct_cmp; simpl; (done || nia).
      * destruct_cmp; simpl; (done || nia).
  - assert (fb < lb) as Hlt by nia.
    set (c1 := negb (fi =? 0)). set (c2 := negb (li =? bits_per_block - 1)).
    set (m1 := if c1 then Vec.set m fb (partial (Vec.get m fb) fi (bits_per_block - 1)) else m).
    set (ff := if c1 then fb + 1 else fb).
    set (m2 := if c2 then Vec.set m1 lb (partial (Vec.get m1 lb) 0 li) else m1).
    set (lf := if c2 then lb - 1 else lb).
    assert ((let '(first_full_block, m0) :=
               if c1 then (fb + 1, Vec.set m fb (partial (Vec.get m fb) fi (bits_per_block - 1)))
               else (fb, m) in
             let '(last_full_block, m3) :=
               if c2 then (lb - 1, Vec.set m0 lb (partial (Vec.get m0 lb) 0 li))
               else (lb, m0) in
             Some (with_blocks v
                     (for_up (trips_le first_full_block last_full_block) first_full_block
                        (fun i m4 => Vec.set m4 i (full (Vec.get m4 i))) m3)))
            = Some (with_blocks v
                      (for_up (trips_le ff lf) ff
                         (fun i m4 => Vec.set m4 i (full (Vec.get m4 i))) m2))) as ->.
    { unfold m2, m1, ff, lf. by destruct c1, c2. }
    assert (Vec.size m1 = Vec.size m) as Hsz1.
    { unfold m1. destruct c1; [apply Vec_size_set | done]. }
    assert (Vec.size m2 = Vec.size m) as Hsz2.
    { unfold m2. destruct c2; [by rewrite Vec_size_set | done]. }
    assert (Forall is_block m1) as Hm1.
    { unfold m1. destruct c1; [| done].
      apply Vec_set_block; [done |]. by apply Hpb, Vec_get_block. }
    assert (Forall is_block m2) as Hm2.
    { unfold m2. destruct c2; [| done].
      apply Vec_set_block; [done |]. by apply Hpb, Vec_get_block. }
    assert (forall i, 0 <= i ->
              Vec.get m1 i = if c1 && (i =? fb)
                             then partial (Vec.get m fb) fi (bits_per_block - 1)
                             else Vec.get m i) as Hget1.
    { intros i Hi. unfold m1. destruct c1; simpl; [| done].
      rewrite Vec_get_set by lia. rewrite (Z.eqb_sym fb). done. }
    assert (forall i, 0 <= i ->
              Vec.get m2 i = if c2 && (i =? lb)
                             then partial (Vec.get m lb) 0 li
                             else Vec.get m1 i) as Hget2.
    { intros i Hi. unfold m2. destruct c2; simpl; [| done].
      rewrite Vec_get_set by lia. rewrite (Z.eqb_sym lb), (Hget1 lb) by lia.
      destruct (Z.eqb_spec lb fb); [lia |]. by rewrite andb_false_r. }
    assert ((c1 = true /\ ff = fb + 1 /\ fi <> 0) \/ (c1 = false /\ ff = fb /\ fi = 0))
      as Hc1.
    { unfold c1, ff. destruct (Z.eqb_spec fi 0); simpl; [right | left]; done. }
    assert ((c2 = true /\ lf = lb - 1 /\ li <> bits_per_block - 1)
            \/ (c2 = false /\ lf = lb /\ li = bits_per_block - 1)) as Hc2.
    { unfold c2, lf. destruct (Z.eqb_spec li (bits_per_block - 1)); simpl;
        [right | left]; done. }
    clearbody m2 m1 ff lf c1 c2.
    assert (0 <= ff /\ lf < Vec.size m /\ ff <= lf + 1) as (Hff & Hlf & Hffl) by lia.
    destruct (for_up_set (fun i m4 => full (Vec.get m4 i)) (trips_le ff lf) ff m2)
      as [Hszr Hgetr]; [done | unfold trips_le; lia | |].
    { intros i ma mb _ Hab. by rewrite (Hab i) by lia. }
    apply Hfinish.
    + apply for_up_set_blocks; [done |]. intros i m' Hm'. by apply Hfb, Vec_get_block.
    + by rewrite Hszr.
    + intros i j Hi Hj. rewrite Hszr, Hsz2 in Hi.
      rewrite Hgetr by lia. unfold trips_le. rewrite Z2Nat.id by lia.
      assert (is_block (Vec.get m i)) as Hbi by (by apply Vec_get_block).
      rewrite Hget2, Hget1 by lia.
      destruct (Z.leb_spec ff i), (Z.ltb_spec i (ff + (lf + 1 - ff))); simpl.
      1: { assert (c2 && (i =? lb) = false) as ->.
        { destruct (Z.eqb_spec i lb); [| apply andb_false_r].
          destruct Hc2 as [(-> & ? & ?) | (-> & ? & ?)]; [lia | done]. }
        assert (c1 && (i =? fb) = false) as ->.
        { destruct (Z.eqb_spec i fb); [| apply andb_false_r].
          destruct Hc1 as [(-> & ? & ?) | (-> & ? & ?)]; [lia | done]. }
        rewrite Hfull by done.
        assert (pos <= i * bits_per_block + j <= last) as Hin by nia.
        destruct_cmp; simpl; (done || lia). }
      all: destruct (Z.eqb_spec i lb) as [-> | Hnl]; [| rewrite andb_false_r].
      all: try (destruct Hc2 as [(-> & ? & ?) | (-> & ? & ?)]; simpl; [| lia];
                rewrite Hpartial by (done || lia);
                destruct_cmp; simpl; (done || nia)).
      all: destruct (Z.eqb_spec i fb) as [-> | Hnf]; [| rewrite andb_false_r].
      all: try (destruct Hc1 as [(-> & ? & ?) | (-> & ? & ?)]; simpl; [| lia];
                rewrite Hpartial by (done || lia);
                destruct_cmp; simpl; (done || nia)).
      all: destruct_cmp; simpl; (done || nia).
Qed.

Lemma set_range_spec (v : dynamic_bitset) (pos len : Z) (value : bool) :
  invariant v -> range_pre v pos len ->
  exists v', set_range v pos len value = Some v' /\ invariant v' /\ size v' = size v
             /\ forall p, bit v' p
                          = if (pos <=? p) && (p <? pos + len) then value else bit v p.
Proof.
  intros Hv Hpre. rewrite set_range_update.
  apply (range_update_spec _ _ (fun _ => value)); try done.
  - intros x a b Hx. by apply is_block_set_block_bits.
  - intros x _. destruct value; [apply is_block_one_block | apply is_block_0].
  - intros x a b j Hx Ha Hb Hj. by apply testbit_set_block_bits.
  - intros x j _ Hj. destruct value.
    + rewrite testbit_one_block. destruct_cmp; (done || lia).
    + apply Z.bits_0.
Qed.

Lemma flip_range_spec (v : dynamic_bitset) (pos len : Z) :
  invariant v -> range_pre v pos len ->
  exists v', flip_range v pos len = Some v' /\ invariant v' /\ size v' = size v
             /\ forall p, bit v' p
                          = if (pos <=? p) && (p <? pos + len) then negb (bit v p)
                            else bit v p.
Proof.
  intros Hv Hpre. rewrite flip_range_update.
  apply (range_update_spec _ _ negb); try done.
  - intros x a b Hx. by apply is_block_flip_block_bits.
  - intros x _. apply is_block_bnot.
  - intros x a b j Hx Ha Hb Hj. by apply testbit_flip_block_bits.
  - intros x j _ Hj. rewrite testbit_bnot by lia. destruct_cmp; (done || lia).
Qed.

End RangeUpdate.

Section LeftShift.

Context {Block : UnsignedBlock}.

(** The block that the left shift stores at index [i], on bits. *)
Lemma testbit_left_shift_block (a b bo j : Z) :
  is_block a -> is_block b -> 0 < bo < bits_per_block -> 0 <= j < bits_per_block ->
  Z.testbit (block_type (Z.lor (shl a bo) (block_type (shr b (bits_per_block - bo))))) j
  = if bo <=? j then Z.testbit a (j - bo) else Z.testbit b (j + bits_per_block - bo).
Proof.
  intros Ha Hb Hbo Hj.
  rewrite testbit_block_type, Z.lor_spec, testbit_shl, testbit_block_type, testbit_shr by lia.
  destruct (Z.ltb_spec j bits_per_block); [simpl | lia].
  destruct (Z.leb_spec bo j).
  - rewrite (is_block_high b) by (done || lia). apply orb_false_r.
  - rewrite (Z.testbit_neg_r a) by lia. simpl. f_equal. lia.
Qed.

Lemma apply_left_shift_spec (v : dynamic_bitset) (shift : Z) :
  invariant v -> 0 < shift < m_bits_number v ->
  exists v', apply_left_shift v shift = Some v'
             /\ Forall is_block (m_blocks v')
             /\ Vec.size (m_blocks v') = Vec.size (m_blocks v)
             /\ m_bits_number v' = m_bits_number v
             /\ forall p, p < Vec.size (m_blocks v) * bits_per_block ->
                          bit v' p = bit v (p - shift).
Proof.
  intros Hv Hshift. pose proof W_pos as HW.
  pose proof (invariant_blocks v Hv) as Hm.
  pose proof (invariant_capacity v Hv) as Hcap.
  unfold apply_left_shift, capacity.
  rewrite (assert_true (0 <? shift)) by (apply Z.ltb_lt; lia). simpl.
  rewrite assert_true by (apply Z.ltb_lt; lia). simpl.
  pose proof (div_mod_W shift) as [Hsd Hsb].
  set (bs := shift / bits_per_block) in *. set (bo := shift mod bits_per_block) in *.
  set (m := m_blocks v) in *. set (n := Vec.size m) in *.
  assert (0 <= bs < n) as Hbs.
  { split; [apply div_W_nonneg; lia | apply div_W_lt; lia]. }
  set (r := if bo =? 0 then _ else _).
  assert (Forall is_block r /\ Vec.size r = n
          /\ forall i j, bs <= i < n -> 0 <= j < bits_per_block ->
               Z.testbit (Vec.get r i) j
               = bit_at m (i * bits_per_block + j - shift)) as (Hr & Hszr & Hbitr).
  { unfold r. destruct (Z.eqb_spec bo 0) as [Hbo | Hbo].
    - set (g := fun (i : Z) (m' : list Z) => Vec.get m' (i - bs)).
      destruct (for_down_set g (trips_ge (n - 1) bs) (n - 1) m) as [Hsz Hget];
        [unfold trips_ge; lia | lia | |].
      { intros i m1 m2 Hi H12. unfold g. apply H12. unfold trips_ge in Hi. lia. }
      split; [| split; [done |]].
      + apply for_down_set_blocks; [done |]. intros i m' Hm'. by apply Vec_get_block.
      + intros i j Hi Hj. fold g. rewrite Hget by lia. unfold trips_ge.
        rewrite Z2Nat.id by lia.
        destruct (Z.ltb_spec (n - 1 - (n - 1 + 1 - bs)) i), (Z.leb_spec i (n - 1));
          simpl; try lia.
        unfold g. rewrite <- bit_at_split by lia. f_equal. nia.
    - set (g := fun (i : Z) (m' : list Z) =>
                  block_type
                    (Z.lor (shl (Vec.get m' (i - bs)) bo)
                       (block_type (shr (Vec.get m' (i - bs - 1)) (bits_per_block - bo))))).
      destruct (for_down_set g (trips_gt (n - 1) bs) (n - 1) m) as [Hsz Hget];
        [unfold trips_gt; lia | lia | |].
      { intros i m1 m2 Hi H12. unfold g. unfold trips_gt in Hi.
        rewrite (H12 (i - bs)), (H12 (i - bs - 1)) by lia. done. }
      fold g. set (m' := for_down _ _ _ m) in *.
      split; [| split; [by rewrite Vec_size_set |]].
      + apply Vec_set_block; [| apply block_type_is_block].
        apply for_down_set_blocks; [done |]. intros i m'' Hm''. apply block_type_is_block.
      + intros i j Hi Hj. rewrite Vec_get_set by lia.
        destruct (Z.eqb_spec bs i) as [<- | Hne].
        * rewrite Hget by lia. unfold trips_gt. rewrite Z2Nat.id by lia.
          destruct (Z.ltb_spec (n - 1 - (n - 1 - bs)) 0); simpl; [lia |].
          rewrite testbit_block_type, testbit_shl by lia.
          destruct (Z.ltb_spec j bits_per_block); [simpl | lia].
          destruct (Z.lt_ge_cases j bo).
          -- rewrite Z.testbit_neg_r by lia. symmetry. apply bit_at_neg. nia.
          -- rewrite <- (bit_at_split m 0) by lia. f_equal. nia.
        * rewrite Hget by lia. unfold trips_gt. rewrite Z2Nat.id by lia.
          destruct (Z.ltb_spec (n - 1 - (n - 1 - bs)) i), (Z.leb_spec i (n - 1));
            simpl; try lia.
          unfold g. rewrite testbit_left_shift_block;
            [| by apply Vec_get_block | by apply Vec_get_block | lia | done].
          destruct (Z.leb_spec bo j).
          -- rewrite <- bit_at_split by lia. f_equal. nia.
          -- rewrite <- bit_at_split by lia. f_equal. nia. }
  clearbody r.
  eexists. split; [done |]. unfold with_blocks; simpl.
  split; [apply Vec_fill_blocks; [done | apply is_block_0] |].
  split; [rewrite Vec_size_fill; lia |]. split; [done |].
  intros p Hp. unfold bit; simpl.
  destruct (Z.lt_ge_cases p 0) as [Hneg | Hnn]; [by rewrite !bit_at_neg by lia |].
  pose proof (div_mod_W p) as [Hpd Hpb]. pose proof (div_W_nonneg p Hnn) as Hq.
  rewrite bit_at_testbit by done. unfold block_index, bit_index.
  rewrite Vec_get_fill by lia.
  assert (p / bits_per_block < n) by (by apply div_W_lt).
  destruct (Z.leb_spec 0 (p / bits_per_block)), (Z.ltb_spec (p / bits_per_block) bs);
    simpl; try lia.
  - rewrite Z.bits_0. symmetry. apply bit_at_neg. nia.
  - rewrite Hbitr by lia. f_equal. lia.
Qed.

Lemma op_shl_assign_spec (v : dynamic_bitset) (shift : Z) :
  invariant v -> 0 <= shift ->
  exists v', op_shl_assign v shift = Some v' /\ invariant v' /\ size v' = size v
             /\ forall p, bit v' p = (p <? size v) && bit v (p - shift).
Proof.
  intros Hv Hshift. unfold op_shl_assign, size.
  pose proof (invariant_size_nonneg v Hv) as Hn.
  destruct (Z.eqb_spec shift 0) as [-> | Hne]; simpl.
  { exists v. split; [done |]. split; [done |]. split; [done |]. intros p.
    rewrite Z.sub_0_r. destruct (Z.ltb_spec p (m_bits_number v)); [done |].
    by rewrite (bit_high _ _ Hv). }
  destruct (Z.leb_spec (m_bits_number v) shift) as [Hbig | Hsmall].
  { destruct (reset_all_spec v Hv) as (Hinv & Hsize & Hbits).
    eexists. split; [done |]. split; [done |]. split; [done |]. intros p.
    rewrite Hbits. destruct (Z.ltb_spec p (m_bits_number v)); [| done].
    symmetry. apply bit_neg. lia. }
  destruct (apply_left_shift_spec v shift Hv) as (w & -> & Hmw & Hszw & Hnw & Hbw); [lia |].
  simpl.
  destruct (sanitize_spec w) as (Hinv & Hsize & Hbits).
  - split; [done | lia].
  - rewrite Hszw, Hnw. apply (invariant_num_blocks _ Hv).
  - eexists. split; [done |]. split; [done |]. split; [lia |].
    intros p. destruct (Z.ltb_spec p (m_bits_number v)) as [Hlt | Hge].
    + unfold bit at 1. rewrite Hbits by lia. apply Hbw.
      pose proof (invariant_capacity v Hv). lia.
    + apply (bit_high _ _ Hinv). lia.
Qed.

End LeftShift.

Section RightShift.

Context {Block : UnsignedBlock}.

(** The block that the right shift stores at index [i], on bits. *)
Lemma testbit_right_shift_block (a b bo j : Z) :
  is_block a -> is_block b -> 0 < bo < bits_per_block -> 0 <= j < bits_per_block ->
  Z.testbit (block_type (Z.lor (shr a bo) (block_type (shl b (bits_per_block - bo))))) j
  = if j + bo <? bits_per_block then Z.testbit a (j + bo)
    else Z.testbit b (j + bo - bits_per_block).
Proof.
  intros Ha Hb Hbo Hj.
  rewrite testbit_block_type, Z.lor_spec, testbit_shr, testbit_block_type, testbit_shl by lia.
  destruct (Z.ltb_spec j bits_per_block); [simpl | lia].
  destruct (Z.ltb_spec (j + bo) bits_per_block).
  - rewrite (Z.testbit_neg_r b) by lia. apply orb_false_r.
  - rewrite (is_block_high a) by (done || lia). simpl. f_equal. lia.
Qed.

Lemma apply_right_shift_spec (v : dynamic_bitset) (shift : Z) :
  invariant v -> 0 < shift < m_bits_number v ->
  exists v', apply_right_shift v shift = Some v'
             /\ Forall is_block (m_blocks v')
             /\ Vec.size (m_blocks v') = Vec.size (m_blocks v)
             /\ m_bits_number v' = m_bits_number v
             /\ forall p, bit v' p = (0 <=? p) && bit v (p + shift).
Proof.
  intros Hv Hshift. pose proof W_pos as HW.
  pose proof (invariant_blocks v Hv) as Hm.
  pose proof (invariant_capacity v Hv) as Hcap.
  unfold apply_right_shift, capacity.
  rewrite (assert_true (0 <? shift)) by (apply Z.ltb_lt; lia). simpl.
  rewrite assert_true by (apply Z.ltb_lt; lia). simpl.
  pose proof (div_mod_W shift) as [Hsd Hsb].
  set (bs := shift / bits_per_block) in *. set (bo := shift mod bits_per_block) in *.
  set (m := m_blocks v) in *. set (n := Vec.size m) in *.
  assert (0 <= bs < n) as Hbs.
  { split; [apply div_W_nonneg; lia | apply div_W_lt; lia]. }
  set (lb := n - bs - 1) in *.
  assert (lb = n - bs - 1) as Hlb by done. clearbody lb.
  set (r := if bo =? 0 then _ else _).
  assert (Forall is_block r /\ Vec.size r = n
          /\ forall i j, 0 <= i <= lb -> 0 <= j < bits_per_block ->
               Z.testbit (Vec.get r i) j
               = bit_at m (i * bits_per_block + j + shift)) as (Hr & Hszr & Hbitr).
  { unfold r. destruct (Z.eqb_spec bo 0) as [Hbo | Hbo].
    - set (g := fun (i : Z) (m' : list Z) => Vec.get m' (i + bs)).
      destruct (for_up_set g (trips_le 0 lb) 0 m) as [Hsz Hget];
        [lia | unfold trips_le; lia | |].
      { intros i m1 m2 Hi H12. unfold g. apply H12. lia. }
      split; [| split; [done |]].
      + apply for_up_set_blocks; [done |]. intros i m' Hm'. by apply Vec_get_block.
      + intros i j Hi Hj. fold g. rewrite Hget by lia. unfold trips_le.
        rewrite Z2Nat.id by lia.
        destruct (Z.leb_spec 0 i), (Z.ltb_spec i (0 + (lb + 1 - 0))); simpl; try lia.
        unfold g. rewrite <- bit_at_split by lia. f_equal. nia.
    - set (g := fun (i : Z) (m' : list Z) =>
                  block_type
                    (Z.lor (shr (Vec.get m' (i + bs)) bo)
                       (block_type (shl (Vec.get m' (i + bs + 1)) (bits_per_block - bo))))).
      destruct (for_up_set g (trips_lt 0 lb) 0 m) as [Hsz Hget];
        [lia | unfold trips_lt; lia | |].
      { intros i m1 m2 Hi H12. unfold g.
        rewrite (H12 (i + bs)), (H12 (i + bs + 1)) by lia. done. }
      fold g. set (m' := for_up _ _ _ m) in *.
      split; [| split; [by rewrite Vec_size_set |]].
      + apply Vec_set_block; [| apply block_type_is_block].
        apply for_up_set_blocks; [done |]. intros i m'' Hm''. apply block_type_is_block.
      + intros i j Hi Hj. rewrite Vec_get_set by lia.
        destruct (Z.eqb_spec lb i) as [<- | Hne].
        * rewrite Hget by lia. unfold trips_lt. rewrite Z2Nat.id by lia.
          destruct (Z.leb_spec 0 (n - 1)), (Z.ltb_spec (n - 1) (0 + (lb - 0)));
            simpl; try lia.
          rewrite testbit_block_type, testbit_shr by lia.
          destruct (Z.ltb_spec j bits_per_block); [simpl | lia].
          destruct (Z.lt_ge_cases (j + bo) bits_per_block).
          -- rewrite <- (bit_at_split m (n - 1)) by lia. f_equal. nia.
          -- rewrite is_block_high by (by apply Vec_get_block || lia).
             symmetry. apply bit_at_out. fold n. nia.
        * rewrite Hget by lia. unfold trips_lt. rewrite Z2Nat.id by lia.
          destruct (Z.leb_spec 0 i), (Z.ltb_spec i (0 + (lb - 0))); simpl; try lia.
          unfold g. rewrite testbit_right_shift_block;
            [| by apply Vec_get_block | by apply Vec_get_block | lia | done].
          destruct (Z.ltb_spec (j + bo) bits_per_block).
          -- rewrite <- bit_at_split by lia. f_equal. nia.
          -- rewrite <- bit_at_split by lia. f_equal. nia. }
  clearbody r.
  eexists. split; [done |]. unfold with_blocks; simpl.
  split; [apply Vec_fill_blocks; [done | apply is_block_0] |].
  split; [rewrite Vec_size_fill; lia |]. split; [done |].
  intros p. unfold bit; simpl.
  destruct (Z.leb_spec 0 p) as [Hnn | Hneg]; simpl; [| by rewrite !bit_at_neg by lia].
  pose proof (div_mod_W p) as [Hpd Hpb]. pose proof (div_W_nonneg p Hnn) as Hq.
  rewrite bit_at_testbit by done. unfold block_index, bit_index.
  rewrite Vec_get_fill by lia.
  destruct (Z.leb_spec (lb + 1) (p / bits_per_block)), (Z.ltb_spec (p / bits_per_block) n);
    simpl; try lia.
  - rewrite Z.bits_0. symmetry. apply bit_at_out.
    change (n * bits_per_block <= p + shift). nia.
  - rewrite Vec_get_out by lia. rewrite Z.bits_0. symmetry. apply bit_at_out.
    change (n * bits_per_block <= p + shift). nia.
  - rewrite Hbitr by lia. f_equal. lia.
Qed.

Lemma op_shr_assign_spec (v : dynamic_bitset) (shift : Z) :
  invariant v -> 0 <= shift ->
  exists v', op_shr_assign v shift = Some v' /\ invariant v' /\ size v' = size v
             /\ forall p, bit v' p = (0 <=? p) && bit v (p + shift).
Proof.
  intros Hv Hshift. unfold op_shr_assign, size.
  pose proof (invariant_size_nonneg v Hv) as Hn.
  destruct (Z.eqb_spec shift 0) as [-> | Hne]; simpl.
  { exists v. split; [done |]. split; [done |]. split; [done |]. intros p.
    rewrite Z.add_0_r. destruct (Z.leb_spec 0 p); [done |]. by apply bit_neg. }
  destruct (Z.leb_spec (m_bits_number v) shift) as [Hbig | Hsmall].
  { destruct (reset_all_spec v Hv) as (Hinv & Hsize & Hbits).
    eexists. split; [done |]. split; [done |]. split; [done |]. intros p.
    rewrite Hbits. destruct (Z.leb_spec 0 p); [| done].
    symmetry. apply (bit_high _ _ Hv). lia. }
  destruct (apply_right_shift_spec v shift Hv) as (w & -> & Hmw & Hszw & Hnw & Hbw); [lia |].
  exists w. split; [done |]. split; [| split; [done | done]].
  destruct w as [mw nw]; simpl in *. subst nw. apply invariant_intro; try done.
  - rewrite Hszw. apply (invariant_num_blocks _ Hv).
  - intros p Hp. unfold bit in Hbw; simpl in Hbw. rewrite Hbw.
    destruct (Z.leb_spec 0 p); [simpl | done]. apply (invariant_high _ _ Hv). lia.
Qed.

End RightShift.

Section ValueConstructor.

Context {Block : UnsignedBlock}.







End ValueConstructor.

Section FromString.

Context {Block : UnsignedBlock} {CharT : Type} `{EqDecision CharT}.

(** The loop of [init_from_string], from iteration [i] on. *)
Lemma init_from_string_loop (str : list CharT) (pos sz : Z) (zero one : CharT)
    (cnt : nat) (i : Z) (v : dynamic_bitset) :
  invariant v -> size v = sz -> 0 <= i -> i + Z.of_nat cnt <= sz ->
  (forall p, i <= p -> bit v p = false) ->
  (forall k, i <= k < i + Z.of_nat cnt ->
     nth (Z.to_nat (pos + sz - 1 - k)) str zero = zero
     \/ nth (Z.to_nat (pos + sz - 1 - k)) str zero = one) ->
  exists v',
    for_up_chk cnt i
      (fun i v =>
         let c := nth (Z.to_nat (pos + sz - 1 - i)) str zero in
         assert (bool_decide (c = zero) || bool_decide (c = one));;
         if bool_decide (c = one) then set_bit v i true else Some v) v = Some v'
    /\ invariant v' /\ size v' = sz
    /\ forall p, bit v' p
                 = if (i <=? p) && (p <? i + Z.of_nat cnt)
                   then bool_decide (nth (Z.to_nat (pos + sz - 1 - p)) str zero = one)
                   else bit v p.
Proof.
  revert i v. induction cnt as [| cnt IH]; intros i v Hv Hsz Hi Hcnt Hzero Hchars.
  - exists v. split; [done |]. split; [done |]. split; [done |].
    intros p. destruct_cmp; simpl; (done || lia).
  - cbn [for_up_chk].
    set (c := nth (Z.to_nat (pos + sz - 1 - i)) str zero).
    rewrite assert_true.
    2:{ destruct (Hchars i ltac:(lia)) as [Hc | Hc]; fold c in Hc; rewrite Hc.
        - by rewrite bool_decide_eq_true_2.
        - rewrite (bool_decide_eq_true_2 (one = one)) by done. apply orb_true_r. }
    cbn [mbind option_bind].
    assert (exists v1, (if bool_decide (c = one) then set_bit v i true else Some v) = Some v1
                       /\ invariant v1 /\ size v1 = sz
                       /\ forall p, bit v1 p = if p =? i then bool_decide (c = one)
                                               else bit v p)
      as (v1 & -> & Hv1 & Hsz1 & Hbits1).
    { destruct (bool_decide (c = one)).
      - destruct (set_bit_spec v i true Hv) as (v1 & ? & ? & ? & ?); [lia |].
        exists v1. split; [done |]. split; [done |]. split; [congruence | done].
      - exists v. split; [done |]. split; [done |]. split; [done |].
        intros p. destruct (Z.eqb_spec p i) as [-> |]; [| done]. apply Hzero. lia. }
    cbn [mbind option_bind].
    destruct (IH (i + 1) v1) as (v' & Hv'eq & Hv' & Hsz' & Hbits'); try done; try lia.
    + intros p Hp. rewrite Hbits1. destruct (Z.eqb_spec p i); [lia |]. apply Hzero. lia.
    + intros k Hk. apply Hchars. lia.
    + exists v'. split; [done |]. split; [done |]. split; [done |].
      intros p. rewrite Hbits', Hbits1.
      destruct (Z.eqb_spec p i) as [-> |]; destruct_cmp; simpl; (done || lia).
Qed.

Lemma init_from_string_spec (str : list CharT) (pos n : Z) (zero one : CharT) :
  0 <= pos < Z.of_nat (length str) -> 0 <= n ->
  (forall k, pos <= k < pos + Z.min n (Z.of_nat (length str) - pos) ->
     nth (Z.to_nat k) str zero = zero \/ nth (Z.to_nat k) str zero = one) ->
  exists v, init_from_string str pos n zero one = Some v
            /\ invariant v
            /\ size v = Z.min n (Z.of_nat (length str) - pos)
            /\ forall p, 0 <= p < size v ->
                 bit v p = bool_decide (nth (Z.to_nat (pos + size v - 1 - p)) str zero = one).
Proof.
  intros Hpos Hn Hchars. unfold init_from_string.
  rewrite assert_true by (apply Z.ltb_lt; lia). cbn [mbind option_bind].
  set (sz := Z.min n (Z.of_nat (length str) - pos)) in *.
  assert (0 <= sz) as Hsz by (unfold sz; lia).
  pose proof (blocks_required_nonneg sz Hsz) as Hreq.
  set (v0 := mk_bitset (Vec.resize [] (blocks_required sz) 0) sz).
  assert (forall p, bit v0 p = false) as Hzero.
  { intros p. unfold bit, v0, bit_at; simpl.
    destruct (Z.leb_spec 0 p); [simpl | done].
    destruct (Z.lt_ge_cases (p / bits_per_block) (blocks_required sz)).
    - pose proof (div_W_nonneg p ltac:(done)).
      rewrite Vec_get_resize by done.
      destruct (Z.ltb_spec (p / bits_per_block) (Vec.size [])) as [Hlt |];
        [| apply Z.bits_0].
      unfold Vec.size in Hlt. simpl in Hlt. lia.
    - rewrite Vec_get_out; [apply Z.bits_0 |]. by rewrite Vec_size_resize. }
  assert (invariant v0) as Hv0.
  { apply invariant_intro; try done.
    - apply Vec_resize_blocks; [done | apply is_block_0].
    - by apply Vec_size_resize.
    - intros p _. apply Hzero. }
  destruct (init_from_string_loop str pos sz zero one (trips_lt 0 sz) 0 v0)
    as (v & Hveq & Hv & Hszv & Hbits); try done.
  - unfold trips_lt. lia.
  - intros k Hk. unfold trips_lt in Hk. apply Hchars. lia.
  - exists v. split; [done |]. split; [done |]. split; [done |].
    intros p Hp. rewrite Hbits, Hszv. unfold trips_lt.
    rewrite Hszv in Hp. destruct_cmp; simpl; (done || lia).
Qed.

Lemma dynamic_bitset_string_spec (str : list CharT) (pos n : Z) (zero one : CharT) :
  0 <= pos < Z.of_nat (length str) -> 0 <= n ->
  (forall k, pos <= k < pos + Z.min n (Z.of_nat (length str) - pos) ->
     nth (Z.to_nat k) str zero = zero \/ nth (Z.to_nat k) str zero = one) ->
  exists v, dynamic_bitset_string str pos n zero one = Some v
            /\ invariant v
            /\ size v = Z.min n (Z.of_nat (length str) - pos)
            /\ forall p, 0 <= p < size v ->
                 bit v p = bool_decide (nth (Z.to_nat (pos + size v - 1 - p)) str zero = one).
Proof.
  intros Hpos Hn Hchars. unfold dynamic_bitset_string.
  rewrite assert_true by (apply Z.ltb_lt; lia). cbn [mbind option_bind].
  by apply init_from_string_spec.
Qed.

End FromString.

Section ClaimC1.

Context {Block : UnsignedBlock}.

(** Where [pos + len - 1] does not exceed [size_type_max], computing it in
    [size_type] changes nothing. *)
Lemma set_range_size_t_in_range (v : dynamic_bitset) (pos len : Z) (value : bool) :
  0 <= pos -> 0 <= len -> pos + len - 1 <= size_type_max ->
  set_range_size_t v pos len value = set_range v pos len value.
Proof.
  intros Hpos Hlen Hmax. pose proof W_pos as HW.
  unfold set_range_size_t, set_range.
  destruct (assert (pos <? size v)); [| done]. cbn [mbind option_bind].
  destruct (Z.eqb_spec len 0) as [| Hne]; [done |].
  assert (size_type_wrap (pos + len - 1) = pos + len - 1) as ->.
  { unfold size_type_wrap. apply Z.mod_small. lia. }
  destruct (assert (pos + len - 1 <? size v)); [| done]. cbn [mbind option_bind].
  cbv zeta.
  destruct (Z.eqb_spec (block_index pos) (block_index (pos + len - 1))) as [| Hblocks];
    [done |].
  assert (size_type_wrap (block_index (pos + len - 1) - 1)
          = block_index (pos + len - 1) - 1) as ->; [| done].
  unfold size_type_wrap. apply Z.mod_small.
  assert (0 <= block_index pos) by (by apply div_W_nonneg).
  assert (block_index pos <= block_index (pos + len - 1))
    by (unfold block_index; apply Z.div_le_mono; lia).
  assert (block_index (pos + len - 1) <= pos + len - 1)
    by (unfold block_index; apply Z.div_le_upper_bound; nia).
  lia.
Qed.

End ClaimC1.

Section ClaimC1Defect.

#[local] Existing Instance uint8.

(** Claim C1 fails on the code.  With [uint8_t] blocks, the bitset of
    blocks [{157, 5, 1}] and size 19 satisfies the class invariant, and
    [set(17, SIZE_MAX - 7, true)] meets the precondition as the source
    documents and asserts it, [pos < size()] and [pos + len - 1 < size()],
    because the sum wraps to 8 in [size_type].  The call returns with blocks
    [{157, 5, 255}] and size 19: the bits at positions 19 to 23 of the last
    block are set, so the unused bits are not zero and [check_consistency]
    is false. *)
Theorem set_range_overflow_breaks_sanitization :
  invariant (mk_bitset [157; 5; 1] 19)
  /\ (17 <? size (mk_bitset [157; 5; 1] 19)) = true
  /\ size_type_wrap (17 + (size_type_max - 7) - 1) = 8
  /\ (size_type_wrap (17 + (size_type_max - 7) - 1) <? size (mk_bitset [157; 5; 1] 19))
     = true
  /\ set_range_size_t (mk_bitset [157; 5; 1] 19) 17 (size_type_max - 7) true
     = Some (mk_bitset [157; 5; 255] 19)
  /\ num_blocks (mk_bitset [157; 5; 255] 19)
     = ceil_div (size (mk_bitset [157; 5; 255] 19)) bits_per_block
  /\ size (mk_bitset [157; 5; 255] 19) mod bits_per_block = 3
  /\ Z.testbit (last_block (mk_bitset [157; 5; 255] 19)) 3 = true
  /\ (sanitization_invariant (mk_bitset [157; 5; 255] 19) -> False)
  /\ (invariant (mk_bitset [157; 5; 255] 19) -> False)
  /\ check_consistency (mk_bitset [157; 5; 255] 19) = false.
Proof.
  assert (sanitization_invariant (mk_bitset [157; 5; 255] 19) -> False) as Hsan.
  { intros H. specialize (H ltac:(vm_compute; congruence) 3 ltac:(vm_compute; split; congruence)).
    vm_compute in H. congruence. }
  split.
  { apply check_consistency_spec; [| reflexivity].
    split; [| simpl; lia]. repeat constructor; vm_compute; congruence. }
  split; [reflexivity |]. split; [reflexivity |]. split; [reflexivity |].
  split; [vm_compute; reflexivity |]. split; [reflexivity |]. split; [reflexivity |].
  split; [reflexivity |]. split; [exact Hsan |].
  split; [intros (_ & _ & H); exact (Hsan H) | reflexivity].
Qed.

End ClaimC1Defect.
Section ClaimC3.

Context {Block : UnsignedBlock}.

(** C3. For every bitset [v] and shift amount [k]: shifting by [0] leaves
    [v] unchanged; shifting left by [k >= size] clears every bit and keeps
    the size; and [(v << k) >> k] is [v] with its top [min(k, size)] bits
    reset to 0 (the bitset that [reset(size - min(k, size), min(k, size))]
    makes of [v], when there is a bit to reset), the size unchanged
    throughout. *)
Theorem shift_laws (v : dynamic_bitset) (k : Z) :
  invariant v -> 0 <= k ->
  op_shl v 0 = Some v /\ op_shr v 0 = Some v
  /\ (size v <= k ->
      op_shl v k = Some (reset_all v)
      /\ size (reset_all v) = size v
      /\ forall p, bit (reset_all v) p = false)
  /\ exists shifted back,
       op_shl v k = Some shifted /\ op_shr shifted k = Some back
       /\ size shifted = size v /\ size back = size v
       /\ (forall p, bit back p = bit v p && (p <? size v - Z.min k (size v)))
       /\ (0 < Z.min k (size v) ->
           reset_range v (size v - Z.min k (size v)) (Z.min k (size v)) = Some back).
Proof.
  intros Hv Hk. pose proof (invariant_size_nonneg v Hv) as Hn.
  destruct (reset_all_spec v Hv) as (Hrinv & Hrsize & Hrbits).
  destruct (op_shl_assign_spec v k Hv Hk) as (v1 & Hv1eq & Hv1 & Hsz1 & Hbits1).
  destruct (op_shr_assign_spec v1 k Hv1 Hk) as (v2 & Hv2eq & Hv2 & Hsz2 & Hbits2).
  split; [done |]. split; [done |]. split.
  - intros Hbig. split; [| done].
    unfold op_shl. rewrite Hv1eq. f_equal.
    apply invariant_ext; [done | done | unfold size in *; congruence |].
    intros p Hp. fold (bit v1 p) (bit (reset_all v) p). rewrite Hbits1, Hrbits.
    rewrite (bit_neg v) by (unfold size in *; lia). apply andb_false_r.
  - assert (forall p, bit v2 p = bit v p && (p <? size v - Z.min k (size v))) as Hback.
    { intros p. rewrite Hbits2, Hbits1. unfold size in *.
      destruct (Z.leb_spec 0 p) as [Hp | Hp]; simpl; [| by rewrite (bit_neg v)].
      replace (p + k - k) with p by lia.
      destruct (bit v p) eqn:Hbit; [| by rewrite andb_false_r].
      assert (p < m_bits_number v).
      { destruct (Z.lt_ge_cases p (m_bits_number v)); [done |].
        by rewrite (bit_high v p Hv) in Hbit. }
      destruct_cmp; simpl; (done || lia). }
    exists v1, v2. unfold op_shl, op_shr.
    split; [done |]. split; [done |]. split; [done |]. split; [congruence |].
    split; [done |].
    intros Hmin. unfold reset_range.
    destruct (set_range_spec v (size v - Z.min k (size v)) (Z.min k (size v)) false Hv)
      as (v3 & -> & Hv3 & Hsz3 & Hbits3).
    { unfold range_pre, size in *. lia. }
    f_equal. apply invariant_ext; [done | done | unfold size in *; congruence |].
    intros p Hp. fold (bit v3 p) (bit v2 p). rewrite Hbits3, Hback. unfold size in *.
    destruct (bit v p); destruct_cmp; simpl; (done || lia).
Qed.

End ClaimC3.

Section ClaimC3Witness.

#[local] Existing Instance uint8.

Lemma shift_laws_witness :
  invariant sample /\ 0 <= 3
  /\ (op_shl sample 0 = Some sample /\ op_shr sample 0 = Some sample
      /\ (size sample <= 3 ->
          op_shl sample 3 = Some (reset_all sample)
          /\ size (reset_all sample) = size sample
          /\ forall p, bit (reset_all sample) p = false)
      /\ exists shifted back,
           op_shl sample 3 = Some shifted /\ op_shr shifted 3 = Some back
           /\ size shifted = size sample /\ size back = size sample
           /\ (forall p, bit back p
                         = bit sample p && (p <? size sample - Z.min 3 (size sample)))
           /\ (0 < Z.min 3 (size sample) ->
               reset_range sample (size sample - Z.min 3 (size sample))
                 (Z.min 3 (size sample)) = Some back)).
Proof.
  assert (invariant sample) as Hv.
  { apply check_consistency_spec; [| reflexivity].
    split; [| simpl; lia]. repeat constructor; vm_compute; congruence. }
  assert (0 <= 3) as Hk by lia.
  split; [exact Hv |]. split; [exact Hk |].
  exact (shift_laws sample 3 Hv Hk).
Defined.

End ClaimC3Witness.

Section SampleFacts.

#[local] Existing Instance uint8.

Lemma sample_invariant : invariant sample.
Proof.
  apply check_consistency_spec; [| reflexivity].
  split; [| simpl; lia]. repeat constructor; vm_compute; congruence.
Qed.

End SampleFacts.

Section ClaimC9.

Context {Block : UnsignedBlock}.

(** C9. Appending blocks concatenates at the bit level: for a bitset of old
    size [s], aligned or not, and a non-empty sequence of blocks
    [b0 .. b(n-1)], [append(first, last)] returns a bitset of size
    [s + n * bits_per_block] in which every position [p < s] keeps its bit
    and position [s + k * bits_per_block + j] holds bit [j] of [bk]; it
    is what [append(block)] gives when called on the blocks in turn. *)
Theorem append_concatenates_bits (v : dynamic_bitset) (blocks : list Z) :
  invariant v -> Forall is_block blocks -> blocks <> [] ->
  exists v',
    append_range v blocks = Some v'
    /\ append_blocks v blocks = Some v'
    /\ size v' = size v + Vec.size blocks * bits_per_block
    /\ (forall p, 0 <= p < size v -> test v' p = test v p)
    /\ (forall k j, 0 <= k < Vec.size blocks -> 0 <= j < bits_per_block ->
          test v' (size v + k * bits_per_block + j)
          = Some (Z.testbit (Vec.get blocks k) j)).
Proof.
  intros Hv Hblocks _. pose proof W_pos as HW.
  pose proof (invariant_size_nonneg v Hv) as Hn.
  destruct (append_range_spec v blocks Hv Hblocks) as (v' & Heq & Hv' & Hsize & Hbits).
  pose proof (Vec_size_nonneg blocks) as Hlen.
  exists v'. split; [done |]. split; [by rewrite <- append_range_blocks |].
  split; [done |]. split.
  - intros p Hp. rewrite !test_spec by (done || unfold size in *; nia).
    rewrite Hbits. destruct (Z.ltb_spec p (size v)); [done | lia].
  - intros k j Hk Hj. rewrite test_spec by (done || unfold size in *; nia).
    rewrite Hbits. unfold size in *.
    destruct (Z.ltb_spec (m_bits_number v + k * bits_per_block + j) (m_bits_number v));
      [nia |].
    replace (m_bits_number v + k * bits_per_block + j - m_bits_number v)
      with (k * bits_per_block + j) by lia.
    by rewrite bit_at_split by lia.
Qed.

End ClaimC9.

Section ClaimC9Witness.

#[local] Existing Instance uint8.

Lemma append_concatenates_bits_witness :
  invariant sample /\ Forall is_block [5; 255; 129] /\ [5; 255; 129] <> []
  /\ exists v',
       append_range sample [5; 255; 129] = Some v'
       /\ append_blocks sample [5; 255; 129] = Some v'
       /\ size v' = size sample + Vec.size [5; 255; 129] * bits_per_block
       /\ (forall p, 0 <= p < size sample -> test v' p = test sample p)
       /\ (forall k j, 0 <= k < Vec.size [5; 255; 129] -> 0 <= j < bits_per_block ->
             test v' (size sample + k * bits_per_block + j)
             = Some (Z.testbit (Vec.get [5; 255; 129] k) j)).
Proof.
  assert (Forall is_block [5; 255; 129]) as Hblocks.
  { repeat constructor; vm_compute; congruence. }
  assert ([5; 255; 129] <> []) as Hne by discriminate.
  split; [exact sample_invariant |]. split; [exact Hblocks |]. split; [exact Hne |].
  exact (append_concatenates_bits sample [5; 255; 129] sample_invariant Hblocks Hne).
Defined.

End ClaimC9Witness.

Section ClaimC10.

Context {Block : UnsignedBlock}.


End ClaimC10.

Section ClaimC10Witness.

#[local] Existing Instance uint8.


End ClaimC10Witness.

Section ClaimC10Counterexample.


End ClaimC10Counterexample.

Section Ordering.

Context {Block : UnsignedBlock}.

Lemma Vec_eqb_eq (a b : list Z) : Vec.eqb a b = true <-> a = b.
Proof.
  revert b. induction a as [| x a IH]; intros [| y b]; simpl; try done.
  rewrite andb_true_iff, Z.eqb_eq, IH. split.
  - by intros [-> ->].
  - by intros [= -> ->].
Qed.

Lemma op_eq_eq (a b : dynamic_bitset) : op_eq a b = true <-> a = b.
Proof.
  unfold op_eq. rewrite andb_true_iff, Z.eqb_eq, Vec_eqb_eq.
  destruct a, b; simpl. split.
  - by intros [-> ->].
  - by intros [= -> ->].
Qed.

Lemma lt_at_swap (a b : dynamic_bitset) (i : Z) :
  lt_at b a i = negb <$> lt_at a b i.
Proof.
  unfold lt_at. rewrite (Z.eqb_sym (Vec.get (m_blocks b) i)).
  destruct (Z.eqb_spec (Vec.get (m_blocks a) i) (Vec.get (m_blocks b) i)); simpl; [done |].
  f_equal. destruct_cmp; simpl; (done || lia).
Qed.

Lemma scan_down_fmap {R S : Type} (f : R -> S) (body : Z -> option R) (body' : Z -> option S)
    (n : nat) (hi : Z) :
  (forall i, body' i = f <$> body i) ->
  scan_down n hi body' = f <$> scan_down n hi body.
Proof.
  intros Hbody. revert hi. induction n as [| n IH]; intros hi; simpl; [done |].
  rewrite Hbody. destruct (body hi); simpl; [done | apply IH].
Qed.

Lemma lt_at_None (a b : dynamic_bitset) (i : Z) :
  lt_at a b i = None <-> Vec.get (m_blocks a) i = Vec.get (m_blocks b) i.
Proof.
  unfold lt_at.
  destruct (Z.eqb_spec (Vec.get (m_blocks a) i) (Vec.get (m_blocks b) i)); simpl;
    split; (done || lia).
Qed.

Lemma ltb_irrefl_cases (x y : Z) :
  ((x <? y) = true /\ (y <? x) = false /\ x <> y)
  \/ ((x <? y) = false /\ (y <? x) = true /\ x <> y)
  \/ ((x <? y) = false /\ (y <? x) = false /\ x = y).
Proof. destruct (Z.ltb_spec x y), (Z.ltb_spec y x); lia. Qed.

(** Exactly one of [a < b], [b < a], [a == b]. *)
Lemma op_lt_trichotomy (a b : dynamic_bitset) :
  invariant a -> invariant b ->
  (op_lt a b = true /\ op_lt b a = false /\ op_eq a b = false)
  \/ (op_lt a b = false /\ op_lt b a = true /\ op_eq a b = false)
  \/ (op_lt a b = false /\ op_lt b a = false /\ op_eq a b = true).
Proof.
  intros Ha Hb.
  pose proof (invariant_num_blocks a Ha) as Hna.
  pose proof (invariant_num_blocks b Hb) as Hnb.
  pose proof (invariant_size_nonneg a Ha) as Hsa.
  pose proof (invariant_size_nonneg b Hb) as Hsb.
  pose proof (blocks_required_bounds (m_bits_number a)) as Hba.
  pose proof (blocks_required_bounds (m_bits_number b)) as Hbb.
  pose proof W_pos as HW.
  assert (forall r : bool, r = true /\ negb r = false \/ r = false /\ negb r = true)
    as Hneg by (intros []; tauto).
  unfold op_lt, size.
  rewrite (Z.eqb_sym (m_bits_number b) (m_bits_number a)).
  destruct (Z.eqb_spec (m_bits_number a) (m_bits_number b)) as [Hsize | Hsize].
  - rewrite <- Hsize.
    destruct (Z.eqb_spec (m_bits_number a) 0) as [H0 | Hn0].
    + right. right. split; [done |]. split; [done |]. apply op_eq_eq.
      destruct a as [ma na], b as [mb nb]; simpl in *. subst.
      rewrite blocks_required_0 in *.
      destruct ma; [| unfold Vec.size in Hna; simpl in Hna; lia].
      destruct mb; [| unfold Vec.size in Hnb; simpl in Hnb; lia].
      done.
    + assert (Vec.size (m_blocks b) = Vec.size (m_blocks a)) as Hlen by congruence.
      rewrite Hlen.
      rewrite (scan_down_fmap negb (lt_at a b) (lt_at b a)) by apply lt_at_swap.
      destruct (scan_down _ _ (lt_at a b)) as [r |] eqn:Hscan; simpl.
      * assert (op_eq a b = false) as Hne.
        { destruct (op_eq a b) eqn:E; [| done]. apply op_eq_eq in E. subst b.
          apply scan_down_Some in Hscan as (i & _ & Hi & _).
          unfold lt_at in Hi. by rewrite Z.eqb_refl in Hi. }
        destruct (Hneg r) as [[-> ->] | [-> ->]]; tauto.
      * pose proof (proj1 (scan_down_None _ _ _) Hscan) as Hall.
        destruct (ltb_irrefl_cases (Vec.get (m_blocks a) 0) (Vec.get (m_blocks b) 0))
          as [(-> & -> & Hne) | [(-> & -> & Hne) | (-> & -> & Heq)]].
        -- left. split; [done |]. split; [done |].
           destruct (op_eq a b) eqn:E; [| done]. apply op_eq_eq in E. by subst b.
        -- right. left. split; [done |]. split; [done |].
           destruct (op_eq a b) eqn:E; [| done]. apply op_eq_eq in E. by subst b.
        -- right. right. split; [done |]. split; [done |]. apply op_eq_eq.
           destruct a as [ma na], b as [mb nb]; simpl in *. subst nb. f_equal.
           apply Vec_ext; [done |]. intros i Hi.
           destruct (Z.eq_dec i 0) as [-> | Hi0]; [done |].
           apply (lt_at_None (mk_bitset ma na) (mk_bitset mb na)).
           apply Hall. unfold trips_gt. lia.
  - assert (op_eq a b = false) as Hne.
    { destruct (op_eq a b) eqn:E; [| done]. apply op_eq_eq in E. by subst b. }
    rewrite Hne.
    assert (forall x y : bool, x = true /\ y = false \/ x = false /\ y = true ->
              (x = true /\ y = false /\ false = false)
              \/ (x = false /\ y = true /\ false = false)
              \/ (x = false /\ y = false /\ false = true)) as Hpack by tauto.
    apply Hpack.
    destruct (Z.eqb_spec (m_bits_number a) 0) as [Ha0 | Ha0];
      destruct (Z.eqb_spec (m_bits_number b) 0) as [Hb0 | Hb0]; try lia; try tauto.
    rewrite (Z.max_comm (Vec.size (m_blocks b))), (Z.min_comm (Vec.size (m_blocks b))).
    set (hi := Z.max _ _ - 1). set (lo := Z.min _ _).
    assert ((m_bits_number b <? m_bits_number a) = negb (m_bits_number a <? m_bits_number b))
      as Hrl by (destruct_cmp; simpl; (done || lia)).
    rewrite Hrl.
    assert ((if negb (m_bits_number a <? m_bits_number b) then a else b)
            = (if m_bits_number a <? m_bits_number b then b else a)) as ->
      by (by destruct (m_bits_number a <? m_bits_number b)).
    set (longest := if m_bits_number a <? m_bits_number b then b else a).
    rewrite (scan_down_fmap negb
               (fun i => if negb (Vec.get (m_blocks longest) i =? block_type 0)
                         then Some (m_bits_number a <? m_bits_number b) else None)
               (fun i => if negb (Vec.get (m_blocks longest) i =? block_type 0)
                         then Some (negb (m_bits_number a <? m_bits_number b)) else None))
      by (intros i; by destruct (Vec.get (m_blocks longest) i =? block_type 0)).
    destruct (scan_down _ hi _) as [r |]; simpl; [apply Hneg |].
    rewrite (scan_down_fmap negb (lt_at a b) (lt_at b a)) by apply lt_at_swap.
    destruct (scan_down _ _ (lt_at a b)) as [r |]; simpl; [apply Hneg |].
    rewrite (Z.eqb_sym (Vec.get (m_blocks b) 0)).
    destruct (Z.eqb_spec (Vec.get (m_blocks a) 0) (Vec.get (m_blocks b) 0)); simpl.
    + destruct_cmp; simpl; try lia; tauto.
    + destruct_cmp; simpl; try lia; tauto.
Qed.

End Ordering.

Section Magnitude.

Context {Block : UnsignedBlock}.

Lemma testbit_add_high (b acc p : Z) :
  is_block b -> 0 <= p ->
  Z.testbit (b + 2 ^ bits_per_block * acc) p
  = if p <? bits_per_block then Z.testbit b p else Z.testbit acc (p - bits_per_block).
Proof.
  intros Hb Hp. pose proof W_pos as HW.
  replace (2 ^ bits_per_block * acc) with (Z.shiftl acc bits_per_block)
    by (rewrite Z.shiftl_mul_pow2; lia).
  assert (Z.land b (Z.shiftl acc bits_per_block) = 0) as Hdisj.
  { apply Z.bits_inj'. intros j Hj. rewrite Z.land_spec, Z.bits_0.
    destruct (Z.lt_ge_cases j bits_per_block).
    - rewrite Z.shiftl_spec_low by done. apply andb_false_r.
    - by rewrite (is_block_high b). }
  rewrite Z.add_nocarry_lxor by done.
  rewrite Z.lxor_spec, Z.shiftl_spec by done.
  destruct (Z.ltb_spec p bits_per_block).
  - rewrite (Z.testbit_neg_r acc) by lia. apply xorb_false_r.
  - by rewrite (is_block_high b).
Qed.

Lemma testbit_magnitude (v : dynamic_bitset) (p : Z) :
  Forall is_block (m_blocks v) -> 0 <= p -> Z.testbit (magnitude v) p = bit v p.
Proof.
  unfold magnitude, bit. destruct v as [m n]; simpl. clear n.
  revert p. induction m as [| b r IH]; intros p Hm Hp; simpl.
  - rewrite Z.bits_0. symmetry. apply bit_at_out. unfold Vec.size; simpl. lia.
  - apply Forall_cons in Hm as [Hb Hr].
    rewrite testbit_add_high, bit_at_cons by done.
    destruct (Z.ltb_spec p bits_per_block); [done |]. apply IH; [done | lia].
Qed.

Lemma magnitude_blocks (a b : dynamic_bitset) (i : Z) :
  Forall is_block (m_blocks a) -> Forall is_block (m_blocks b) ->
  magnitude a = magnitude b -> 0 <= i ->
  Vec.get (m_blocks a) i = Vec.get (m_blocks b) i.
Proof.
  intros Ha Hb Hmag Hi. apply block_ext; [by apply Vec_get_block .. |].
  intros j Hj. rewrite <- !bit_at_split by done.
  pose proof W_pos.
  change (bit a (i * bits_per_block + j) = bit b (i * bits_per_block + j)).
  rewrite <- (testbit_magnitude a), <- (testbit_magnitude b) by (done || nia).
  by rewrite Hmag.
Qed.

Lemma magnitude_ext (a b : dynamic_bitset) :
  Forall is_block (m_blocks a) -> Forall is_block (m_blocks b) ->
  (forall p, 0 <= p -> bit a p = bit b p) -> magnitude a = magnitude b.
Proof.
  intros Ha Hb Hbits. apply Z.bits_inj'. intros p Hp.
  by rewrite !testbit_magnitude, Hbits.
Qed.

(** On equal magnitudes the shorter bitset is the lesser. *)
Lemma op_lt_tie (a b : dynamic_bitset) :
  invariant a -> invariant b ->
  magnitude a = magnitude b -> size a < size b -> op_lt a b = true.
Proof.
  intros Ha Hb Hmag Hsize. unfold size in *.
  pose proof (invariant_size_nonneg a Ha) as Hsa.
  assert (forall i, 0 <= i -> Vec.get (m_blocks a) i = Vec.get (m_blocks b) i) as Hget.
  { intros i Hi. apply magnitude_blocks; try done; by apply invariant_blocks. }
  unfold op_lt, size.
  destruct (Z.eqb_spec (m_bits_number a) (m_bits_number b)); [lia |].
  destruct (Z.eqb_spec (m_bits_number a) 0); [done |].
  destruct (Z.eqb_spec (m_bits_number b) 0); [lia |].
  destruct (Z.ltb_spec (m_bits_number a) (m_bits_number b)); [| lia].
  destruct (scan_down _ _ _) as [r |] eqn:Hhigh.
  { apply scan_down_Some in Hhigh as (i & _ & Hi & _).
    destruct (negb _); [by injection Hi as <- | done]. }
  assert (scan_down
            (trips_gt (Z.min (Vec.size (m_blocks a)) (Vec.size (m_blocks b)) - 1) 0)
            (Z.min (Vec.size (m_blocks a)) (Vec.size (m_blocks b)) - 1) (lt_at a b)
          = None) as ->.
  { apply scan_down_None. intros i Hi. apply lt_at_None, Hget.
    unfold trips_gt in Hi. lia. }
  rewrite (Hget 0) by lia. by rewrite Z.eqb_refl.
Qed.

End Magnitude.

Section StringExample.

Context {Block : UnsignedBlock}.

(** [dynamic_bitset("011")] and [dynamic_bitset("0011")], whatever the
    block type. *)
Lemma of_chars_011 :
  exists x, of_chars ["0"; "1"; "1"]%char = Some x /\ invariant x /\ size x = 3
            /\ bit x 0 = true /\ bit x 1 = true /\ bit x 2 = false.
Proof.
  destruct (dynamic_bitset_string_spec ["0"; "1"; "1"]%char 0 npos "0"%char "1"%char)
    as (x & Hx & Hinv & Hsize & Hbits).
  - simpl. lia.
  - unfold npos, size_type_max. lia.
  - simpl. unfold npos, size_type_max. intros k Hk.
    assert (k = 0 \/ k = 1 \/ k = 2) as [-> | [-> | ->]] by lia; simpl; tauto.
  - simpl in Hsize. unfold npos, size_type_max in Hsize.
    assert (size x = 3) as Hsize3 by lia. clear Hsize. rename Hsize3 into Hsize.
    exists x. split; [done |]. split; [done |]. split; [done |].
    rewrite Hsize in Hbits.
    rewrite (Hbits 0), (Hbits 1), (Hbits 2) by lia. done.
Qed.

Lemma of_chars_0011 :
  exists y, of_chars ["0"; "0"; "1"; "1"]%char = Some y /\ invariant y /\ size y = 4
            /\ bit y 0 = true /\ bit y 1 = true /\ bit y 2 = false /\ bit y 3 = false.
Proof.
  destruct (dynamic_bitset_string_spec ["0"; "0"; "1"; "1"]%char 0 npos "0"%char "1"%char)
    as (y & Hy & Hinv & Hsize & Hbits).
  - simpl. lia.
  - unfold npos, size_type_max. lia.
  - simpl. unfold npos, size_type_max. intros k Hk.
    assert (k = 0 \/ k = 1 \/ k = 2 \/ k = 3) as [-> | [-> | [-> | ->]]] by lia;
      simpl; tauto.
  - simpl in Hsize. unfold npos, size_type_max in Hsize.
    assert (size y = 4) as Hsize4 by lia. clear Hsize. rename Hsize4 into Hsize.
    exists y. split; [done |]. split; [done |]. split; [done |].
    rewrite Hsize in Hbits.
    rewrite (Hbits 0), (Hbits 1), (Hbits 2), (Hbits 3) by lia. done.
Qed.

Lemma example_011_lt_0011 :
  exists x y, of_chars ["0"; "1"; "1"]%char = Some x
              /\ of_chars ["0"; "0"; "1"; "1"]%char = Some y
              /\ magnitude x = magnitude y
              /\ op_lt x y = true /\ op_eq x y = false.
Proof.
  destruct of_chars_011 as (x & Hx & Hxinv & Hxsize & Hx0 & Hx1 & Hx2).
  destruct of_chars_0011 as (y & Hy & Hyinv & Hysize & Hy0 & Hy1 & Hy2 & Hy3).
  assert (magnitude x = magnitude y) as Hmag.
  { apply magnitude_ext; [by apply invariant_blocks .. |]. intros p Hp.
    assert (p = 0 \/ p = 1 \/ p = 2 \/ p = 3 \/ 4 <= p) as [-> | [-> | [-> | [-> | Hhigh]]]]
      by lia; try congruence.
    - rewrite Hy3. apply (bit_high _ _ Hxinv). unfold size in *. lia.
    - rewrite (bit_high _ _ Hxinv), (bit_high _ _ Hyinv) by (unfold size in *; lia). done. }
  exists x, y. split; [done |]. split; [done |]. split; [done |]. split.
  - apply op_lt_tie; try done. lia.
  - destruct (op_eq x y) eqn:E; [| done]. apply op_eq_eq in E. subst y. lia.
Qed.

End StringExample.

Section ClaimC2.

Context {Block : UnsignedBlock}.

(** C2. For every pair of bitsets, of any sizes, exactly one of [a < b],
    [b < a], [a == b] holds; when their magnitudes are equal the shorter
    compares less than the longer; and [dynamic_bitset("011") <
    dynamic_bitset("0011")] is true while [dynamic_bitset("011") ==
    dynamic_bitset("0011")] is false. *)
Theorem ordering_is_total (a b : dynamic_bitset) :
  invariant a -> invariant b ->
  ((op_lt a b = true /\ op_lt b a = false /\ op_eq a b = false)
   \/ (op_lt a b = false /\ op_lt b a = true /\ op_eq a b = false)
   \/ (op_lt a b = false /\ op_lt b a = false /\ op_eq a b = true))
  /\ (magnitude a = magnitude b -> size a < size b ->
      op_lt a b = true /\ op_lt b a = false /\ op_eq a b = false)
  /\ exists x y, of_chars ["0"; "1"; "1"]%char = Some x
                 /\ of_chars ["0"; "0"; "1"; "1"]%char = Some y
                 /\ magnitude x = magnitude y
                 /\ op_lt x y = true /\ op_eq x y = false.
Proof.
  intros Ha Hb. split; [by apply op_lt_trichotomy |]. split; [| apply example_011_lt_0011].
  intros Hmag Hsize. pose proof (op_lt_tie a b Ha Hb Hmag Hsize) as Hlt.
  destruct (op_lt_trichotomy a b Ha Hb) as [H | [H | H]]; [done | |];
    destruct H as (Hlt' & _); congruence.
Qed.

End ClaimC2.

Section ClaimC2Witness.

#[local] Existing Instance uint8.

Lemma ordering_is_total_witness :
  invariant sample /\ invariant (mk_bitset [157; 5; 0] 17)
  /\ (((op_lt sample (mk_bitset [157; 5; 0] 17) = true
        /\ op_lt (mk_bitset [157; 5; 0] 17) sample = false
        /\ op_eq sample (mk_bitset [157; 5; 0] 17) = false)
       \/ (op_lt sample (mk_bitset [157; 5; 0] 17) = false
           /\ op_lt (mk_bitset [157; 5; 0] 17) sample = true
           /\ op_eq sample (mk_bitset [157; 5; 0] 17) = false)
       \/ (op_lt sample (mk_bitset [157; 5; 0] 17) = false
           /\ op_lt (mk_bitset [157; 5; 0] 17) sample = false
           /\ op_eq sample (mk_bitset [157; 5; 0] 17) = true))
      /\ (magnitude sample = magnitude (mk_bitset [157; 5; 0] 17) ->
          size sample < size (mk_bitset [157; 5; 0] 17) ->
          op_lt sample (mk_bitset [157; 5; 0] 17) = true
          /\ op_lt (mk_bitset [157; 5; 0] 17) sample = false
          /\ op_eq sample (mk_bitset [157; 5; 0] 17) = false)
      /\ exists x y, of_chars ["0"; "1"; "1"]%char = Some x
                     /\ of_chars ["0"; "0"; "1"; "1"]%char = Some y
                     /\ magnitude x = magnitude y
                     /\ op_lt x y = true /\ op_eq x y = false).
Proof.
  assert (invariant (mk_bitset [157; 5; 0] 17)) as Hb.
  { apply check_consistency_spec; [| reflexivity].
    split; [| simpl; lia]. repeat constructor; vm_compute; congruence. }
  split; [exact sample_invariant |]. split; [exact Hb |].
  exact (ordering_is_total sample (mk_bitset [157; 5; 0] 17) sample_invariant Hb).
Defined.

End ClaimC2Witness.

Section Counting.

Context {Block : UnsignedBlock}.

Lemma count_true_ext (f g : Z -> bool) (n : nat) (lo : Z) :
  (forall i, lo <= i < lo + Z.of_nat n -> f i = g i) ->
  count_true f n lo = count_true g n lo.
Proof.
  revert lo. induction n as [| n IH]; intros lo Hfg; simpl; [done |].
  rewrite Hfg by lia. f_equal. apply IH. intros i Hi. apply Hfg. lia.
Qed.

Lemma count_true_app (f : Z -> bool) (a b : nat) (lo : Z) :
  count_true f (a + b) lo = count_true f a lo + count_true f b (lo + Z.of_nat a).
Proof.
  revert lo. induction a as [| a IH]; intros lo; cbn [count_true Nat.add].
  - change (Z.of_nat 0) with 0. rewrite Z.add_0_r. lia.
  - rewrite IH. replace (lo + 1 + Z.of_nat a) with (lo + Z.of_nat (S a)) by lia. lia.
Qed.

Lemma count_true_shift (f : Z -> bool) (d : Z) (n : nat) (lo : Z) :
  count_true (fun i => f (i + d)) n lo = count_true f n (lo + d).
Proof.
  revert lo. induction n as [| n IH]; intros lo; simpl; [done |].
  rewrite IH. do 2 f_equal. lia.
Qed.

Lemma count_true_false (f : Z -> bool) (n : nat) (lo : Z) :
  (forall i, lo <= i < lo + Z.of_nat n -> f i = false) -> count_true f n lo = 0.
Proof.
  revert lo. induction n as [| n IH]; intros lo Hf; simpl; [done |].
  rewrite Hf by lia. rewrite IH; [done |]. intros i Hi. apply Hf. lia.
Qed.

Lemma count_true_nonneg (f : Z -> bool) (n : nat) (lo : Z) : 0 <= count_true f n lo.
Proof.
  revert lo. induction n as [| n IH]; intros lo; simpl; [done |].
  specialize (IH (lo + 1)). destruct (f lo); simpl; lia.
Qed.

(** [popcount] counts the one bits. *)
Lemma popcount_step (x : Z) :
  0 <= x -> popcount x = Z.b2z (Z.testbit x 0) + popcount (x / 2).
Proof.
  intros Hx. destruct x as [| p | p]; [done | | lia].
  destruct p as [q | q |]; simpl.
  - rewrite Pos2Z.inj_xI. replace ((2 * Z.pos q + 1) / 2) with (Z.pos q); [done |].
    apply (Z.div_unique _ _ _ 1); lia.
  - rewrite Pos2Z.inj_xO. replace (2 * Z.pos q / 2) with (Z.pos q); [done |].
    apply (Z.div_unique _ _ _ 0); lia.
  - done.
Qed.

Lemma popcount_bits (k : nat) (x : Z) :
  0 <= x < 2 ^ Z.of_nat k -> popcount x = count_true (Z.testbit x) k 0.
Proof.
  revert x. induction k as [| k IH]; intros x Hx.
  - simpl in *. assert (x = 0) as -> by lia. done.
  - rewrite popcount_step by lia. cbn [count_true]. f_equal.
    rewrite IH.
    + rewrite <- (count_true_shift (Z.testbit x) 1).
      apply count_true_ext. intros i Hi.
      rewrite <- Z.div2_div, Z.div2_spec, Z.shiftr_spec by lia. done.
    + rewrite Nat2Z.inj_succ, Z.pow_succ_r in Hx by lia.
      split; [apply Z.div_pos; lia | apply Z.div_lt_upper_bound; lia].
Qed.

Lemma block_popcount (x : Z) :
  is_block x -> popcount x = count_true (Z.testbit x) (Z.to_nat bits_per_block) 0.
Proof.
  intros Hx. apply popcount_bits. pose proof W_pos. by rewrite Z2Nat.id by lia.
Qed.

(** The portable counting loop. *)
Lemma nonzero_land_pow2 (x i : Z) :
  is_block x -> 0 <= i ->
  nonzero (Z.land x (block_type (2 ^ i))) = Z.testbit x i.
Proof.
  intros Hx Hi. destruct (Z.testbit x i) eqn:E.
  - assert (i < bits_per_block).
    { destruct (Z.lt_ge_cases i bits_per_block); [done |]. by rewrite is_block_high in E. }
    apply block_nonzero_bits; [by apply is_block_land_l |].
    exists i. split; [lia |].
    rewrite Z.land_spec, E, testbit_block_type, Z.pow2_bits_eqb, Z.eqb_refl by lia.
    destruct (Z.ltb_spec i bits_per_block); [done | lia].
  - apply block_zero_bits; [by apply is_block_land_l |].
    intros j Hj. rewrite Z.land_spec, testbit_block_type, Z.pow2_bits_eqb by lia.
    destruct (Z.eqb_spec i j) as [<- |]; [by rewrite E |]. by rewrite !andb_false_r.
Qed.

Lemma shl_pow2 (i : Z) : 0 <= i -> shl (block_type (2 ^ i)) 1 = block_type (2 ^ (i + 1)).
Proof.
  intros Hi. unfold shl, block_type. rewrite Z.shiftl_mul_pow2, Z.pow_add_r by lia.
  rewrite Z.mul_mod_idemp_l; [done |]. pose proof pow2_W_pos. lia.
Qed.

Lemma block_count_loop (x : Z) (n : nat) (i c : Z) :
  is_block x -> 0 <= i ->
  fst (for_up n i (block_count_body x) (c, block_type (2 ^ i)))
  = c + count_true (Z.testbit x) n i.
Proof.
  intros Hx. revert i c. induction n as [| n IH]; intros i c Hi; simpl; [lia |].
  unfold block_count_body at 2. simpl.
  rewrite shl_pow2, IH, nonzero_land_pow2 by (done || lia). lia.
Qed.

Lemma block_type_1 : block_type (2 ^ 0) = 1.
Proof. apply block_type_small, is_block_1. Qed.

Lemma block_count_spec {Tools : Toolchain} (x : Z) :
  is_block x ->
  block_count x = count_true (Z.testbit x) (Z.to_nat bits_per_block) 0.
Proof.
  intros Hx. unfold block_count.
  destruct (Z.eqb_spec x zero_block) as [-> | Hne].
  { symmetry. apply count_true_false. intros i _. apply Z.bits_0. }
  destruct builtin_popcount; [by apply block_popcount |].
  rewrite <- block_type_1, block_count_loop by done. unfold trips_lt.
  by rewrite Z.sub_0_r.
Qed.

Lemma block_count_n_spec {Tools : Toolchain} (x nbits : Z) :
  is_block x -> 0 < nbits <= bits_per_block ->
  block_count_n x nbits = Some (count_true (Z.testbit x) (Z.to_nat nbits) 0).
Proof.
  intros Hx Hn. unfold block_count_n.
  rewrite assert_true by (apply Z.leb_le; lia). simpl.
  destruct (Z.eqb_spec x zero_block) as [-> | Hne].
  { f_equal. symmetry. apply count_true_false. intros i _. apply Z.bits_0. }
  destruct builtin_popcount.
  - f_equal. rewrite block_type_small by apply is_block_shl.
    rewrite block_popcount by apply is_block_shl.
    replace (Z.to_nat bits_per_block)
      with (Z.to_nat (bits_per_block - nbits) + Z.to_nat nbits)%nat by lia.
    rewrite count_true_app, count_true_false.
    + rewrite Z2Nat.id, Z.add_0_l by lia.
      rewrite <- count_true_shift.
      apply count_true_ext. intros i Hi. rewrite testbit_shl by lia.
      destruct (Z.ltb_spec (i + (bits_per_block - nbits)) bits_per_block); [| lia].
      simpl. f_equal. lia.
    + intros i Hi. rewrite testbit_shl by lia.
      rewrite (Z.testbit_neg_r x) by lia. apply andb_false_r.
  - f_equal. rewrite <- block_type_1, block_count_loop by done. unfold trips_lt.
    by rewrite Z.sub_0_r.
Qed.

End Counting.

Section CountSpec.

Context {Block : UnsignedBlock}.

Lemma count_true_block (m : list Z) (i : Z) (n : nat) :
  0 <= i -> Z.of_nat n <= bits_per_block ->
  count_true (Z.testbit (Vec.get m i)) n 0
  = count_true (bit_at m) n (i * bits_per_block).
Proof.
  intros Hi Hn.
  replace (i * bits_per_block) with (0 + i * bits_per_block) by lia.
  rewrite <- count_true_shift. apply count_true_ext. intros j Hj.
  rewrite (Z.add_comm j). by rewrite bit_at_split by lia.
Qed.

Lemma count_blocks_loop {Tools : Toolchain} (m : list Z) (k : nat) (i c : Z) :
  Forall is_block m -> 0 <= i ->
  for_up k i (fun i count => count + block_count (Vec.get m i)) c
  = c + count_true (bit_at m) (k * Z.to_nat bits_per_block) (i * bits_per_block).
Proof.
  intros Hm. pose proof W_pos as HW.
  revert i c. induction k as [| k IH]; intros i c Hi; simpl; [lia |].
  rewrite IH, count_true_app by lia.
  rewrite block_count_spec by by apply Vec_get_block.
  rewrite count_true_block by lia.
  rewrite Z2Nat.id by lia.
  replace ((i + 1) * bits_per_block) with (i * bits_per_block + bits_per_block) by lia.
  lia.
Qed.

Lemma popcnt_spec (m : list Z) :
  Forall is_block m ->
  popcnt m = count_true (bit_at m) (length m * Z.to_nat bits_per_block) 0.
Proof.
  pose proof W_pos as HW.
  induction 1 as [| b m Hb Hm IH]; [done |].
  cbn [popcnt fold_right length Nat.mul]. fold (popcnt m).
  rewrite count_true_app, IH, block_popcount by done. f_equal.
  - apply count_true_ext. intros j Hj. rewrite bit_at_cons by lia.
    destruct (Z.ltb_spec j bits_per_block); [done | lia].
  - rewrite Z2Nat.id by lia.
    rewrite <- (count_true_shift (bit_at (b :: m)) bits_per_block).
    apply count_true_ext. intros j Hj. rewrite bit_at_cons by lia.
    destruct (Z.ltb_spec (j + bits_per_block) bits_per_block); [lia |].
    f_equal. lia.
Qed.

Lemma brute_force_loop (v : dynamic_bitset) (n : nat) (lo c : Z) :
  invariant v -> 0 <= lo -> lo + Z.of_nat n <= size v ->
  for_up n lo (fun p n => match test v p with Some true => n + 1 | _ => n end) c
  = c + count_true (bit v) n lo.
Proof.
  intros Hv. revert lo c. induction n as [| n IH]; intros lo c Hlo Hn; simpl; [lia |].
  rewrite IH, test_spec by (done || lia). destruct (bit v lo); simpl; lia.
Qed.

Lemma brute_force_count_spec (v : dynamic_bitset) :
  invariant v -> brute_force_count v = count_true (bit v) (Z.to_nat (size v)) 0.
Proof.
  intros Hv. unfold brute_force_count.
  pose proof (invariant_size_nonneg v Hv). unfold size in *.
  rewrite (brute_force_loop v) by (done || unfold size, trips_lt; lia).
  unfold trips_lt. by rewrite Z.sub_0_r.
Qed.

Lemma count_spec {Tools : Toolchain} (v : dynamic_bitset) :
  invariant v -> count v = Some (count_true (bit v) (Z.to_nat (size v)) 0).
Proof.
  intros Hv. pose proof W_pos as HW.
  pose proof (invariant_size_nonneg v Hv) as Hs.
  pose proof (invariant_capacity v Hv) as Hcap.
  pose proof (invariant_blocks v Hv) as Hm.
  pose proof (Vec_size_nonneg (m_blocks v)) as Hlen.
  unfold count, empty, size.
  destruct (Z.eqb_spec (m_bits_number v) 0) as [-> | Hne]; [done |].
  destruct use_libpopcnt.
  { f_equal. rewrite popcnt_spec by done.
    replace (length (m_blocks v) * Z.to_nat bits_per_block)%nat
      with (Z.to_nat (m_bits_number v)
            + Z.to_nat (Vec.size (m_blocks v) * bits_per_block - m_bits_number v))%nat.
    - rewrite count_true_app.
      rewrite (count_true_false _
                 (Z.to_nat (Vec.size (m_blocks v) * bits_per_block - m_bits_number v)));
        [by rewrite Z.add_0_r |].
      intros i Hi. apply (invariant_high v); [done | lia].
    - unfold Vec.size in *. rewrite <- Z2Nat.inj_add by lia.
      rewrite <- (Nat2Z.id (length (m_blocks v))) at 2.
      rewrite <- Z2Nat.inj_mul by lia. f_equal. lia. }
  cbv zeta. unfold trips_lt. rewrite Z.sub_0_r.
  rewrite count_blocks_loop by (done || lia). rewrite Z.add_0_l.
  set (k := Vec.size (m_blocks v) - 1) in *.
  assert (0 <= k) as Hk by (unfold k; nia).
  set (r := m_bits_number v - k * bits_per_block).
  assert (0 < r <= bits_per_block) as Hr by (unfold r, k; nia).
  assert (Z.to_nat (m_bits_number v)
          = (Z.to_nat k * Z.to_nat bits_per_block + Z.to_nat r)%nat) as ->.
  { rewrite <- Z2Nat.inj_mul, <- Z2Nat.inj_add by lia. f_equal. unfold r. lia. }
  rewrite count_true_app, Z.add_0_l.
  rewrite Nat2Z.inj_mul, !Z2Nat.id by lia.
  assert (extra_bits_number v = if r =? bits_per_block then 0 else r) as Hextra.
  { unfold extra_bits_number, bit_index.
    destruct (Z.eqb_spec r bits_per_block) as [E | E].
    - symmetry. apply (Z.mod_unique _ _ (k + 1)); unfold r in *; lia.
    - symmetry. apply (Z.mod_unique _ _ k); unfold r in *; lia. }
  unfold last_block. fold k.
  assert (is_block (Vec.get (m_blocks v) k)) as Hb by by apply Vec_get_block.
  change (count_true (bit v) (Z.to_nat r) (k * bits_per_block))
    with (count_true (bit_at (m_blocks v)) (Z.to_nat r) (k * bits_per_block)).
  change (count_true (bit v) (Z.to_nat k * Z.to_nat bits_per_block) 0)
    with (count_true (bit_at (m_blocks v)) (Z.to_nat k * Z.to_nat bits_per_block)
            (0 * bits_per_block)).
  rewrite <- (count_true_block (m_blocks v) k (Z.to_nat r)) by lia.
  destruct (nonzero (Vec.get (m_blocks v) k)) eqn:Hnz.
  - rewrite Hextra. destruct (Z.eqb_spec r bits_per_block) as [E | E]; simpl.
    + rewrite block_count_spec by done. by rewrite E.
    + destruct (Z.eqb_spec r 0); [lia |].
      rewrite block_count_n_spec by (done || lia). done.
  - apply nonzero_false in Hnz. rewrite Hnz.
    rewrite (count_true_false (Z.testbit 0)); [by rewrite Z.add_0_r |].
    intros i _. apply Z.bits_0.
Qed.

End CountSpec.

Section ClaimC5.

Context {Block : UnsignedBlock}.

(** Claim C5.  For every bitset [v] that satisfies the class invariant, and
    for every choice of the counting primitives (libpopcnt, a compiler
    popcount builtin, or the portable per-bit loop), [count] returns the
    number of positions [p < size v] at which [test v p] is true: the result
    of counting by testing every position.  It is 0 for an empty bitset, and
    when the size is not block-aligned it is the count of the complete
    blocks plus that of the low [size mod bits_per_block] bits of the last
    block. *)
Theorem count_is_number_of_set_bits (v : dynamic_bitset) :
  invariant v ->
  forall tools : Toolchain,
    @count Block tools v = Some (brute_force_count v)
    /\ brute_force_count v = count_true (fun p => bool_decide (test v p = Some true))
                               (Z.to_nat (size v)) 0
    /\ (size v = 0 -> @count Block tools v = Some 0)
    /\ (size v mod bits_per_block <> 0 ->
        brute_force_count v
        = count_true (bit v)
            (Z.to_nat (size v / bits_per_block) * Z.to_nat bits_per_block) 0
          + count_true (Z.testbit (last_block v))
              (Z.to_nat (size v mod bits_per_block)) 0).
Proof.
  intros Hv tools. pose proof W_pos as HW.
  pose proof (invariant_size_nonneg v Hv) as Hs.
  rewrite count_spec, brute_force_count_spec by done.
  split; [done |]. split; [| split].
  - apply count_true_ext. intros p Hp. unfold size in *.
    rewrite test_spec by (done || unfold size; lia).
    destruct (bit v p); done.
  - intros ->. done.
  - intros Hne. unfold size in *.
    pose proof (div_mod_W (m_bits_number v)) as [Hd Hb].
    pose proof (Z.div_pos (m_bits_number v) bits_per_block Hs HW) as Hq.
    rewrite Hd at 1.
    rewrite Z2Nat.inj_add, Z2Nat.inj_mul, Nat.mul_comm, count_true_app by lia.
    f_equal. unfold last_block.
    rewrite (invariant_num_blocks v Hv), blocks_required_unaligned by done.
    rewrite count_true_block by lia.
    rewrite Z.add_0_l, Nat2Z.inj_mul, !Z2Nat.id by lia.
    replace (m_bits_number v / bits_per_block + 1 - 1)
      with (m_bits_number v / bits_per_block) by lia.
    done.
Qed.

End ClaimC5.

Section ClaimC5Witness.

#[local] Existing Instance uint8.

Lemma count_is_number_of_set_bits_witness :
  invariant sample
  /\ (forall tools : Toolchain,
        @count uint8 tools sample = Some (brute_force_count sample)
        /\ brute_force_count sample
           = count_true (fun p => bool_decide (test sample p = Some true))
               (Z.to_nat (size sample)) 0
        /\ (size sample = 0 -> @count uint8 tools sample = Some 0)
        /\ (size sample mod bits_per_block <> 0 ->
            brute_force_count sample
            = count_true (bit sample)
                (Z.to_nat (size sample / bits_per_block) * Z.to_nat bits_per_block) 0
              + count_true (Z.testbit (last_block sample))
                  (Z.to_nat (size sample mod bits_per_block)) 0)).
Proof.
  split; [exact sample_invariant |].
  exact (count_is_number_of_set_bits sample sample_invariant).
Defined.

End ClaimC5Witness.

Section Predicates.

Context {Block : UnsignedBlock}.

Lemma nonzero_land_bits (x y : Z) :
  is_block x ->
  nonzero (Z.land x y) = true
  <-> exists j, 0 <= j < bits_per_block /\ Z.testbit x j = true /\ Z.testbit y j = true.
Proof.
  intros Hx. rewrite block_nonzero_bits by by apply is_block_land_l.
  split; intros (j & Hj & H); exists j; (split; [done |]).
  - by rewrite Z.land_spec, andb_true_iff in H.
  - rewrite Z.land_spec. by destruct H as [-> ->].
Qed.

(** A set bit lies in some block of the vector. *)
Lemma bit_at_true (m : list Z) (p : Z) :
  bit_at m p = true ->
  0 <= p /\ 0 <= p / bits_per_block < Vec.size m
  /\ 0 <= p mod bits_per_block < bits_per_block
  /\ Z.testbit (Vec.get m (p / bits_per_block)) (p mod bits_per_block) = true.
Proof.
  intros Hp. pose proof (div_mod_W p) as [_ Hb].
  assert (0 <= p) as H0.
  { destruct (Z.lt_ge_cases p 0); [| done]. by rewrite bit_at_neg in Hp. }
  assert (p < Vec.size m * bits_per_block) as H1.
  { destruct (Z.lt_ge_cases p (Vec.size m * bits_per_block)); [done |].
    by rewrite bit_at_out in Hp. }
  split; [done |]. split; [| split; [done |]].
  - split; [by apply div_W_nonneg | by apply div_W_lt].
  - rewrite bit_at_testbit in Hp by done. done.
Qed.

Lemma any_bits (v : dynamic_bitset) :
  Forall is_block (m_blocks v) ->
  any v = true <-> exists p, bit v p = true.
Proof.
  intros Hm. unfold any, bit. rewrite existsb_exists. split.
  - intros (x & Hin & Hx). apply (In_nth _ _ 0) in Hin as (n & Hn & <-).
    apply block_nonzero_bits in Hx as (j & Hj & Hbit).
    + exists (Z.of_nat n * bits_per_block + j).
      rewrite bit_at_split by lia. unfold Vec.get. by rewrite Nat2Z.id.
    + pose proof (Vec_get_block (m_blocks v) (Z.of_nat n) Hm) as Hb.
      unfold Vec.get in Hb. by rewrite Nat2Z.id in Hb.
  - intros (p & Hp). apply bit_at_true in Hp as (H0 & Hq & Hr & Hbit).
    exists (Vec.get (m_blocks v) (p / bits_per_block)). split.
    + unfold Vec.get. apply nth_In. unfold Vec.size in Hq. lia.
    + apply block_nonzero_bits; [by apply Vec_get_block |].
      by exists (p mod bits_per_block).
Qed.

(** No block of [a] has a bit outside the matching block of [b]. *)
Lemma subset_blocks (a b : list Z) :
  Forall is_block a ->
  (forall k, 0 <= k < Vec.size a ->
             nonzero (Z.land (Vec.get a k) (bnot (Vec.get b k))) = false)
  <-> (forall p, bit_at a p = true -> bit_at b p = true).
Proof.
  intros Ha. split.
  - intros Hk p Hp. apply bit_at_true in Hp as (H0 & Hq & Hr & Hbit).
    specialize (Hk _ Hq).
    destruct (bit_at b p) eqn:E; [done |].
    rewrite bit_at_testbit in E by done. unfold block_index, bit_index in E.
    assert (nonzero (Z.land (Vec.get a (p / bits_per_block))
                       (bnot (Vec.get b (p / bits_per_block)))) = true) as Hc.
    { apply nonzero_land_bits; [by apply Vec_get_block |].
      exists (p mod bits_per_block). split; [done |]. split; [done |].
      rewrite testbit_bnot, E by lia.
      destruct (Z.ltb_spec (p mod bits_per_block) bits_per_block); [done | lia]. }
    congruence.
  - intros Hsub k Hk.
    destruct (nonzero (Z.land (Vec.get a k) (bnot (Vec.get b k)))) eqn:E; [| done].
    apply nonzero_land_bits in E as (j & Hj & Hx & Hy); [| by apply Vec_get_block].
    rewrite testbit_bnot in Hy by lia.
    specialize (Hsub (k * bits_per_block + j)).
    rewrite !bit_at_split in Hsub by lia. rewrite Hsub in Hy by done.
    by rewrite andb_false_r in Hy.
Qed.

Lemma is_subset_of_spec (a b : dynamic_bitset) :
  invariant a -> size a = size b ->
  exists r, is_subset_of a b = Some r
            /\ (r = true <-> forall p, bit a p = true -> bit b p = true).
Proof.
  intros Ha Hsize. pose proof (invariant_blocks a Ha) as Hm.
  unfold is_subset_of. rewrite assert_true by (by apply Z.eqb_eq). simpl.
  destruct (scan_up _ _ _) as [r |] eqn:E.
  - apply scan_up_Some in E as (i & Hi & Hbody & _).
    destruct (nonzero _) eqn:Hnz in Hbody; [| done]. injection Hbody as <-.
    exists false. split; [done |]. split; [done |]. intros H.
    pose proof (proj2 (subset_blocks _ (m_blocks b) Hm) H) as H'.
    assert (0 <= i < Vec.size (m_blocks a)) as Hi' by (unfold trips_lt in Hi; lia).
    specialize (H' i Hi'). congruence.
  - exists true. split; [done |]. split; [| done]. intros _.
    apply (proj1 (subset_blocks _ (m_blocks b) Hm)). intros k Hk.
    assert (0 <= k < 0 + Z.of_nat (trips_lt 0 (Vec.size (m_blocks a)))) as Hk'
      by (unfold trips_lt; lia).
    pose proof (proj1 (scan_up_None _ _ _) E k Hk') as Hbody. cbv beta in Hbody.
    by destruct (nonzero (Z.land (Vec.get (m_blocks a) k) (bnot (Vec.get (m_blocks b) k)))).
Qed.

Lemma none_and_not_spec (a b : dynamic_bitset) :
  invariant a -> invariant b -> size a = size b ->
  exists d, op_and a (op_not b) = Some d
            /\ (none d = true <-> forall p, bit a p = true -> bit b p = true).
Proof.
  intros Ha Hb Hsize.
  destruct (flip_all_spec b Hb) as (Hinv & Hs & Hbits).
  destruct (op_and_assign_spec a (flip_all b)) as (d & Hd & Hdinv & _ & Hdbits);
    [done | done | congruence |].
  exists d. split; [done |].
  unfold none. rewrite negb_true_iff. split.
  - intros Hnone p Hp. destruct (bit b p) eqn:E; [done |].
    assert (any d = true) as Hany; [| congruence].
    apply any_bits; [by apply invariant_blocks |]. exists p.
    rewrite Hdbits, Hbits, Hp, E. pose proof (bit_at_true _ _ Hp) as (H0 & _).
    assert (p < size b).
    { destruct (Z.lt_ge_cases p (size b)) as [| Hge]; [done |].
      rewrite <- Hsize in Hge. assert (bit a p = true) as Hap by done.
      rewrite bit_high in Hap by done. done. }
    destruct (Z.leb_spec 0 p), (Z.ltb_spec p (size b)); (done || lia).
  - intros Hsub. destruct (any d) eqn:Hany; [| done].
    apply any_bits in Hany as (p & Hp); [| by apply invariant_blocks].
    rewrite Hdbits, Hbits, !andb_true_iff, negb_true_iff in Hp.
    destruct Hp as (Hap & _ & Hbp). rewrite Hsub in Hbp; done.
Qed.

Lemma is_proper_subset_of_loop_spec (n : nat) (i : Z) (s o : list Z) (p : bool) :
  is_proper_subset_of_loop n i s o p = true
  <-> (forall k, i <= k < i + Z.of_nat n ->
                 nonzero (Z.land (Vec.get s k) (bnot (Vec.get o k))) = false)
      /\ (p = true
          \/ exists k, i <= k < i + Z.of_nat n
                       /\ nonzero (Z.land (bnot (Vec.get s k)) (Vec.get o k)) = true).
Proof.
  revert i p. induction n as [| n IH]; intros i p.
  - simpl. split.
    + intros ->. split; [intros; lia | by left].
    + intros (_ & [-> | (k & Hk & _)]); [done | lia].
  - cbn [is_proper_subset_of_loop]. cbv zeta.
    destruct (nonzero (Z.land (Vec.get s i) (bnot (Vec.get o i)))) eqn:E1.
    + split; [done |]. intros (H & _). rewrite H in E1 by lia. done.
    + rewrite IH. split.
      * intros (Hall & Hex). split.
        -- intros k Hk. destruct (Z.eq_dec k i) as [-> |]; [done |]. apply Hall. lia.
        -- destruct (nonzero (Z.land (bnot (Vec.get s i)) (Vec.get o i))) eqn:E2.
           ++ right. exists i. split; [lia | done].
           ++ destruct Hex as [-> | (k & Hk & Hnz)]; [by left |].
              right. exists k. split; [lia | done].
      * intros (Hall & Hex). split.
        -- intros k Hk. apply Hall. lia.
        -- destruct (nonzero (Z.land (bnot (Vec.get s i)) (Vec.get o i))) eqn:E2;
             [by left |].
           destruct Hex as [-> | (k & Hk & Hnz)]; [by left |].
           right. exists k. split; [| done].
           destruct (Z.eq_dec k i) as [-> |]; [congruence | lia].
Qed.

Lemma is_proper_subset_of_spec (a b : dynamic_bitset) :
  invariant a -> invariant b -> size a = size b ->
  exists r, is_proper_subset_of a b = Some r
            /\ (r = true <-> a <> b /\ forall p, bit a p = true -> bit b p = true).
Proof.
  intros Ha Hb Hsize.
  pose proof (invariant_blocks a Ha) as Hma. pose proof (invariant_blocks b Hb) as Hmb.
  assert (Vec.size (m_blocks a) = Vec.size (m_blocks b)) as Hlen.
  { rewrite (invariant_num_blocks a Ha), (invariant_num_blocks b Hb).
    unfold size in Hsize. by rewrite Hsize. }
  unfold is_proper_subset_of. rewrite assert_true by (by apply Z.eqb_eq). simpl.
  eexists. split; [done |].
  unfold bit. rewrite <- subset_blocks by done.
  assert (Z.of_nat (trips_lt 0 (Vec.size (m_blocks a))) = Vec.size (m_blocks a)) as Htrips.
  { pose proof (Vec_size_nonneg (m_blocks a)). unfold trips_lt. lia. }
  split.
  - intros (Hall & Hex)%is_proper_subset_of_loop_spec. rewrite Htrips in *. split.
    + destruct Hex as [? | (k & Hk & Hnz)]; [done |]. intros <-.
      apply nonzero_land_bits in Hnz as (j & Hj & Hx & Hy); [| apply is_block_bnot].
      rewrite testbit_bnot, Hy, andb_false_r in Hx by lia. done.
    + intros k Hk. apply Hall. lia.
  - intros (Hne & Hall).
    destruct (is_proper_subset_of_loop _ _ _ _ _) eqn:E; [done |]. exfalso.
    apply Hne. destruct a as [ma na], b as [mb nb]. simpl in *.
    unfold size in Hsize. simpl in Hsize. subst nb. f_equal.
    apply Vec_ext; [done |]. intros k Hk.
    apply block_ext; [by apply Vec_get_block .. |]. intros j Hj.
    destruct (Z.testbit (Vec.get ma k) j) eqn:Ex, (Z.testbit (Vec.get mb k) j) eqn:Ey;
      [done | | | done]; exfalso.
    + specialize (Hall k Hk). apply nonzero_false in Hall.
      assert (Z.testbit (Z.land (Vec.get ma k) (bnot (Vec.get mb k))) j = true) as Hc.
      { rewrite Z.land_spec, testbit_bnot, Ex, Ey by lia.
        destruct (Z.ltb_spec j bits_per_block); [done | lia]. }
      rewrite Hall, Z.bits_0 in Hc. done.
    + assert (is_proper_subset_of_loop (trips_lt 0 (Vec.size ma)) 0 ma mb false = true)
        as Hc; [| congruence].
      apply is_proper_subset_of_loop_spec. split.
      * intros i Hi. apply Hall. lia.
      * right. exists k. split; [lia |].
        apply nonzero_land_bits; [apply is_block_bnot |].
        exists j. split; [done |]. split; [| done].
        rewrite testbit_bnot, Ex by lia.
        destruct (Z.ltb_spec j bits_per_block); [done | lia].
Qed.

Lemma intersects_blocks (a b : dynamic_bitset) :
  intersects a b = true
  <-> exists i, 0 <= i < Z.min (num_blocks a) (num_blocks b)
                /\ nonzero (Z.land (Vec.get (m_blocks a) i) (Vec.get (m_blocks b) i)) = true.
Proof.
  unfold intersects, num_blocks. cbv zeta.
  set (n := Z.min _ _).
  destruct (scan_up _ _ _) as [r |] eqn:E.
  - apply scan_up_Some in E as (i & Hi & Hbody & _).
    destruct (nonzero _) eqn:Hnz in Hbody; [| done]. injection Hbody as <-.
    split; [| done]. intros _. exists i. split; [unfold trips_lt in Hi; lia | done].
  - split; [done |]. intros (i & Hi & Hnz).
    assert (0 <= i < 0 + Z.of_nat (trips_lt 0 n)) as Hi' by (unfold trips_lt; lia).
    pose proof (proj1 (scan_up_None _ _ _) E i Hi') as Hbody. cbv beta in Hbody.
    rewrite Hnz in Hbody. discriminate Hbody.
Qed.

Lemma intersects_bits (a b : dynamic_bitset) :
  invariant a -> invariant b ->
  intersects a b = true
  <-> exists p, 0 <= p < Z.min (size a) (size b)
                /\ bit a p = true /\ bit b p = true.
Proof.
  intros Ha Hb. rewrite intersects_blocks. unfold num_blocks.
  pose proof (invariant_blocks a Ha) as Hma.
  split.
  - intros (i & Hi & Hnz).
    apply nonzero_land_bits in Hnz as (j & Hj & Hx & Hy); [| by apply Vec_get_block].
    exists (i * bits_per_block + j). unfold bit. rewrite !bit_at_split by lia.
    split; [| done]. split; [nia |].
    assert (bit a (i * bits_per_block + j) = true) as Hpa
      by (unfold bit; by rewrite bit_at_split by lia).
    assert (bit b (i * bits_per_block + j) = true) as Hpb
      by (unfold bit; by rewrite bit_at_split by lia).
    unfold size.
    destruct (Z.lt_ge_cases (i * bits_per_block + j) (m_bits_number a)) as [? | Hge];
      [| by rewrite bit_high in Hpa].
    destruct (Z.lt_ge_cases (i * bits_per_block + j) (m_bits_number b)) as [? | Hge];
      [| by rewrite bit_high in Hpb].
    lia.
  - intros (p & Hp & Hpa & Hpb).
    apply bit_at_true in Hpa as (_ & Hqa & Hr & Hxa).
    apply bit_at_true in Hpb as (_ & Hqb & _ & Hxb).
    exists (p / bits_per_block). split; [lia |].
    apply nonzero_land_bits; [by apply Vec_get_block |].
    by exists (p mod bits_per_block).
Qed.

End Predicates.

Section ClaimC7.

Context {Block : UnsignedBlock}.

(** Claim C7.  For bitsets [a] and [b] of equal size that satisfy the class
    invariant, [a & ~b] is defined, [a.is_subset_of(b)] returns
    [(a & ~b).none()], and [a.is_proper_subset_of(b)] returns
    [a != b && a.is_subset_of(b)]; both say that every bit set in [a] is
    set in [b]. *)
Theorem subset_predicates (a b : dynamic_bitset) :
  invariant a -> invariant b -> size a = size b ->
  exists d,
    op_and a (op_not b) = Some d
    /\ is_subset_of a b = Some (none d)
    /\ is_proper_subset_of a b = Some (op_ne a b && none d)
    /\ (none d = true <-> forall p, bit a p = true -> bit b p = true).
Proof.
  intros Ha Hb Hsize.
  destruct (none_and_not_spec a b Ha Hb Hsize) as (d & Hd & Hnone).
  destruct (is_subset_of_spec a b Ha Hsize) as (r & Hr & Hsub).
  destruct (is_proper_subset_of_spec a b Ha Hb Hsize) as (r' & Hr' & Hproper).
  exists d. split; [done |]. split; [| split; [| done]].
  - rewrite Hr. f_equal. apply eq_true_iff_eq. by rewrite Hsub, Hnone.
  - rewrite Hr'. f_equal. apply eq_true_iff_eq.
    rewrite Hproper, andb_true_iff, Hnone.
    unfold op_ne. rewrite negb_true_iff.
    pose proof (op_eq_eq a b) as Heq.
    destruct (op_eq a b).
    + split; intros [H ?]; [| done]. exfalso. apply H. by apply Heq.
    + split; intros [_ ?]; (split; [| done]); [done |].
      intros Hab. apply Heq in Hab. done.
Qed.

End ClaimC7.

Section ClaimC7Witness.

#[local] Existing Instance uint8.

Lemma subset_predicates_witness :
  invariant sample /\ invariant (mk_bitset [223; 5] 11)
  /\ size sample = size (mk_bitset [223; 5] 11)
  /\ exists d,
       op_and sample (op_not (mk_bitset [223; 5] 11)) = Some d
       /\ is_subset_of sample (mk_bitset [223; 5] 11) = Some (none d)
       /\ is_proper_subset_of sample (mk_bitset [223; 5] 11)
          = Some (op_ne sample (mk_bitset [223; 5] 11) && none d)
       /\ (none d = true
           <-> forall p, bit sample p = true -> bit (mk_bitset [223; 5] 11) p = true).
Proof.
  assert (invariant (mk_bitset [223; 5] 11)) as Hb.
  { apply check_consistency_spec; [| reflexivity].
    split; [| simpl; lia]. repeat constructor; vm_compute; congruence. }
  split; [exact sample_invariant |]. split; [exact Hb |]. split; [reflexivity |].
  exact (subset_predicates sample (mk_bitset [223; 5] 11) sample_invariant Hb eq_refl).
Defined.

End ClaimC7Witness.

Section ClaimC8.

Context {Block : UnsignedBlock}.

(** Claim C8.  For bitsets [a] and [b] that satisfy the class invariant, of
    any sizes, [a.intersects(b)] is true exactly when some pair of blocks
    with the same index, below the number of blocks of the shorter vector,
    has a non-zero AND; and exactly when some position
    [p < min(a.size(), b.size())] has the bit set in both. *)
Theorem intersects_iff_common_bit (a b : dynamic_bitset) :
  invariant a -> invariant b ->
  (intersects a b = true
   <-> exists i, 0 <= i < Z.min (num_blocks a) (num_blocks b)
                 /\ nonzero (Z.land (Vec.get (m_blocks a) i) (Vec.get (m_blocks b) i))
                    = true)
  /\ (intersects a b = true
      <-> exists p, 0 <= p < Z.min (size a) (size b)
                    /\ test a p = Some true /\ test b p = Some true).
Proof.
  intros Ha Hb. split; [apply intersects_blocks |].
  rewrite intersects_bits by done.
  split; intros (p & Hp & H); exists p; (split; [done |]).
  - rewrite !test_spec by (done || lia). by destruct H as [-> ->].
  - rewrite !test_spec in H by (done || lia). destruct H as [[= ->] [= ->]]. done.
Qed.

End ClaimC8.

Section ClaimC8Witness.

#[local] Existing Instance uint8.

Lemma intersects_iff_common_bit_witness :
  invariant sample /\ invariant (mk_bitset [2; 4; 1] 17)
  /\ (intersects sample (mk_bitset [2; 4; 1] 17) = true
      <-> exists i, 0 <= i < Z.min (num_blocks sample) (num_blocks (mk_bitset [2; 4; 1] 17))
                    /\ nonzero (Z.land (Vec.get (m_blocks sample) i)
                                  (Vec.get (m_blocks (mk_bitset [2; 4; 1] 17)) i))
                       = true)
  /\ (intersects sample (mk_bitset [2; 4; 1] 17) = true
      <-> exists p, 0 <= p < Z.min (size sample) (size (mk_bitset [2; 4; 1] 17))
                    /\ test sample p = Some true
                    /\ test (mk_bitset [2; 4; 1] 17) p = Some true).
Proof.
  assert (invariant (mk_bitset [2; 4; 1] 17)) as Hb.
  { apply check_consistency_spec; [| reflexivity].
    split; [| simpl; lia]. repeat constructor; vm_compute; congruence. }
  split; [exact sample_invariant |]. split; [exact Hb |].
  exact (intersects_iff_common_bit sample (mk_bitset [2; 4; 1] 17) sample_invariant Hb).
Defined.

End ClaimC8Witness.

Section FirstOn.

Context {Block : UnsignedBlock}.

Lemma Pos_ctz_spec (p : positive) :
  0 <= Pos_ctz p
  /\ Z.testbit (Z.pos p) (Pos_ctz p) = true
  /\ forall j, 0 <= j < Pos_ctz p -> Z.testbit (Z.pos p) j = false.
Proof.
  induction p as [q IH | q IH |]; cbn [Pos_ctz].
  - split; [lia |]. split; [done | intros; lia].
  - destruct IH as (H0 & Hset & Hlow). split; [lia |].
    rewrite Pos2Z.inj_xO. split.
    + replace (1 + Pos_ctz q) with (Z.succ (Pos_ctz q)) by lia.
      by rewrite Z.testbit_even_succ.
    + intros j Hj. destruct (Z.eq_dec j 0) as [-> |]; [apply Z.testbit_even_0 |].
      replace j with (Z.succ (j - 1)) by lia.
      rewrite Z.testbit_even_succ by lia. apply Hlow. lia.
  - split; [lia |]. split; [done | intros; lia].
Qed.

Lemma ctz_spec (x : Z) :
  0 < x ->
  0 <= ctz x /\ Z.testbit x (ctz x) = true
  /\ forall j, 0 <= j < ctz x -> Z.testbit x j = false.
Proof. intros Hx. destruct x as [| p | p]; [lia | apply Pos_ctz_spec | lia]. Qed.

Lemma first_on_loop_spec (n : nat) (i x : Z) :
  is_block x -> 0 <= i ->
  (exists j, i <= j < i + Z.of_nat n /\ Z.testbit x j = true) ->
  i <= first_on_loop n i x (block_type (2 ^ i)) < i + Z.of_nat n
  /\ Z.testbit x (first_on_loop n i x (block_type (2 ^ i))) = true
  /\ forall j, i <= j < first_on_loop n i x (block_type (2 ^ i)) ->
               Z.testbit x j = false.
Proof.
  intros Hx. revert i. induction n as [| n IH]; intros i Hi (j & Hj & Hbit); [lia |].
  cbn [first_on_loop]. rewrite nonzero_land_pow2 by done.
  destruct (Z.testbit x i) eqn:E.
  - split; [lia |]. split; [done | intros; lia].
  - rewrite shl_pow2 by done.
    destruct (IH (i + 1)) as (Hr & Hset & Hlow); [lia | |].
    + exists j. split; [| done]. destruct (Z.eq_dec j i) as [-> |]; [congruence | lia].
    + split; [lia |]. split; [done |]. intros q Hq.
      destruct (Z.eq_dec q i) as [-> |]; [done |]. apply Hlow. lia.
Qed.

Lemma first_on_spec {Tools : Toolchain} (x : Z) :
  is_block x -> nonzero x = true ->
  exists r, first_on x = Some r
            /\ 0 <= r < bits_per_block
            /\ Z.testbit x r = true
            /\ forall j, 0 <= j < r -> Z.testbit x j = false.
Proof.
  intros Hx Hnz. unfold first_on. rewrite Hnz. simpl.
  destruct builtin_ctz.
  - eexists. split; [done |].
    assert (0 < x) as Hpos.
    { apply nonzero_true in Hnz. destruct Hx. lia. }
    destruct (ctz_spec x Hpos) as (H0 & Hset & Hlow).
    split; [| done]. split; [done |].
    destruct (Z.lt_ge_cases (ctz x) bits_per_block); [done |].
    by rewrite is_block_high in Hset.
  - eexists. split; [done |].
    change (block_type 1) with (block_type (2 ^ 0)).
    pose proof (first_on_loop_spec (trips_lt 0 bits_per_block) 0 x Hx) as H.
    pose proof W_pos.
    replace (0 + Z.of_nat (trips_lt 0 bits_per_block)) with bits_per_block in H
      by (unfold trips_lt; lia).
    apply H; [lia |]. by apply block_nonzero_bits.
Qed.

(** The block loop shared by [find_first] and [find_next]. *)
Lemma find_in_blocks_spec {Tools : Toolchain} (m : list Z) (n : nat) (lo : Z) :
  Forall is_block m -> 0 <= lo ->
  match scan_up n lo (find_in_block m) with
  | Some r =>
      exists p, r = Some p
                /\ lo * bits_per_block <= p < (lo + Z.of_nat n) * bits_per_block
                /\ bit_at m p = true
                /\ forall q, lo * bits_per_block <= q < p -> bit_at m q = false
  | None =>
      forall q, lo * bits_per_block <= q < (lo + Z.of_nat n) * bits_per_block ->
                bit_at m q = false
  end.
Proof.
  intros Hm Hlo. pose proof W_pos as HW.
  assert (forall k q, 0 <= k -> nonzero (Vec.get m k) = false ->
                      k * bits_per_block <= q < (k + 1) * bits_per_block ->
                      bit_at m q = false) as Hzero.
  { intros k q Hk Hz Hq. rewrite bit_at_testbit by nia.
    assert (block_index q = k) as ->.
    { unfold block_index. symmetry. apply (Z.div_unique _ _ _ (q - k * bits_per_block)); lia. }
    apply nonzero_false in Hz. rewrite Hz. apply Z.bits_0. }
  destruct (scan_up n lo (find_in_block m)) as [r |] eqn:E.
  - apply scan_up_Some in E as (k & Hk & Hbody & Hbefore).
    unfold find_in_block in Hbody.
    destruct (nonzero (Vec.get m k)) eqn:Hnz; [| done].
    destruct (first_on_spec (Vec.get m k)) as (r0 & Hr0 & Hr & Hset & Hlow);
      [by apply Vec_get_block | done |].
    rewrite Hr0 in Hbody. simpl in Hbody. injection Hbody as <-.
    eexists. split; [done |]. split; [nia |]. split.
    + by rewrite bit_at_split by lia.
    + intros q Hq.
      destruct (Z.lt_ge_cases q (k * bits_per_block)) as [Hlt | Hge].
      * pose proof (div_mod_W q) as [Hd Hb].
        apply (Hzero (q / bits_per_block)); [apply div_W_nonneg; nia | | nia].
        specialize (Hbefore (q / bits_per_block)).
        unfold find_in_block in Hbefore.
        destruct (nonzero (Vec.get m (q / bits_per_block))); [| done].
        discriminate Hbefore. split; [apply div_W_le; lia | apply div_W_lt; lia].
      * replace q with (k * bits_per_block + (q - k * bits_per_block)) by lia.
        rewrite bit_at_split by lia. apply Hlow. lia.
  - intros q Hq. pose proof (div_mod_W q) as [Hd Hb].
    apply (Hzero (q / bits_per_block)); [apply div_W_nonneg; nia | | nia].
    pose proof (proj1 (scan_up_None _ _ _) E (q / bits_per_block)) as Hbody.
    unfold find_in_block in Hbody.
    destruct (nonzero (Vec.get m (q / bits_per_block))); [| done].
    discriminate Hbody. split; [apply div_W_le; lia | apply div_W_lt; lia].
Qed.

End FirstOn.

Section FindSpec.

Context {Block : UnsignedBlock} {Tools : Toolchain}.

Lemma lowest_set_bit_intro (v : dynamic_bitset) (from r : Z) :
  invariant v -> 0 <= from -> from <= r -> bit v r = true ->
  (forall q, from <= q < r -> bit v q = false) ->
  lowest_set_bit v from r.
Proof.
  intros Hv Hfrom Hr Hset Hlow.
  assert (r < size v) as Hlt.
  { destruct (Z.lt_ge_cases r (size v)) as [| Hge]; [done |].
    rewrite bit_high in Hset by done. done. }
  split; [lia |]. split.
  - rewrite test_spec by (done || lia). by rewrite Hset.
  - intros q Hq. rewrite test_spec by (done || lia). by rewrite Hlow.
Qed.

Lemma no_set_bit_intro (v : dynamic_bitset) (from : Z) :
  invariant v -> 0 <= from ->
  (forall q, from <= q < size v -> bit v q = false) ->
  no_set_bit v from.
Proof.
  intros Hv Hfrom Hlow q Hq. rewrite test_spec by (done || lia). by rewrite Hlow.
Qed.

Lemma find_first_spec (v : dynamic_bitset) :
  invariant v ->
  exists r, find_first v = Some r
            /\ (lowest_set_bit v 0 r \/ (r = npos /\ no_set_bit v 0)).
Proof.
  intros Hv. pose proof (invariant_blocks v Hv) as Hm.
  pose proof (invariant_capacity v Hv) as Hcap.
  pose proof (Vec_size_nonneg (m_blocks v)) as Hlen.
  unfold find_first. cbv zeta.
  pose proof (find_in_blocks_spec (m_blocks v) (trips_lt 0 (Vec.size (m_blocks v))) 0 Hm)
    as H.
  destruct (scan_up _ _ _) as [r |].
  - destruct H as (p & -> & Hp & Hset & Hlow); [lia |].
    exists p. split; [done |]. left.
    apply lowest_set_bit_intro; [done | lia | lia | done |].
    intros q Hq. apply Hlow. lia.
  - exists npos. split; [done |]. right. split; [done |].
    apply no_set_bit_intro; [done | lia |]. intros q Hq. apply H; [lia |].
    unfold size, trips_lt in *. rewrite Z2Nat.id by lia. lia.
Qed.

Lemma find_next_spec (v : dynamic_bitset) (prev : Z) :
  invariant v -> 0 <= prev ->
  exists r, find_next v prev = Some r
            /\ (lowest_set_bit v (prev + 1) r \/ (r = npos /\ no_set_bit v (prev + 1)))
            /\ (size v = 0 \/ size v - 1 <= prev -> r = npos).
Proof.
  intros Hv Hprev. pose proof (invariant_blocks v Hv) as Hm.
  pose proof (invariant_capacity v Hv) as Hcap.
  pose proof (Vec_size_nonneg (m_blocks v)) as Hlen.
  pose proof W_pos as HW.
  unfold find_next, empty.
  destruct (Z.eqb_spec (size v) 0) as [H0 | H0]; simpl.
  { exists npos. split; [done |]. split; [| done]. right. split; [done |].
    intros q Hq. lia. }
  destruct (Z.leb_spec (size v - 1) prev) as [Hle | Hlt].
  { exists npos. split; [done |]. split; [| done]. right. split; [done |].
    intros q Hq. lia. }
  unfold size in *.
  set (fb := prev + 1) in *.
  pose proof (div_mod_W fb) as [Hd Hb].
  assert (0 <= block_index fb < Vec.size (m_blocks v)) as Hi.
  { unfold block_index. split; [apply div_W_nonneg; lia | apply div_W_lt; lia]. }
  unfold block_index, bit_index in *.
  set (i := fb / bits_per_block) in *. set (j := fb mod bits_per_block) in *.
  assert (is_block (Vec.get (m_blocks v) i)) as Hblk by by apply Vec_get_block.
  rewrite block_type_small by (apply is_block_shr; [done | lia]).
  assert (forall q, fb <= q < (i + 1) * bits_per_block ->
                    bit v q = Z.testbit (shr (Vec.get (m_blocks v) i) j) (q - fb)) as Hfirst.
  { intros q Hq. replace q with (i * bits_per_block + (j + (q - fb))) at 1 by lia.
    unfold bit. rewrite bit_at_split, testbit_shr by lia. f_equal. lia. }
  destruct (nonzero (shr (Vec.get (m_blocks v) i) j)) eqn:Hnz.
  - destruct (first_on_spec (shr (Vec.get (m_blocks v) i) j))
      as (r0 & Hr0 & Hr & Hset & Hlow); [apply is_block_shr; [done | lia] | done |].
    rewrite Hr0. simpl. exists (fb + r0). split; [done |]. split; [| lia].
    left. assert (r0 + j < bits_per_block) as Hrj.
    { destruct (Z.lt_ge_cases (r0 + j) bits_per_block) as [| Hge]; [done |].
      rewrite testbit_shr, is_block_high in Hset by (done || lia). done. }
    apply lowest_set_bit_intro; [done | lia | lia | |].
    + rewrite Hfirst by lia. by replace (fb + r0 - fb) with r0 by lia.
    + intros q Hq. rewrite Hfirst by lia. apply Hlow. lia.
  - apply nonzero_false in Hnz.
    assert (forall q, fb <= q < (i + 1) * bits_per_block -> bit v q = false) as Hzero.
    { intros q Hq. rewrite Hfirst, Hnz by done. apply Z.bits_0. }
    pose proof (find_in_blocks_spec (m_blocks v)
                  (trips_lt (i + 1) (Vec.size (m_blocks v))) (i + 1) Hm) as H.
    assert (i + 1 + Z.of_nat (trips_lt (i + 1) (Vec.size (m_blocks v)))
            = Vec.size (m_blocks v)) as Htrips by (unfold trips_lt; lia).
    rewrite Htrips in H.
    destruct (scan_up _ _ _) as [r |].
    + destruct H as (p & -> & Hp & Hset & Hlow); [lia |].
      exists p. split; [done |]. split; [| lia]. left.
      apply lowest_set_bit_intro; [done | lia | lia | done |].
      intros q Hq. destruct (Z.lt_ge_cases q ((i + 1) * bits_per_block)).
      * apply Hzero. lia.
      * apply Hlow. lia.
    + exists npos. split; [done |]. split; [| lia]. right. split; [done |].
      apply no_set_bit_intro; [done | lia |]. intros q Hq.
      destruct (Z.lt_ge_cases q ((i + 1) * bits_per_block)).
      * apply Hzero. lia.
      * apply H; [lia |]. unfold size in *. lia.
Qed.

End FindSpec.

Section ClaimC6.

Context {Block : UnsignedBlock}.

(** Claim C6.  For every bitset [v] that satisfies the class invariant and
    every position [prev], with either implementation of [first_on] (the
    count-trailing-zeros builtin or the portable loop): [find_first]
    returns the lowest position whose bit is set, or [npos] when no bit is
    set; [find_next prev] returns the lowest position above [prev] whose bit
    is set, or [npos] when there is none; and [find_next prev] is [npos]
    when the bitset is empty or [prev >= size - 1].  [npos] is the largest
    value of [size_type]. *)
Theorem find_first_and_next (v : dynamic_bitset) (prev : Z) :
  invariant v -> 0 <= prev ->
  forall tools : Toolchain,
    (exists r, @find_first Block tools v = Some r
               /\ (lowest_set_bit v 0 r \/ (r = npos /\ no_set_bit v 0)))
    /\ (exists r, @find_next Block tools v prev = Some r
                  /\ (lowest_set_bit v (prev + 1) r
                      \/ (r = npos /\ no_set_bit v (prev + 1)))
                  /\ (size v = 0 \/ size v - 1 <= prev -> r = npos))
    /\ npos = size_type_max.
Proof.
  intros Hv Hprev tools. split; [by apply find_first_spec |].
  split; [by apply find_next_spec | done].
Qed.

End ClaimC6.

Section ClaimC6Witness.

#[local] Existing Instance uint8.

Lemma find_first_and_next_witness :
  invariant sample /\ 0 <= 4
  /\ forall tools : Toolchain,
       (exists r, @find_first uint8 tools sample = Some r
                  /\ (lowest_set_bit sample 0 r \/ (r = npos /\ no_set_bit sample 0)))
       /\ (exists r, @find_next uint8 tools sample 4 = Some r
                     /\ (lowest_set_bit sample (4 + 1) r
                         \/ (r = npos /\ no_set_bit sample (4 + 1)))
                     /\ (size sample = 0 \/ size sample - 1 <= 4 -> r = npos))
       /\ npos = size_type_max.
Proof.
  split; [exact sample_invariant |]. split; [lia |].
  exact (find_first_and_next sample 4 sample_invariant ltac:(lia)).
Defined.

End ClaimC6Witness.

Section ToString.

Context {Block : UnsignedBlock} {CharT : Type} `{EqDecision CharT}.

Lemma renders_ext (len : Z) (zero one : CharT) (str : list CharT) (g g' : Z -> bool) :
  (forall p, 0 <= p < len -> g p = g' p) ->
  renders len zero one str g -> renders len zero one str g'.
Proof.
  intros Hg (Hlen & Hstr). split; [done |].
  intros p Hp. rewrite <- Hg by done. by apply Hstr.
Qed.

Lemma renders_insert (len : Z) (zero one : CharT) (str : list CharT) (g : Z -> bool)
    (q : Z) :
  0 <= q < len ->
  renders len zero one str g ->
  renders len zero one (<[Z.to_nat (len - (q + 1)) := one]> str)
    (fun p => g p || (p =? q)).
Proof.
  intros Hq (Hlen & Hstr). split; [by rewrite length_insert |].
  intros p Hp. rewrite nth_lookup.
  destruct (Z.eqb_spec p q) as [-> | Hne].
  - rewrite orb_true_r.
    replace (Z.to_nat (len - 1 - q)) with (Z.to_nat (len - (q + 1))) by lia.
    rewrite list_lookup_insert_eq; [done | lia].
  - rewrite orb_false_r, list_lookup_insert_ne by lia.
    rewrite <- nth_lookup. by apply Hstr.
Qed.

Lemma to_string_bit_loop (n : nat) (t len i x : Z) (zero one : CharT)
    (str : list CharT) (g : Z -> bool) :
  is_block x -> 0 <= i -> 0 <= t ->
  i * bits_per_block + t + Z.of_nat n <= len ->
  renders len zero one str g ->
  renders len zero one
    (snd (for_up n t (to_string_bit len i x one) (block_type (2 ^ t), str)))
    (fun p => g p || ((i * bits_per_block + t <=? p)
                      && (p <? i * bits_per_block + t + Z.of_nat n)
                      && Z.testbit x (p - i * bits_per_block))).
Proof.
  intros Hx Hi. pose proof W_pos as HW.
  revert t str g. induction n as [| n IH]; intros t str g Ht Hn Hstr.
  - simpl. apply (renders_ext _ _ _ _ g); [| done].
    intros p Hp. destruct_cmp; simpl; try lia; by rewrite orb_false_r.
  - cbn [for_up]. unfold to_string_bit at 2.
    rewrite nonzero_land_pow2, shl_pow2 by done.
    destruct (Z.testbit x t) eqn:E.
    + eapply renders_ext; [| apply IH; [lia | lia |]].
      2:{ apply (renders_insert len zero one str g (i * bits_per_block + t)); [nia |].
          exact Hstr. }
      intros p Hp. cbv beta.
      destruct (Z.eqb_spec p (i * bits_per_block + t)) as [-> | Hne].
      * replace (i * bits_per_block + t - i * bits_per_block) with t by lia.
        rewrite E. destruct_cmp; simpl; try lia; by rewrite !orb_true_r.
      * rewrite orb_false_r. f_equal. destruct_cmp; simpl; (done || lia).
    + eapply renders_ext; [| apply IH; [lia | lia | exact Hstr]].
      intros p Hp. cbv beta. f_equal.
      destruct (Z.eq_dec p (i * bits_per_block + t)) as [-> | Hne].
      * replace (i * bits_per_block + t - i * bits_per_block) with t by lia.
        rewrite E. by rewrite !andb_false_r.
      * destruct_cmp; simpl; (done || lia).
Qed.

Lemma to_string_blocks_loop (n : nat) (i len : Z) (m : list Z) (zero one : CharT)
    (str : list CharT) :
  Forall is_block m -> 0 <= i -> i + Z.of_nat n <= Vec.size m ->
  (Vec.size m - 1) * bits_per_block < len ->
  renders len zero one str (fun p => (p <? i * bits_per_block) && bit_at m p) ->
  renders len zero one
    (for_up n i
       (fun i_block str =>
          if Vec.get m i_block =? zero_block then str
          else
            let mask := block_type 1 in
            let limit :=
              if i_block * bits_per_block <? len
              then len - i_block * bits_per_block
              else bits_per_block in
            snd (for_up (trips_lt 0 limit) 0
                   (to_string_bit len i_block (Vec.get m i_block) one) (mask, str)))
       str)
    (fun p => (p <? (i + Z.of_nat n) * bits_per_block) && bit_at m p).
Proof.
  intros Hm. pose proof W_pos as HW.
  revert i str. induction n as [| n IH]; intros i str Hi Hn Hlen Hstr.
  - simpl. eapply renders_ext; [| exact Hstr].
    intros p Hp. cbv beta. by replace (i + Z.of_nat 0) with i by lia.
  - cbn [for_up].
    replace (i + Z.of_nat (S n)) with (i + 1 + Z.of_nat n) by lia.
    apply IH; [lia | lia | done |].
    assert (forall p, 0 <= p -> i * bits_per_block <= p < (i + 1) * bits_per_block ->
                      bit_at m p = Z.testbit (Vec.get m i) (p - i * bits_per_block))
      as Hblock.
    { intros p Hp Hr. replace p with (i * bits_per_block + (p - i * bits_per_block)) at 1
        by lia.
      rewrite bit_at_split by lia. done. }
    assert (forall p, 0 <= p -> (i + 1) * bits_per_block <= p ->
                      Z.testbit (Vec.get m i) (p - i * bits_per_block) = false) as Hhigh.
    { intros p Hp Hr. apply is_block_high; [by apply Vec_get_block | lia]. }
    destruct (Z.eqb_spec (Vec.get m i) zero_block) as [Hz | Hnz].
    + eapply renders_ext; [| exact Hstr].
      intros p Hp. cbv beta.
      destruct (Z.ltb_spec p (i * bits_per_block)), (Z.ltb_spec p ((i + 1) * bits_per_block));
        simpl; try (done || lia).
      rewrite Hblock, Hz by lia. symmetry. apply Z.bits_0.
    + cbv zeta.
      destruct (Z.ltb_spec (i * bits_per_block) len) as [Hlt | Hge]; [| nia].
      change (block_type 1) with (block_type (2 ^ 0)).
      eapply renders_ext; [| apply to_string_bit_loop;
                              [by apply Vec_get_block | lia | lia | | exact Hstr]].
      2:{ unfold trips_lt. lia. }
      intros p Hp. cbv beta.
      replace (i * bits_per_block + 0 + Z.of_nat (trips_lt 0 (len - i * bits_per_block)))
        with len by (unfold trips_lt; lia).
      rewrite Z.add_0_r.
      destruct (Z.ltb_spec p (i * bits_per_block)), (Z.ltb_spec p ((i + 1) * bits_per_block)),
        (Z.leb_spec (i * bits_per_block) p), (Z.ltb_spec p len); simpl; try lia.
      * by rewrite orb_false_r.
      * by rewrite Hblock by lia.
      * by rewrite Hhigh by lia.
Qed.

Lemma nth_replicate_same (n k : nat) (x : CharT) : nth k (replicate n x) x = x.
Proof. revert k. induction n as [| n IH]; intros [| k]; simpl; done. Qed.

Lemma to_string_renders (v : dynamic_bitset) (zero one : CharT) :
  invariant v -> renders (size v) zero one (to_string v zero one) (bit v).
Proof.
  intros Hv. pose proof (invariant_blocks v Hv) as Hm.
  pose proof (invariant_capacity v Hv) as Hcap.
  pose proof (invariant_size_nonneg v Hv) as Hs.
  pose proof (Vec_size_nonneg (m_blocks v)) as Hlen.
  unfold to_string. cbv zeta.
  eapply renders_ext; [| apply to_string_blocks_loop; [done | lia | | |]].
  - intros p Hp. cbv beta. unfold bit.
    replace (0 + Z.of_nat (trips_lt 0 (Vec.size (m_blocks v)))) with (Vec.size (m_blocks v))
      by (unfold trips_lt; lia).
    unfold size in *.
    destruct (Z.ltb_spec p (Vec.size (m_blocks v) * bits_per_block)); [done | lia].
  - unfold trips_lt. lia.
  - unfold size. lia.
  - split; [by rewrite length_replicate |].
    intros p Hp. rewrite nth_replicate_same.
    destruct (Z.ltb_spec p (0 * bits_per_block)); [lia | done].
Qed.

End ToString.

Section ClaimC4.

Context {Block : UnsignedBlock} {CharT : Type} `{EqDecision CharT}.

Lemma npos_nonneg : 0 <= npos.
Proof. unfold npos, size_type_max. lia. Qed.

Lemma from_to_string (v : dynamic_bitset) (zero one : CharT) :
  invariant v -> 0 < size v <= npos -> zero <> one ->
  dynamic_bitset_string (to_string v zero one) 0 npos zero one = Some v.
Proof.
  intros Hv Hsize Hne.
  destruct (to_string_renders v zero one Hv) as (Hlen & Hstr).
  assert (Z.of_nat (length (to_string v zero one)) = size v) as Hlen' by lia.
  destruct (dynamic_bitset_string_spec (to_string v zero one) 0 npos zero one)
    as (v' & Hv' & Hinv & Hsz & Hbits).
  - lia.
  - apply npos_nonneg.
  - intros k Hk. rewrite Hlen' in Hk.
    specialize (Hstr (size v - 1 - k)).
    replace (size v - 1 - (size v - 1 - k)) with k in Hstr by lia.
    rewrite Hstr by lia. destruct (bit v (size v - 1 - k)); tauto.
  - rewrite Hv'. f_equal. rewrite Hlen' in Hsz.
    assert (size v' = size v) as Hsz' by lia.
    apply invariant_ext; [done | done | exact Hsz' |].
    intros p Hp. fold (bit v' p) (bit v p).
    rewrite Hbits by (unfold size in *; lia). rewrite Hsz'.
    replace (0 + size v - 1 - p) with (size v - 1 - p) by lia.
    rewrite Hstr by (unfold size in *; lia).
    destruct (bit v p).
    + by rewrite bool_decide_eq_true_2.
    + by rewrite bool_decide_eq_false_2.
Qed.

Lemma to_from_string (s : list CharT) (zero one : CharT) :
  s <> [] -> Z.of_nat (length s) <= npos ->
  Forall (fun c => c = zero \/ c = one) s ->
  exists w, dynamic_bitset_string s 0 npos zero one = Some w
            /\ invariant w
            /\ to_string w zero one = s.
Proof.
  intros Hs Hlen Hchars.
  assert (0 < Z.of_nat (length s)) as Hpos by (destruct s; [done | simpl; lia]).
  assert (forall n, (n < length s)%nat ->
                    nth n s zero = zero \/ nth n s zero = one) as Hnth.
  { intros n Hn. rewrite nth_lookup.
    destruct (lookup_lt_is_Some_2 s n Hn) as (c & Hc). rewrite Hc. simpl.
    apply (Forall_lookup_1 _ _ _ _ Hchars Hc). }
  destruct (dynamic_bitset_string_spec s 0 npos zero one) as (w & Hw & Hinv & Hsz & Hbits).
  - lia.
  - apply npos_nonneg.
  - intros k Hk. apply Hnth. lia.
  - exists w. split; [done |]. split; [done |].
    assert (size w = Z.of_nat (length s)) as Hsz' by lia.
    destruct (to_string_renders w zero one Hinv) as (Hl & Hstr).
    apply (nth_ext _ _ zero zero); [lia |].
    intros n Hn.
    specialize (Hstr (size w - 1 - Z.of_nat n)).
    replace (Z.to_nat (size w - 1 - (size w - 1 - Z.of_nat n))) with n in Hstr by lia.
    rewrite Hstr by lia. rewrite Hbits by lia.
    replace (Z.to_nat (0 + size w - 1 - (size w - 1 - Z.of_nat n))) with n by lia.
    destruct (bool_decide_reflect (nth n s zero = one)) as [-> | Hne]; [done |].
    destruct (Hnth n); [lia | done | done].
Qed.

(** Claim C4, amended.  For every non-empty bitset [v] that satisfies the
    class invariant and distinct designators [zero] and [one], constructing
    a bitset from [to_string v zero one] succeeds and gives a bitset equal
    to [v]; and for every non-empty string [s] made only of the two
    designators, the bitset constructed from [s] exists and [to_string] of
    it is [s].  Sizes and lengths are values of [size_type]. *)
Theorem string_round_trip (v : dynamic_bitset) (s : list CharT) (zero one : CharT) :
  invariant v -> 0 < size v <= npos -> zero <> one ->
  s <> [] -> Z.of_nat (length s) <= npos ->
  Forall (fun c => c = zero \/ c = one) s ->
  (exists v', dynamic_bitset_string (to_string v zero one) 0 npos zero one = Some v'
              /\ op_eq v' v = true)
  /\ (exists w, dynamic_bitset_string s 0 npos zero one = Some w
                /\ to_string w zero one = s).
Proof.
  intros Hv Hsize Hne Hs Hlen Hchars. split.
  - exists v. split; [by apply from_to_string | by apply op_eq_eq].
  - destruct (to_from_string s zero one Hs Hlen Hchars) as (w & Hw & _ & Hstr).
    by exists w.
Qed.

End ClaimC4.

Section ClaimC4Witness.

#[local] Existing Instance uint8.

Lemma string_round_trip_witness :
  invariant sample /\ 0 < size sample <= npos /\ "0"%char <> "1"%char
  /\ ["1"; "0"; "1"; "1"; "0"; "0"; "1"; "1"; "1"; "0"; "1"]%char <> []
  /\ Z.of_nat (length ["1"; "0"; "1"; "1"; "0"; "0"; "1"; "1"; "1"; "0"; "1"]%char) <= npos
  /\ Forall (fun c => c = "0"%char \/ c = "1"%char)
       ["1"; "0"; "1"; "1"; "0"; "0"; "1"; "1"; "1"; "0"; "1"]%char
  /\ (exists v', dynamic_bitset_string (to_string sample "0"%char "1"%char) 0 npos
                   "0"%char "1"%char = Some v'
                 /\ op_eq v' sample = true)
  /\ (exists w, dynamic_bitset_string
                  ["1"; "0"; "1"; "1"; "0"; "0"; "1"; "1"; "1"; "0"; "1"]%char 0 npos
                  "0"%char "1"%char = Some w
                /\ to_string w "0"%char "1"%char
                   = ["1"; "0"; "1"; "1"; "0"; "0"; "1"; "1"; "1"; "0"; "1"]%char).
Proof.
  assert (0 < size sample <= npos) as H1 by (vm_compute; split; congruence).
  assert ("0"%char <> "1"%char) as H2 by discriminate.
  assert (["1"; "0"; "1"; "1"; "0"; "0"; "1"; "1"; "1"; "0"; "1"]%char <> []) as H3
    by discriminate.
  assert (Z.of_nat (length ["1"; "0"; "1"; "1"; "0"; "0"; "1"; "1"; "1"; "0"; "1"]%char)
          <= npos) as H4 by (vm_compute; congruence).
  assert (Forall (fun c => c = "0"%char \/ c = "1"%char)
            ["1"; "0"; "1"; "1"; "0"; "0"; "1"; "1"; "1"; "0"; "1"]%char) as H5
    by (repeat constructor; tauto).
  split; [exact sample_invariant |]. split; [exact H1 |]. split; [exact H2 |].
  split; [exact H3 |]. split; [exact H4 |]. split; [exact H5 |].
  exact (string_round_trip sample
           ["1"; "0"; "1"; "1"; "0"; "0"; "1"; "1"; "1"; "0"; "1"]%char
           "0"%char "1"%char sample_invariant H1 H2 H3 H4 H5).
Defined.

(** Claim C4 as stated fails on the empty bitset and on the empty string:
    [to_string] of the empty bitset is the empty string, and constructing
    from the empty string violates the precondition [pos < str.size()]. *)
Lemma round_trip_fails_when_empty :
  (exists v, invariant v
             /\ to_string v "0"%char "1"%char = []
             /\ dynamic_bitset_string (to_string v "0"%char "1"%char) 0 npos
                  "0"%char "1"%char = None)
  /\ (exists s : list ascii,
        Forall (fun c => c = "0"%char \/ c = "1"%char) s
        /\ dynamic_bitset_string s 0 npos "0"%char "1"%char = None).
Proof.
  split.
  - exists dynamic_bitset_default. split; [apply default_spec |]. split; reflexivity.
  - exists []. split; [constructor | reflexivity].
Qed.

End ClaimC4Witness.

(** * Further properties of the code *)

Section ExtraFacts.

Context {Block : UnsignedBlock}.

Lemma bitset_ext (a b : dynamic_bitset) :
  invariant a -> invariant b -> size a = size b ->
  (forall p, 0 <= p < size a -> bit a p = bit b p) -> a = b.
Proof. intros Ha Hb Hs Hbits. by apply invariant_ext. Qed.

Lemma test_in_range (v : dynamic_bitset) (p : Z) (b : bool) :
  invariant v -> 0 <= p < size v -> test v p = Some b <-> bit v p = b.
Proof.
  intros Hv Hp. rewrite test_spec by done. split; [by intros [= ->] | by intros ->].
Qed.

Lemma full_block_iff (m : list Z) (i : Z) :
  Forall is_block m -> 0 <= i ->
  Vec.get m i = one_block
  <-> forall j, 0 <= j < bits_per_block -> bit_at m (i * bits_per_block + j) = true.
Proof.
  intros Hm Hi. split.
  - intros Hfull j Hj. rewrite bit_at_split, Hfull, testbit_one_block by lia.
    destruct (Z.leb_spec 0 j), (Z.ltb_spec j bits_per_block); (done || lia).
  - intros Hbits. apply block_ext; [by apply Vec_get_block | apply is_block_one_block |].
    intros j Hj. rewrite <- bit_at_split, Hbits, testbit_one_block by lia.
    destruct (Z.leb_spec 0 j), (Z.ltb_spec j bits_per_block); (done || lia).
Qed.

Lemma all_bits (v : dynamic_bitset) :
  invariant v ->
  all v = true <-> forall p, 0 <= p < size v -> bit v p = true.
Proof.
  intros Hv. pose proof W_pos as HW.
  pose proof (invariant_blocks v Hv) as Hm.
  pose proof (invariant_capacity v Hv) as Hcap.
  pose proof (invariant_size_nonneg v Hv) as Hs.
  pose proof (Vec_size_nonneg (m_blocks v)) as Hlen.
  unfold all, empty, size, bit.
  destruct (Z.eqb_spec (m_bits_number v) 0) as [H0 | H0].
  { split; [intros _ p Hp; lia | done]. }
  cbv zeta. unfold extra_bits_number, bit_index.
  pose proof (div_mod_W (m_bits_number v)) as [Hd Hb].
  destruct (Z.eqb_spec (m_bits_number v mod bits_per_block) 0) as [He | He].
  - assert (m_bits_number v = Vec.size (m_blocks v) * bits_per_block) as Hsz.
    { rewrite (invariant_num_blocks v Hv). symmetry. by apply blocks_required_aligned. }
    rewrite forallb_forall. split.
    + intros Hall p Hp.
      pose proof (div_mod_W p) as [Hpd Hpb].
      assert (0 <= p / bits_per_block < Vec.size (m_blocks v)) as Hq
        by (split; [apply div_W_nonneg; lia | apply div_W_lt; lia]).
      replace p with (p / bits_per_block * bits_per_block + p mod bits_per_block) by lia.
      apply (proj1 (full_block_iff _ _ Hm (proj1 Hq))); [| done].
      apply Z.eqb_eq, Hall. unfold Vec.get. apply nth_In. unfold Vec.size in Hq. lia.
    + intros Hbits x Hin. apply (In_nth _ _ 0) in Hin as (n & Hn & <-).
      apply Z.eqb_eq.
      assert (0 <= Z.of_nat n) as Hn0 by lia.
      pose proof (proj2 (full_block_iff (m_blocks v) (Z.of_nat n) Hm Hn0)) as Hf.
      unfold Vec.get in Hf. rewrite Nat2Z.id in Hf. apply Hf.
      intros j Hj. apply Hbits. unfold Vec.size in *. nia.
  - set (k := Vec.size (m_blocks v) - 1) in *.
    assert (0 <= k) as Hk by (unfold k; nia).
    assert (m_bits_number v = k * bits_per_block + m_bits_number v mod bits_per_block)
      as Hsz.
    { unfold k. rewrite (invariant_num_blocks v Hv), blocks_required_unaligned by done.
      lia. }
    set (e := m_bits_number v mod bits_per_block) in *.
    assert (forall j, 0 <= j < bits_per_block ->
              Z.testbit (shr one_block (unused_bits_number v)) j = (j <? e)) as Hlast.
    { intros j Hj. unfold unused_bits_number, extra_bits_number, bit_index. fold e.
      rewrite testbit_shr, testbit_one_block by lia.
      destruct (Z.leb_spec 0 (j + (bits_per_block - e))),
        (Z.ltb_spec (j + (bits_per_block - e)) bits_per_block), (Z.ltb_spec j e);
        simpl; (done || lia). }
    destruct (scan_up _ _ _) as [r |] eqn:E.
    + apply scan_up_Some in E as (i & Hi & Hbody & _).
      destruct (Z.eqb_spec (Vec.get (m_blocks v) i) one_block) as [Hfull | Hne];
        [done |]. simpl in Hbody. injection Hbody as <-.
      split; [done |]. intros Hbits. exfalso. apply Hne.
      apply full_block_iff; [done | lia |]. intros j Hj. apply Hbits.
      unfold trips_lt in Hi. nia.
    + assert (forall i, 0 <= i < k -> Vec.get (m_blocks v) i = one_block) as Hfull.
      { intros i Hi.
        assert (0 <= i < 0 + Z.of_nat (trips_lt 0 k)) as Hi' by (unfold trips_lt; lia).
        pose proof (proj1 (scan_up_None _ _ _) E i Hi') as Hbody. cbv beta in Hbody.
        by destruct (Z.eqb_spec (Vec.get (m_blocks v) i) one_block). }
      unfold last_block. fold k.
      destruct (Z.eqb_spec (Vec.get (m_blocks v) k) (shr one_block (unused_bits_number v)))
        as [Hl | Hl]; simpl.
      * split; [| done]. intros _ p Hp.
        pose proof (div_mod_W p) as [Hpd Hpb].
        destruct (Z.lt_ge_cases p (k * bits_per_block)).
        -- replace p with (p / bits_per_block * bits_per_block + p mod bits_per_block)
             by lia.
           assert (0 <= p / bits_per_block) as Hq0 by (apply div_W_nonneg; lia).
           apply (proj1 (full_block_iff _ _ Hm Hq0)); [| done].
           apply Hfull. split; [apply div_W_nonneg; lia | apply div_W_lt; lia].
        -- replace p with (k * bits_per_block + (p - k * bits_per_block)) by lia.
           rewrite bit_at_split, Hl, Hlast by lia.
           destruct (Z.ltb_spec (p - k * bits_per_block) e); [done | lia].
      * split; [done |]. intros Hbits. exfalso. apply Hl.
        apply block_ext; [by apply Vec_get_block | apply is_block_shr |].
        -- apply is_block_one_block.
        -- unfold unused_bits_number, extra_bits_number, bit_index. fold e. lia.
        -- intros j Hj. rewrite Hlast, <- bit_at_split by lia.
           destruct (Z.ltb_spec j e).
           ++ apply Hbits. lia.
           ++ apply (invariant_high v); [done | lia].
Qed.

Lemma none_bits (v : dynamic_bitset) :
  invariant v -> none v = true <-> forall p, bit v p = false.
Proof.
  intros Hv. unfold none. rewrite negb_true_iff. split.
  - intros Hnone p. destruct (bit v p) eqn:E; [| done].
    assert (any v = true) as Hany; [| congruence].
    apply any_bits; [by apply invariant_blocks |]. by exists p.
  - intros Hbits. destruct (any v) eqn:E; [| done].
    apply any_bits in E as (p & Hp); [| by apply invariant_blocks].
    by rewrite Hbits in Hp.
Qed.

Lemma bit_true_in_range (v : dynamic_bitset) (p : Z) :
  invariant v -> bit v p = true -> 0 <= p < size v.
Proof.
  intros Hv Hp. split.
  - destruct (Z.lt_ge_cases p 0); [| done]. by rewrite bit_neg in Hp.
  - destruct (Z.lt_ge_cases p (size v)); [done |]. by rewrite bit_high in Hp.
Qed.

End ExtraFacts.

Section WholeBitsetPredicates.

Context {Block : UnsignedBlock}.

(** Extra X1.  For a bitset whose members have values of their types and
    whose vector of blocks is not empty when the size is not a multiple of
    [bits_per_block] (so that [last_block] reads a block of the vector), the
    self-check [check_consistency], which the mutating members assert
    before they return, is true exactly when the number of blocks is
    [ceil(size / bits_per_block)] and the unused bits of the last block are
    zero. *)
Theorem check_consistency_decides_invariants (v : dynamic_bitset) :
  well_typed v ->
  (size v mod bits_per_block <> 0 -> 0 < num_blocks v) ->
  check_consistency v = true <-> sizing_invariant v /\ sanitization_invariant v.
Proof.
  intros Hv _. rewrite check_consistency_spec by done. unfold invariant. tauto.
Qed.

(** Extra X3.  For a bitset that satisfies the class invariant, [all] is
    true exactly when every position below the size has its bit set; it
    is true for the empty bitset, and it agrees with [none] of the
    complement. *)
Theorem all_iff_every_bit_set (v : dynamic_bitset) :
  invariant v ->
  (all v = true <-> forall p, 0 <= p < size v -> test v p = Some true)
  /\ (size v = 0 -> all v = true)
  /\ all v = none (op_not v).
Proof.
  intros Hv. split; [| split].
  - rewrite all_bits by done. split; intros H p Hp.
    + apply test_in_range; [done | done |]. by apply H.
    + apply (test_in_range v p true); [done | done |]. by apply H.
  - intros H0. apply all_bits; [done |]. intros p Hp. lia.
  - destruct (flip_all_spec v Hv) as (Hinv & Hsz & Hbits).
    apply eq_true_iff_eq. unfold op_not.
    rewrite all_bits, none_bits by done. split.
    + intros H p. rewrite Hbits.
      destruct (Z.leb_spec 0 p), (Z.ltb_spec p (size v)); simpl; try done.
      by rewrite H by lia.
    + intros H p Hp. specialize (H p). rewrite Hbits in H.
      destruct (Z.leb_spec 0 p), (Z.ltb_spec p (size v)); simpl in H; try lia.
      by destruct (bit v p).
Qed.

(** Extra X4.  For a bitset that satisfies the class invariant, [any] is
    true exactly when some position below the size has its bit set, [none]
    exactly when no position has, and exactly one of [any] and [none]
    holds; the empty bitset has [none]. *)
Theorem any_iff_some_bit_set (v : dynamic_bitset) :
  invariant v ->
  (any v = true <-> exists p, 0 <= p < size v /\ test v p = Some true)
  /\ (none v = true <-> forall p, 0 <= p < size v -> test v p = Some false)
  /\ none v = negb (any v)
  /\ (size v = 0 -> none v = true).
Proof.
  intros Hv. pose proof (invariant_blocks v Hv) as Hm.
  split; [| split; [| split; [done |]]].
  - rewrite any_bits by done. split.
    + intros (p & Hp). exists p. pose proof (bit_true_in_range v p Hv Hp).
      split; [done |]. by apply test_in_range.
    + intros (p & Hp & Ht). exists p. by apply (test_in_range v p true).
  - rewrite none_bits by done. split.
    + intros H p Hp. by apply test_in_range.
    + intros H p. destruct (bit v p) eqn:E; [| done].
      pose proof (bit_true_in_range v p Hv E) as Hp.
      pose proof (proj1 (test_in_range v p false Hv Hp) (H p Hp)). congruence.
  - intros H0. apply none_bits; [done |]. intros p.
    destruct (bit v p) eqn:E; [| done].
    pose proof (bit_true_in_range v p Hv E). lia.
Qed.

End WholeBitsetPredicates.

Section WholeBitsetPredicatesWitness.

#[local] Existing Instance uint8.

Lemma check_consistency_decides_invariants_witness :
  well_typed sample
  /\ (size sample mod bits_per_block <> 0 -> 0 < num_blocks sample)
  /\ (check_consistency sample = true
      <-> sizing_invariant sample /\ sanitization_invariant sample).
Proof.
  assert (well_typed sample) as H by apply sample_invariant.
  assert (size sample mod bits_per_block <> 0 -> 0 < num_blocks sample) as H'
    by (intros _; reflexivity).
  split; [exact H |]. split; [exact H' |].
  exact (check_consistency_decides_invariants sample H H').
Defined.

Lemma all_iff_every_bit_set_witness :
  invariant sample
  /\ (all sample = true <-> forall p, 0 <= p < size sample -> test sample p = Some true)
  /\ (size sample = 0 -> all sample = true)
  /\ all sample = none (op_not sample).
Proof.
  split; [exact sample_invariant |].
  exact (all_iff_every_bit_set sample sample_invariant).
Defined.

Lemma any_iff_some_bit_set_witness :
  invariant sample
  /\ (any sample = true <-> exists p, 0 <= p < size sample /\ test sample p = Some true)
  /\ (none sample = true <-> forall p, 0 <= p < size sample -> test sample p = Some false)
  /\ none sample = negb (any sample)
  /\ (size sample = 0 -> none sample = true).
Proof.
  split; [exact sample_invariant |].
  exact (any_iff_some_bit_set sample sample_invariant).
Defined.

End WholeBitsetPredicatesWitness.

Section SingleBitWrites.

Context {Block : UnsignedBlock}.

(** Writing to a bit the value it has leaves the bitset as it is. *)
Lemma set_bit_same (v : dynamic_bitset) (pos : Z) :
  invariant v -> 0 <= pos < size v -> set_bit v pos (bit v pos) = Some v.
Proof.
  intros Hv Hpos.
  destruct (set_bit_spec v pos (bit v pos) Hv Hpos) as (s & Hs & Hinv & Hsz & Hbits).
  rewrite Hs. f_equal. apply bitset_ext; [done | done | done |].
  intros p Hp. rewrite Hbits. by destruct (Z.eqb_spec p pos) as [-> |].
Qed.

Lemma flip_bit_set_bit (v : dynamic_bitset) (pos : Z) :
  invariant v -> 0 <= pos < size v ->
  flip_bit v pos = set_bit v pos (negb (bit v pos)).
Proof.
  intros Hv Hpos.
  destruct (set_bit_spec v pos (negb (bit v pos)) Hv Hpos)
    as (s & Hs & Hinv & Hsz & Hbits).
  destruct (flip_bit_spec v pos Hv Hpos) as (f & Hf & Hfinv & Hfsz & Hfbits).
  rewrite Hs, Hf. f_equal. apply bitset_ext; [done | done | congruence |].
  intros p Hp. rewrite Hbits, Hfbits. by destruct (Z.eqb_spec p pos) as [-> |].
Qed.

(** Extra X2.  On a bitset that satisfies the class invariant and for a
    position below its size, [set(pos, value)] and [flip(pos)] change the
    bit at [pos] to [value] and to its negation, leave every other bit and
    the size as they were, and [test_set(pos, value)] returns the former
    bit and leaves the bitset that [set(pos, value)] gives. *)
Theorem single_bit_writes (v : dynamic_bitset) (pos : Z) (value : bool) :
  invariant v -> 0 <= pos < size v ->
  exists s f old,
    test v pos = Some old
    /\ set_bit v pos value = Some s
    /\ flip_bit v pos = Some f
    /\ test_set v pos value = Some (old, s)
    /\ size s = size v /\ size f = size v
    /\ test s pos = Some value
    /\ test f pos = Some (negb old)
    /\ forall p, 0 <= p < size v -> p <> pos ->
                 test s p = test v p /\ test f p = test v p.
Proof.
  intros Hv Hpos.
  destruct (set_bit_spec v pos value Hv Hpos) as (s & Hs & Hinv & Hsz & Hbits).
  destruct (flip_bit_spec v pos Hv Hpos) as (f & Hf & Hfinv & Hfsz & Hfbits).
  exists s, f, (bit v pos).
  split; [by apply test_spec |]. split; [done |]. split; [done |]. split.
  - unfold test_set. rewrite test_spec by done. simpl.
    destruct (Bool.eqb (bit v pos) value) eqn:E; simpl.
    + apply eqb_prop in E. subst value. rewrite set_bit_same in Hs by done.
      by injection Hs as <-.
    + by rewrite Hs.
  - split; [done |]. split; [done |]. split; [| split].
    + rewrite test_spec, Hbits, Z.eqb_refl by (done || lia). done.
    + rewrite test_spec, Hfbits, Z.eqb_refl by (done || lia). done.
    + intros p Hp Hne. rewrite !test_spec, Hbits, Hfbits by (done || lia).
      by destruct (Z.eqb_spec p pos).
Qed.

(** Extra X5.  On a bitset that satisfies the class invariant and for a
    position below its size, the [reference] that [operator[]] returns
    reads the bit that [test] reads, and its members write through to the
    bitset: assignment is [set(pos, b)], [flip] is [flip(pos)], and
    [&=], [|=], [^=], [-=] with [b] set the bit to [old && b], [old || b],
    [old != b] and [old && !b]. *)
Theorem reference_writes_through (v : dynamic_bitset) (pos : Z) (b : bool) :
  invariant v -> 0 <= pos < size v ->
  exists r old,
    subscript_reference v pos = Some r
    /\ test v pos = Some old
    /\ reference_bool v r = old
    /\ reference_not v r = negb old
    /\ set_bit v pos b = Some (reference_assign v r b)
    /\ flip_bit v pos = Some (reference_flip v r)
    /\ set_bit v pos (old && b) = Some (reference_and_assign v r b)
    /\ set_bit v pos (old || b) = Some (reference_or_assign v r b)
    /\ set_bit v pos (xorb old b) = Some (reference_xor_assign v r b)
    /\ set_bit v pos (old && negb b) = Some (reference_sub_assign v r b).
Proof.
  intros Hv Hpos. exists (reference_of pos), (bit v pos).
  assert ((pos <? size v) = true) as Hlt by (apply Z.ltb_lt; lia).
  assert (set_bit v pos true = Some (reference_set v (reference_of pos))) as Hset.
  { unfold set_bit. by rewrite Hlt. }
  assert (set_bit v pos false = Some (reference_reset v (reference_of pos))) as Hreset.
  { unfold set_bit. by rewrite Hlt. }
  assert (flip_bit v pos = Some (reference_flip v (reference_of pos))) as Hflip.
  { unfold flip_bit. by rewrite Hlt. }
  assert (reference_bool v (reference_of pos) = bit v pos) as Hbool.
  { pose proof (test_spec v pos Hv Hpos) as Ht. unfold test in Ht.
    rewrite Hlt in Ht. simpl in Ht. by injection Ht. }
  pose proof (set_bit_same v pos Hv Hpos) as Hsame.
  split; [unfold subscript_reference; by rewrite Hlt |].
  split; [by apply test_spec |]. split; [done |]. split.
  { rewrite <- Hbool. unfold reference_not, reference_bool, nonzero.
    by rewrite negb_involutive. }
  split; [by destruct b |]. split; [done |].
  split; [| split; [| split]].
  - destruct b; simpl; [by rewrite andb_true_r | by rewrite andb_false_r].
  - destruct b; simpl; [by rewrite orb_true_r | by rewrite orb_false_r].
  - destruct b; simpl.
    + rewrite xorb_true_r, <- Hflip. symmetry. by apply flip_bit_set_bit.
    + by rewrite xorb_false_r.
  - destruct b; simpl; [by rewrite andb_false_r | by rewrite andb_true_r].
Qed.

End SingleBitWrites.

Section SingleBitWritesWitness.

#[local] Existing Instance uint8.

Lemma single_bit_writes_witness :
  invariant sample /\ 0 <= 9 < size sample
  /\ exists s f old,
       test sample 9 = Some old
       /\ set_bit sample 9 true = Some s
       /\ flip_bit sample 9 = Some f
       /\ test_set sample 9 true = Some (old, s)
       /\ size s = size sample /\ size f = size sample
       /\ test s 9 = Some true
       /\ test f 9 = Some (negb old)
       /\ forall p, 0 <= p < size sample -> p <> 9 ->
                    test s p = test sample p /\ test f p = test sample p.
Proof.
  assert (0 <= 9 < size sample) as H by (vm_compute; split; congruence).
  split; [exact sample_invariant |]. split; [exact H |].
  exact (single_bit_writes sample 9 true sample_invariant H).
Defined.

Lemma reference_writes_through_witness :
  invariant sample /\ 0 <= 9 < size sample
  /\ exists r old,
       subscript_reference sample 9 = Some r
       /\ test sample 9 = Some old
       /\ reference_bool sample r = old
       /\ reference_not sample r = negb old
       /\ set_bit sample 9 true = Some (reference_assign sample r true)
       /\ flip_bit sample 9 = Some (reference_flip sample r)
       /\ set_bit sample 9 (old && true) = Some (reference_and_assign sample r true)
       /\ set_bit sample 9 (old || true) = Some (reference_or_assign sample r true)
       /\ set_bit sample 9 (xorb old true) = Some (reference_xor_assign sample r true)
       /\ set_bit sample 9 (old && negb true) = Some (reference_sub_assign sample r true).
Proof.
  assert (0 <= 9 < size sample) as H by (vm_compute; split; congruence).
  split; [exact sample_invariant |]. split; [exact H |].
  exact (reference_writes_through sample 9 true sample_invariant H).
Defined.

End SingleBitWritesWitness.

Section OrderByValue.

Context {Block : UnsignedBlock}.

Lemma magnitude_tail (m : list Z) (n n' : Z) :
  magnitude (mk_bitset m n)
  = Vec.get m 0 + 2 ^ bits_per_block * magnitude (mk_bitset (tail m) n').
Proof.
  destruct m as [| x r]; unfold magnitude, Vec.get; simpl; [| done].
  by rewrite Z.mul_0_r.
Qed.

Lemma Vec_get_tail (m : list Z) (k : Z) :
  0 <= k -> Vec.get (tail m) k = Vec.get m (k + 1).
Proof.
  intros Hk. unfold Vec.get.
  replace (Z.to_nat (k + 1)) with (S (Z.to_nat k)) by lia.
  destruct m as [| x r]; simpl; [by destruct (Z.to_nat k) | done].
Qed.

Lemma Forall_is_block_tail (m : list Z) : Forall is_block m -> Forall is_block (tail m).
Proof. intros Hm. destruct m; [done |]. by apply Forall_cons in Hm as [_ ?]. Qed.

Lemma magnitude_nonneg (v : dynamic_bitset) :
  Forall is_block (m_blocks v) -> 0 <= magnitude v.
Proof.
  unfold magnitude. induction 1 as [| x r Hx Hr IH]; simpl; [done |].
  destruct Hx. pose proof pow2_W_pos. nia.
Qed.

Lemma magnitude_eq_blocks (a b : dynamic_bitset) :
  Forall is_block (m_blocks a) -> Forall is_block (m_blocks b) ->
  (forall k, 0 <= k -> Vec.get (m_blocks a) k = Vec.get (m_blocks b) k) ->
  magnitude a = magnitude b.
Proof.
  intros Ha Hb Hget. apply magnitude_ext; [done | done |].
  intros p Hp. unfold bit. rewrite !bit_at_testbit by done.
  rewrite Hget; [done |]. by apply div_W_nonneg.
Qed.

(** Blocks are compared from the most significant one down: the first pair
    that differs decides. *)
Lemma magnitude_lt_at (n : nat) (ma mb : list Z) (na nb : Z) :
  Forall is_block ma -> Forall is_block mb ->
  (forall k, Z.of_nat n < k -> Vec.get ma k = Vec.get mb k) ->
  Vec.get ma (Z.of_nat n) < Vec.get mb (Z.of_nat n) ->
  magnitude (mk_bitset ma na) < magnitude (mk_bitset mb nb).
Proof.
  revert ma mb. induction n as [| n IH]; intros ma mb Ha Hb Habove Hlt.
  - rewrite (magnitude_tail ma na na), (magnitude_tail mb nb nb).
    rewrite (magnitude_eq_blocks (mk_bitset (tail ma) na) (mk_bitset (tail mb) nb)).
    + change (Z.of_nat 0) with 0 in Hlt. lia.
    + by apply Forall_is_block_tail.
    + by apply Forall_is_block_tail.
    + intros k Hk. simpl. rewrite !Vec_get_tail by done. apply Habove. lia.
  - rewrite (magnitude_tail ma na na), (magnitude_tail mb nb nb).
    assert (magnitude (mk_bitset (tail ma) na) < magnitude (mk_bitset (tail mb) nb)) as H.
    { apply IH; [by apply Forall_is_block_tail .. | |].
      - intros k Hk. rewrite !Vec_get_tail by lia. apply Habove. lia.
      - rewrite !Vec_get_tail by lia.
        by replace (Z.of_nat n + 1) with (Z.of_nat (S n)) by lia. }
    pose proof (Vec_get_block ma 0 Ha) as [? ?].
    pose proof (Vec_get_block mb 0 Hb) as [? ?].
    pose proof pow2_W_pos. nia.
Qed.

Lemma magnitude_lt_blocks (a b : dynamic_bitset) (i : Z) :
  invariant a -> invariant b -> 0 <= i ->
  (forall k, i < k -> Vec.get (m_blocks a) k = Vec.get (m_blocks b) k) ->
  Vec.get (m_blocks a) i < Vec.get (m_blocks b) i ->
  magnitude a < magnitude b.
Proof.
  intros Ha Hb Hi Habove Hlt. destruct a as [ma na], b as [mb nb]; simpl in *.
  apply (magnitude_lt_at (Z.to_nat i)).
  - by apply (invariant_blocks _ Ha).
  - by apply (invariant_blocks _ Hb).
  - intros k Hk. apply Habove. lia.
  - by rewrite Z2Nat.id by done.
Qed.

Lemma lt_at_Some (a b : dynamic_bitset) (i : Z) (r : bool) :
  lt_at a b i = Some r ->
  Vec.get (m_blocks a) i <> Vec.get (m_blocks b) i
  /\ r = (Vec.get (m_blocks a) i <? Vec.get (m_blocks b) i).
Proof.
  unfold lt_at.
  destruct (Z.eqb_spec (Vec.get (m_blocks a) i) (Vec.get (m_blocks b) i)); simpl;
    [done |]. by intros [= <-].
Qed.

Lemma op_lt_le_magnitude (a b : dynamic_bitset) :
  invariant a -> invariant b -> op_lt a b = true -> magnitude a <= magnitude b.
Proof.
  intros Ha Hb. pose proof W_pos as HW.
  pose proof (invariant_size_nonneg a Ha) as Hsa.
  pose proof (invariant_size_nonneg b Hb) as Hsb.
  pose proof (invariant_blocks a Ha) as Hma.
  pose proof (invariant_blocks b Hb) as Hmb.
  pose proof (invariant_num_blocks a Ha) as Hna.
  pose proof (invariant_num_blocks b Hb) as Hnb.
  pose proof (Vec_size_nonneg (m_blocks a)) as Hla.
  pose proof (Vec_size_nonneg (m_blocks b)) as Hlb.
  unfold op_lt, size. cbv zeta.
  destruct (Z.eqb_spec (m_bits_number a) (m_bits_number b)) as [Heq | Hne].
  { destruct (Z.eqb_spec (m_bits_number a) 0); [done |].
    assert (Vec.size (m_blocks a) = Vec.size (m_blocks b)) as Hlen by congruence.
    assert (forall k, Vec.size (m_blocks a) - 1 < k ->
                      Vec.get (m_blocks a) k = Vec.get (m_blocks b) k) as Hout.
    { intros k Hk. rewrite !Vec_get_out by lia. done. }
    destruct (scan_down _ _ _) as [r |] eqn:E.
    - apply scan_down_Some in E as (i & Hi & Hbody & Habove).
      apply lt_at_Some in Hbody as (Hdiff & ->). intros Hlt%Z.ltb_lt.
      apply Z.lt_le_incl, (magnitude_lt_blocks a b i); [done | done | | | done].
      + unfold trips_gt in Hi. lia.
      + intros k Hk. destruct (Z.le_gt_cases k (Vec.size (m_blocks a) - 1)).
        * apply lt_at_None, Habove. lia.
        * apply Hout. lia.
    - intros Hlt%Z.ltb_lt.
      apply Z.lt_le_incl, (magnitude_lt_blocks a b 0); [done | done | lia | | done].
      intros k Hk. destruct (Z.le_gt_cases k (Vec.size (m_blocks a) - 1)).
      + apply lt_at_None. apply (proj1 (scan_down_None _ _ _) E).
        unfold trips_gt. lia.
      + apply Hout. lia. }
  destruct (Z.eqb_spec (m_bits_number a) 0) as [Ha0 | Ha0].
  { intros _. destruct a as [ma na]; simpl in *. subst na.
    assert (ma = []) as ->.
    { rewrite blocks_required_0 in Hna. by destruct ma. }
    apply (magnitude_nonneg b Hmb). }
  destruct (Z.eqb_spec (m_bits_number b) 0) as [Hb0 | Hb0]; [done |].
  destruct (Z.ltb_spec (m_bits_number a) (m_bits_number b)) as [Hab | Hab].
  - assert (Vec.size (m_blocks a) <= Vec.size (m_blocks b)) as Hlen.
    { rewrite Hna, Hnb. apply blocks_required_mono. lia. }
    rewrite Z.max_r, Z.min_l by done.
    destruct (scan_down _ _ _) as [r |] eqn:E.
    + apply scan_down_Some in E as (i & Hi & Hbody & Habove). intros _.
      unfold trips_ge in Hi.
      destruct (Z.eqb_spec (Vec.get (m_blocks b) i) (block_type 0)) as [| Hnz];
        [done |].
      unfold block_type in Hnz. rewrite Z.mod_0_l in Hnz by (pose proof pow2_W_pos; lia).
      pose proof (Vec_get_block (m_blocks b) i Hmb) as [? ?].
      apply Z.lt_le_incl, (magnitude_lt_blocks a b i); [done | done | lia | |].
      * intros k Hk. rewrite (Vec_get_out (m_blocks a)) by lia.
        destruct (Z.le_gt_cases k (Vec.size (m_blocks b) - 1)).
        -- specialize (Habove k ltac:(lia)). cbv beta in Habove.
           destruct (Z.eqb_spec (Vec.get (m_blocks b) k) (block_type 0)) as [-> |];
             [| done].
           unfold block_type. by rewrite Z.mod_0_l by (pose proof pow2_W_pos; lia).
        -- by rewrite Vec_get_out by lia.
      * rewrite (Vec_get_out (m_blocks a)) by lia. lia.
    + assert (forall k, Vec.size (m_blocks a) <= k ->
                        Vec.get (m_blocks a) k = Vec.get (m_blocks b) k) as Hout.
      { intros k Hk. rewrite (Vec_get_out (m_blocks a)) by lia.
        destruct (Z.le_gt_cases k (Vec.size (m_blocks b) - 1)).
        - assert (Vec.size (m_blocks b) - 1
                  - Z.of_nat (trips_ge (Vec.size (m_blocks b) - 1)
                                (Vec.size (m_blocks a))) < k
                  <= Vec.size (m_blocks b) - 1) as Hk' by (unfold trips_ge; lia).
          pose proof (proj1 (scan_down_None _ _ _) E k Hk') as Hbody.
          cbv beta in Hbody.
          destruct (Z.eqb_spec (Vec.get (m_blocks b) k) (block_type 0)) as [-> |];
            [| done].
          unfold block_type. by rewrite Z.mod_0_l by (pose proof pow2_W_pos; lia).
        - by rewrite Vec_get_out by lia. }
      destruct (scan_down _ _ (lt_at a b)) as [r |] eqn:E2.
      * apply scan_down_Some in E2 as (i & Hi & Hbody & Habove).
        apply lt_at_Some in Hbody as (Hdiff & ->). intros Hlt%Z.ltb_lt.
        unfold trips_gt in Hi.
        apply Z.lt_le_incl, (magnitude_lt_blocks a b i); [done | done | lia | | done].
        intros k Hk. destruct (Z.le_gt_cases k (Vec.size (m_blocks a) - 1)).
        -- apply lt_at_None, Habove. lia.
        -- apply Hout. lia.
      * assert (forall k, 0 < k -> Vec.get (m_blocks a) k = Vec.get (m_blocks b) k)
          as Hrest.
        { intros k Hk. destruct (Z.le_gt_cases k (Vec.size (m_blocks a) - 1)).
          - apply lt_at_None. apply (proj1 (scan_down_None _ _ _) E2).
            unfold trips_gt. lia.
          - apply Hout. lia. }
        destruct (Z.eqb_spec (Vec.get (m_blocks a) 0) (Vec.get (m_blocks b) 0))
          as [H0 | H0]; simpl.
        -- intros _. apply Z.eq_le_incl, magnitude_eq_blocks; [done | done |].
           intros k Hk. destruct (Z.eq_dec k 0) as [-> |]; [done |]. apply Hrest. lia.
        -- intros Hlt%Z.ltb_lt.
           by apply Z.lt_le_incl, (magnitude_lt_blocks a b 0).
  - assert (Vec.size (m_blocks b) <= Vec.size (m_blocks a)) as Hlen.
    { rewrite Hna, Hnb. apply blocks_required_mono. lia. }
    rewrite Z.max_l, Z.min_r by done.
    assert ((m_bits_number a <? m_bits_number b) = false) as Hltb
      by (apply Z.ltb_ge; lia).
    destruct (scan_down _ _ _) as [r |] eqn:E.
    + apply scan_down_Some in E as (i & Hi & Hbody & Habove).
      destruct (negb _) in Hbody; [| done]. injection Hbody as <-. done.
    + assert (forall k, Vec.size (m_blocks b) <= k ->
                        Vec.get (m_blocks a) k = Vec.get (m_blocks b) k) as Hout.
      { intros k Hk. rewrite (Vec_get_out (m_blocks b)) by lia.
        destruct (Z.le_gt_cases k (Vec.size (m_blocks a) - 1)).
        - assert (Vec.size (m_blocks a) - 1
                  - Z.of_nat (trips_ge (Vec.size (m_blocks a) - 1)
                                (Vec.size (m_blocks b))) < k
                  <= Vec.size (m_blocks a) - 1) as Hk' by (unfold trips_ge; lia).
          pose proof (proj1 (scan_down_None _ _ _) E k Hk') as Hbody.
          cbv beta in Hbody.
          destruct (Z.eqb_spec (Vec.get (m_blocks a) k) (block_type 0)) as [-> |];
            [| done].
          unfold block_type. by rewrite Z.mod_0_l by (pose proof pow2_W_pos; lia).
        - by rewrite Vec_get_out by lia. }
      destruct (scan_down _ _ (lt_at a b)) as [r |] eqn:E2.
      * apply scan_down_Some in E2 as (i & Hi & Hbody & Habove).
        apply lt_at_Some in Hbody as (Hdiff & ->). intros Hlt%Z.ltb_lt.
        unfold trips_gt in Hi.
        apply Z.lt_le_incl, (magnitude_lt_blocks a b i); [done | done | lia | | done].
        intros k Hk. destruct (Z.le_gt_cases k (Vec.size (m_blocks b) - 1)).
        -- apply lt_at_None, Habove. lia.
        -- apply Hout. lia.
      * assert (forall k, 0 < k -> Vec.get (m_blocks a) k = Vec.get (m_blocks b) k)
          as Hrest.
        { intros k Hk. destruct (Z.le_gt_cases k (Vec.size (m_blocks b) - 1)).
          - apply lt_at_None. apply (proj1 (scan_down_None _ _ _) E2).
            unfold trips_gt. lia.
          - apply Hout. lia. }
        destruct (Z.eqb_spec (Vec.get (m_blocks a) 0) (Vec.get (m_blocks b) 0))
          as [H0 | H0]; simpl.
        -- done.
        -- intros Hlt%Z.ltb_lt.
           by apply Z.lt_le_incl, (magnitude_lt_blocks a b 0).
Qed.

Lemma equal_magnitude_and_size (a b : dynamic_bitset) :
  invariant a -> invariant b ->
  magnitude a = magnitude b -> size a = size b -> a = b.
Proof.
  intros Ha Hb Hmag Hsize. apply bitset_ext; [done | done | done |].
  intros p Hp.
  rewrite <- (testbit_magnitude a), <- (testbit_magnitude b), Hmag
    by ((by apply invariant_blocks) || lia).
  done.
Qed.

Lemma op_lt_iff (a b : dynamic_bitset) :
  invariant a -> invariant b ->
  op_lt a b = true
  <-> magnitude a < magnitude b \/ (magnitude a = magnitude b /\ size a < size b).
Proof.
  intros Ha Hb. split.
  - intros Hlt. pose proof (op_lt_le_magnitude a b Ha Hb Hlt) as Hle.
    destruct (Z.eq_dec (magnitude a) (magnitude b)) as [Hmag | Hmag]; [| left; lia].
    right. split; [done |].
    destruct (Z.lt_trichotomy (size a) (size b)) as [? | [Hs | Hs]]; [done | |].
    + pose proof (equal_magnitude_and_size a b Ha Hb Hmag Hs) as ->.
      destruct (op_lt_trichotomy b b Hb Hb) as [H | [H | H]]; destruct H as (? & ? & ?);
        congruence.
    + pose proof (op_lt_tie b a Hb Ha (eq_sym Hmag) Hs) as Hba.
      destruct (op_lt_trichotomy a b Ha Hb) as [H | [H | H]]; destruct H as (? & ? & ?);
        congruence.
  - intros [Hmag | [Hmag Hs]]; [| by apply op_lt_tie].
    destruct (op_lt_trichotomy a b Ha Hb) as [H | [H | H]]; destruct H as (? & Hba & Heq);
      [done | |].
    + pose proof (op_lt_le_magnitude b a Hb Ha Hba). lia.
    + apply op_eq_eq in Heq. subst b. lia.
Qed.

(** Extra X6.  For bitsets that satisfy the class invariant, of any
    sizes, [a < b] holds exactly when the unsigned number the blocks of [a]
    represent is below that of [b], or the two are equal and [a] is the
    shorter; [a <= b] is [a < b || a == b], and [a >= b] is
    [a > b || a == b]. *)
Theorem less_than_orders_by_value_then_size (a b : dynamic_bitset) :
  invariant a -> invariant b ->
  (op_lt a b = true
   <-> magnitude a < magnitude b \/ (magnitude a = magnitude b /\ size a < size b))
  /\ op_le a b = op_lt a b || op_eq a b
  /\ op_ge a b = op_gt a b || op_eq a b.
Proof.
  intros Ha Hb. split; [by apply op_lt_iff |].
  unfold op_le, op_ge, op_gt.
  destruct (op_lt_trichotomy a b Ha Hb) as [H | [H | H]];
    destruct H as (-> & -> & ->); done.
Qed.

(** Extra X7.  On bitsets that satisfy the class invariant, [<] is a
    strict order and [<=] an order: [<] is irreflexive and transitive,
    [<=] is transitive, and [a <= b] with [b <= a] gives [a == b]. *)
Theorem less_than_is_a_strict_order (a b c : dynamic_bitset) :
  invariant a -> invariant b -> invariant c ->
  op_lt a a = false
  /\ (op_lt a b = true -> op_lt b c = true -> op_lt a c = true)
  /\ (op_le a b = true -> op_le b c = true -> op_le a c = true)
  /\ (op_le a b = true -> op_le b a = true -> op_eq a b = true).
Proof.
  intros Ha Hb Hc. split; [| split; [| split]].
  - destruct (op_lt a a) eqn:E; [| done]. apply op_lt_iff in E; [lia | done | done].
  - rewrite !op_lt_iff by done. lia.
  - unfold op_le. rewrite !negb_true_iff. intros Hba Hcb.
    destruct (op_lt c a) eqn:Hca; [| done]. exfalso.
    apply op_lt_iff in Hca; [| done | done].
    assert (~ (magnitude b < magnitude a
               \/ (magnitude b = magnitude a /\ size b < size a))) as H1.
    { intros H. apply op_lt_iff in H; [congruence | done | done]. }
    assert (~ (magnitude c < magnitude b
               \/ (magnitude c = magnitude b /\ size c < size b))) as H2.
    { intros H. apply op_lt_iff in H; [congruence | done | done]. }
    lia.
  - unfold op_le. rewrite !negb_true_iff. intros Hba Hab.
    destruct (op_lt_trichotomy a b Ha Hb) as [H | [H | H]]; destruct H as (? & ? & ?);
      congruence.
Qed.

(** Extra X8.  For bitsets that satisfy the class invariant, [a == b],
    which compares the sizes and the blocks, holds exactly when the sizes
    are equal and [test] gives the same value at every position; [a != b]
    is its negation. *)
Theorem equality_is_extensional (a b : dynamic_bitset) :
  invariant a -> invariant b ->
  (op_eq a b = true
   <-> size a = size b /\ forall p, 0 <= p < size a -> test a p = test b p)
  /\ (op_ne a b = true
      <-> size a <> size b \/ exists p, 0 <= p < size a /\ test a p <> test b p).
Proof.
  intros Ha Hb.
  assert (op_eq a b = true
          <-> size a = size b /\ forall p, 0 <= p < size a -> test a p = test b p)
    as Heq.
  { rewrite op_eq_eq. split.
    - by intros ->.
    - intros (Hs & Ht). apply bitset_ext; [done | done | done |].
      intros p Hp. specialize (Ht p Hp).
      rewrite !test_spec in Ht by (done || lia). by injection Ht. }
  split; [done |]. unfold op_ne. rewrite negb_true_iff. split.
  - intros Hne. destruct (Z.eq_dec (size a) (size b)) as [Hs | Hs]; [| by left].
    right.
    assert (exists p, 0 <= p < size a /\ bit a p <> bit b p) as (p & Hp & Hd).
    { destruct (decide (Exists (fun p => bit a p <> bit b p)
                          (seqZ 0 (size a)))) as [Hex | Hno].
      - apply Exists_exists in Hex as (p & Hin & Hd). exists p.
        apply elem_of_seqZ in Hin. split; [lia | done].
      - exfalso. assert (op_eq a b = true) as Ht; [| congruence].
        apply Heq. split; [done |]. intros p Hp.
        rewrite !test_spec by (done || lia). f_equal.
        destruct (decide (bit a p = bit b p)) as [| Hd]; [done |].
        exfalso. apply Hno, Exists_exists. exists p. split; [| done].
        apply elem_of_seqZ. lia. }
    exists p. split; [done |]. rewrite !test_spec by (done || lia). congruence.
  - intros Hor. destruct (op_eq a b) eqn:E; [| done]. exfalso.
    pose proof (proj1 Heq eq_refl) as (Hs' & Ht).
    destruct Hor as [Hs | (p & Hp & Hd)]; [done |]. by apply Hd, Ht.
Qed.

End OrderByValue.

Section OrderByValueWitness.

#[local] Existing Instance uint8.

Lemma less_than_orders_by_value_then_size_witness :
  invariant sample /\ invariant (mk_bitset [157; 5; 0] 17)
  /\ (op_lt sample (mk_bitset [157; 5; 0] 17) = true
      <-> magnitude sample < magnitude (mk_bitset [157; 5; 0] 17)
          \/ (magnitude sample = magnitude (mk_bitset [157; 5; 0] 17)
              /\ size sample < size (mk_bitset [157; 5; 0] 17)))
  /\ op_le sample (mk_bitset [157; 5; 0] 17)
     = op_lt sample (mk_bitset [157; 5; 0] 17) || op_eq sample (mk_bitset [157; 5; 0] 17)
  /\ op_ge sample (mk_bitset [157; 5; 0] 17)
     = op_gt sample (mk_bitset [157; 5; 0] 17) || op_eq sample (mk_bitset [157; 5; 0] 17).
Proof.
  assert (invariant (mk_bitset [157; 5; 0] 17)) as Hb.
  { apply check_consistency_spec; [| reflexivity].
    split; [| simpl; lia]. repeat constructor; vm_compute; congruence. }
  split; [exact sample_invariant |]. split; [exact Hb |].
  exact (less_than_orders_by_value_then_size sample (mk_bitset [157; 5; 0] 17)
           sample_invariant Hb).
Defined.

Lemma less_than_is_a_strict_order_witness :
  invariant (mk_bitset [3] 5) /\ invariant sample /\ invariant (mk_bitset [157; 5; 0] 17)
  /\ op_lt (mk_bitset [3] 5) (mk_bitset [3] 5) = false
  /\ (op_lt (mk_bitset [3] 5) sample = true ->
      op_lt sample (mk_bitset [157; 5; 0] 17) = true ->
      op_lt (mk_bitset [3] 5) (mk_bitset [157; 5; 0] 17) = true)
  /\ (op_le (mk_bitset [3] 5) sample = true ->
      op_le sample (mk_bitset [157; 5; 0] 17) = true ->
      op_le (mk_bitset [3] 5) (mk_bitset [157; 5; 0] 17) = true)
  /\ (op_le (mk_bitset [3] 5) sample = true -> op_le sample (mk_bitset [3] 5) = true ->
      op_eq (mk_bitset [3] 5) sample = true).
Proof.
  assert (invariant (mk_bitset [3] 5)) as Ha.
  { apply check_consistency_spec; [| reflexivity].
    split; [| simpl; lia]. repeat constructor; vm_compute; congruence. }
  assert (invariant (mk_bitset [157; 5; 0] 17)) as Hc.
  { apply check_consistency_spec; [| reflexivity].
    split; [| simpl; lia]. repeat constructor; vm_compute; congruence. }
  split; [exact Ha |]. split; [exact sample_invariant |]. split; [exact Hc |].
  exact (less_than_is_a_strict_order (mk_bitset [3] 5) sample (mk_bitset [157; 5; 0] 17)
           Ha sample_invariant Hc).
Defined.

Lemma equality_is_extensional_witness :
  invariant sample /\ invariant (mk_bitset [223; 5] 11)
  /\ (op_eq sample (mk_bitset [223; 5] 11) = true
      <-> size sample = size (mk_bitset [223; 5] 11)
          /\ forall p, 0 <= p < size sample ->
                       test sample p = test (mk_bitset [223; 5] 11) p)
  /\ (op_ne sample (mk_bitset [223; 5] 11) = true
      <-> size sample <> size (mk_bitset [223; 5] 11)
          \/ exists p, 0 <= p < size sample
                       /\ test sample p <> test (mk_bitset [223; 5] 11) p).
Proof.
  assert (invariant (mk_bitset [223; 5] 11)) as Hb.
  { apply check_consistency_spec; [| reflexivity].
    split; [| simpl; lia]. repeat constructor; vm_compute; congruence. }
  split; [exact sample_invariant |]. split; [exact Hb |].
  exact (equality_is_extensional sample (mk_bitset [223; 5] 11) sample_invariant Hb).
Defined.

End OrderByValueWitness.

Section BitwiseOperators.

Context {Block : UnsignedBlock}.

(** Extra X9.  For bitsets of equal size that satisfy the class
    invariant, [a & b], [a | b], [a ^ b] and [a - b] are defined, have the
    size of the operands, and [test] on them gives the conjunction, the
    disjunction, the exclusive or and the difference of the operands'
    bits. *)
Theorem bitwise_operators_are_pointwise (a b : dynamic_bitset) :
  invariant a -> invariant b -> size a = size b ->
  exists x o e d,
    op_and a b = Some x /\ op_or a b = Some o
    /\ op_xor a b = Some e /\ op_sub a b = Some d
    /\ size x = size a /\ size o = size a /\ size e = size a /\ size d = size a
    /\ forall p, 0 <= p < size a ->
         exists ba bb,
           test a p = Some ba /\ test b p = Some bb
           /\ test x p = Some (ba && bb)
           /\ test o p = Some (ba || bb)
           /\ test e p = Some (xorb ba bb)
           /\ test d p = Some (ba && negb bb).
Proof.
  intros Ha Hb Hs.
  destruct (op_and_assign_spec a b Ha Hb Hs) as (x & Hx & Hxi & Hxs & Hxb).
  destruct (op_or_assign_spec a b Ha Hb Hs) as (o & Ho & Hoi & Hos & Hob).
  destruct (op_xor_assign_spec a b Ha Hb Hs) as (e & He & Hei & Hes & Heb).
  destruct (op_sub_assign_spec a b Ha Hb Hs) as (d & Hd & Hdi & Hds & Hdb).
  exists x, o, e, d. repeat (split; [done |]).
  intros p Hp. exists (bit a p), (bit b p).
  rewrite !test_spec by (done || lia).
  by rewrite Hxb, Hob, Heb, Hdb.
Qed.

Lemma op_not_spec (v : dynamic_bitset) :
  invariant v ->
  invariant (op_not v) /\ size (op_not v) = size v
  /\ forall p, 0 <= p < size v -> bit (op_not v) p = negb (bit v p).
Proof.
  intros Hv. destruct (flip_all_spec v Hv) as (Hinv & Hsz & Hbits).
  split; [done |]. split; [done |]. intros p Hp. unfold op_not. rewrite Hbits.
  destruct (Z.leb_spec 0 p), (Z.ltb_spec p (size v)); (done || lia).
Qed.

(** Extra X10.  For bitsets of equal size that satisfy the class
    invariant, the operators obey the laws of a Boolean algebra of bit
    vectors: complement is an involution, De Morgan's laws hold,
    [a - b] is [a & ~b], [a ^ b] is [(a | b) - (a & b)], [a ^ a] is the
    reset bitset, and [&], [|], [^] are commutative. *)
Theorem bitwise_operator_laws (a b : dynamic_bitset) :
  invariant a -> invariant b -> size a = size b ->
  op_not (op_not a) = a
  /\ (exists x, op_and a b = Some x /\ op_or (op_not a) (op_not b) = Some (op_not x))
  /\ (exists o, op_or a b = Some o /\ op_and (op_not a) (op_not b) = Some (op_not o))
  /\ op_sub a b = op_and a (op_not b)
  /\ (exists x o, op_and a b = Some x /\ op_or a b = Some o /\ op_xor a b = op_sub o x)
  /\ op_xor a a = Some (reset_all a)
  /\ op_and a b = op_and b a /\ op_or a b = op_or b a /\ op_xor a b = op_xor b a.
Proof.
  intros Ha Hb Hs.
  destruct (op_not_spec a Ha) as (Hnai & Hnas & Hnab).
  destruct (op_not_spec b Hb) as (Hnbi & Hnbs & Hnbb).
  destruct (op_and_assign_spec a b Ha Hb Hs) as (x & Hx & Hxi & Hxs & Hxb).
  destruct (op_or_assign_spec a b Ha Hb Hs) as (o & Ho & Hoi & Hos & Hob).
  destruct (op_xor_assign_spec a b Ha Hb Hs) as (e & He & Hei & Hes & Heb).
  destruct (op_sub_assign_spec a b Ha Hb Hs) as (d & Hd & Hdi & Hds & Hdb).
  destruct (op_not_spec x Hxi) as (Hnxi & Hnxs & Hnxb).
  destruct (op_not_spec o Hoi) as (Hnoi & Hnos & Hnob).
  unfold op_and, op_or, op_xor, op_sub.
  split; [| split; [| split; [| split; [| split; [| split; [| split; [| split]]]]]]].
  - destruct (op_not_spec (op_not a) Hnai) as (Hi & Hsz & Hbits).
    apply bitset_ext; [done | done | congruence |].
    intros p Hp. rewrite Hbits, Hnab by lia. apply negb_involutive.
  - exists x. split; [done |].
    destruct (op_or_assign_spec (op_not a) (op_not b)) as (r & Hr & Hri & Hrs & Hrb);
      [done | done | congruence |].
    rewrite Hr. f_equal. apply bitset_ext; [done | done | congruence |].
    intros p Hp. rewrite Hrb, Hnxb, Hnab, Hnbb, Hxb by lia.
    by destruct (bit a p), (bit b p).
  - exists o. split; [done |].
    destruct (op_and_assign_spec (op_not a) (op_not b)) as (r & Hr & Hri & Hrs & Hrb);
      [done | done | congruence |].
    rewrite Hr. f_equal. apply bitset_ext; [done | done | congruence |].
    intros p Hp. rewrite Hrb, Hnob, Hnab, Hnbb, Hob by lia.
    by destruct (bit a p), (bit b p).
  - destruct (op_and_assign_spec a (op_not b)) as (r & Hr & Hri & Hrs & Hrb);
      [done | done | congruence |].
    rewrite Hd, Hr. f_equal. apply bitset_ext; [done | done | congruence |].
    intros p Hp. rewrite Hdb, Hrb, Hnbb by lia. done.
  - exists x, o. split; [done |]. split; [done |].
    destruct (op_sub_assign_spec o x) as (r & Hr & Hri & Hrs & Hrb);
      [done | done | congruence |].
    rewrite He, Hr. f_equal. apply bitset_ext; [done | done | congruence |].
    intros p Hp. rewrite Heb, Hrb, Hob, Hxb.
    by destruct (bit a p), (bit b p).
  - destruct (op_xor_assign_spec a a) as (r & Hr & Hri & Hrs & Hrb); [done .. |].
    destruct (reset_all_spec a Ha) as (Hzi & Hzs & Hzb).
    rewrite Hr. f_equal. apply bitset_ext; [done | done | congruence |].
    intros p Hp. rewrite Hrb, Hzb. by destruct (bit a p).
  - destruct (op_and_assign_spec b a) as (r & Hr & Hri & Hrs & Hrb); [done .. |].
    rewrite Hx, Hr. f_equal. apply bitset_ext; [done | done | congruence |].
    intros p Hp. rewrite Hxb, Hrb. apply andb_comm.
  - destruct (op_or_assign_spec b a) as (r & Hr & Hri & Hrs & Hrb); [done .. |].
    rewrite Ho, Hr. f_equal. apply bitset_ext; [done | done | congruence |].
    intros p Hp. rewrite Hob, Hrb. apply orb_comm.
  - destruct (op_xor_assign_spec b a) as (r & Hr & Hri & Hrs & Hrb); [done .. |].
    rewrite He, Hr. f_equal. apply bitset_ext; [done | done | congruence |].
    intros p Hp. rewrite Heb, Hrb. apply xorb_comm.
Qed.

End BitwiseOperators.

Section BitwiseOperatorsWitness.

#[local] Existing Instance uint8.

Lemma bitwise_operators_are_pointwise_witness :
  invariant sample /\ invariant (mk_bitset [223; 5] 11)
  /\ size sample = size (mk_bitset [223; 5] 11)
  /\ exists x o e d,
       op_and sample (mk_bitset [223; 5] 11) = Some x
       /\ op_or sample (mk_bitset [223; 5] 11) = Some o
       /\ op_xor sample (mk_bitset [223; 5] 11) = Some e
       /\ op_sub sample (mk_bitset [223; 5] 11) = Some d
       /\ size x = size sample /\ size o = size sample
       /\ size e = size sample /\ size d = size sample
       /\ forall p, 0 <= p < size sample ->
            exists ba bb,
              test sample p = Some ba /\ test (mk_bitset [223; 5] 11) p = Some bb
              /\ test x p = Some (ba && bb)
              /\ test o p = Some (ba || bb)
              /\ test e p = Some (xorb ba bb)
              /\ test d p = Some (ba && negb bb).
Proof.
  assert (invariant (mk_bitset [223; 5] 11)) as Hb.
  { apply check_consistency_spec; [| reflexivity].
    split; [| simpl; lia]. repeat constructor; vm_compute; congruence. }
  split; [exact sample_invariant |]. split; [exact Hb |]. split; [reflexivity |].
  exact (bitwise_operators_are_pointwise sample (mk_bitset [223; 5] 11)
           sample_invariant Hb eq_refl).
Defined.

Lemma bitwise_operator_laws_witness :
  invariant sample /\ invariant (mk_bitset [223; 5] 11)
  /\ size sample = size (mk_bitset [223; 5] 11)
  /\ op_not (op_not sample) = sample
  /\ (exists x, op_and sample (mk_bitset [223; 5] 11) = Some x
                /\ op_or (op_not sample) (op_not (mk_bitset [223; 5] 11))
                   = Some (op_not x))
  /\ (exists o, op_or sample (mk_bitset [223; 5] 11) = Some o
                /\ op_and (op_not sample) (op_not (mk_bitset [223; 5] 11))
                   = Some (op_not o))
  /\ op_sub sample (mk_bitset [223; 5] 11)
     = op_and sample (op_not (mk_bitset [223; 5] 11))
  /\ (exists x o, op_and sample (mk_bitset [223; 5] 11) = Some x
                  /\ op_or sample (mk_bitset [223; 5] 11) = Some o
                  /\ op_xor sample (mk_bitset [223; 5] 11) = op_sub o x)
  /\ op_xor sample sample = Some (reset_all sample)
  /\ op_and sample (mk_bitset [223; 5] 11) = op_and (mk_bitset [223; 5] 11) sample
  /\ op_or sample (mk_bitset [223; 5] 11) = op_or (mk_bitset [223; 5] 11) sample
  /\ op_xor sample (mk_bitset [223; 5] 11) = op_xor (mk_bitset [223; 5] 11) sample.
Proof.
  assert (invariant (mk_bitset [223; 5] 11)) as Hb.
  { apply check_consistency_spec; [| reflexivity].
    split; [| simpl; lia]. repeat constructor; vm_compute; congruence. }
  split; [exact sample_invariant |]. split; [exact Hb |]. split; [reflexivity |].
  exact (bitwise_operator_laws sample (mk_bitset [223; 5] 11)
           sample_invariant Hb eq_refl).
Defined.

End BitwiseOperatorsWitness.

Section CountLaws.

Context {Block : UnsignedBlock}.

Lemma count_true_bounds (f : Z -> bool) (n : nat) (lo : Z) :
  0 <= count_true f n lo <= Z.of_nat n.
Proof.
  revert lo. induction n as [| n IH]; intros lo; cbn [count_true]; [lia |].
  specialize (IH (lo + 1)). destruct (f lo); simpl; lia.
Qed.

Lemma count_true_zero (f : Z -> bool) (n : nat) (lo : Z) :
  count_true f n lo = 0 <-> forall i, lo <= i < lo + Z.of_nat n -> f i = false.
Proof.
  split; [| apply count_true_false].
  revert lo. induction n as [| n IH]; intros lo; cbn [count_true]; [intros; lia |].
  intros H i Hi. pose proof (count_true_bounds f n (lo + 1)).
  destruct (f lo) eqn:E; simpl in H; [lia |].
  destruct (Z.eq_dec i lo) as [-> |]; [done |]. apply (IH (lo + 1)); lia.
Qed.

Lemma count_true_negb (f : Z -> bool) (n : nat) (lo : Z) :
  count_true (fun i => negb (f i)) n lo = Z.of_nat n - count_true f n lo.
Proof.
  revert lo. induction n as [| n IH]; intros lo; cbn [count_true]; [lia |].
  rewrite IH. destruct (f lo); simpl; lia.
Qed.

Lemma count_true_full (f : Z -> bool) (n : nat) (lo : Z) :
  count_true f n lo = Z.of_nat n <-> forall i, lo <= i < lo + Z.of_nat n -> f i = true.
Proof.
  pose proof (count_true_negb f n lo) as Hneg.
  pose proof (count_true_zero (fun i => negb (f i)) n lo) as Hz.
  split.
  - intros H i Hi. apply negb_false_iff, Hz; [lia | done].
  - intros H. assert (count_true (fun i => negb (f i)) n lo = 0); [| lia].
    apply Hz. intros i Hi. by rewrite H.
Qed.

Lemma count_true_or_and (f g : Z -> bool) (n : nat) (lo : Z) :
  count_true (fun i => f i || g i) n lo + count_true (fun i => f i && g i) n lo
  = count_true f n lo + count_true g n lo.
Proof.
  revert lo. induction n as [| n IH]; intros lo; cbn [count_true]; [done |].
  specialize (IH (lo + 1)). destruct (f lo), (g lo); simpl; lia.
Qed.

(** Extra X11.  For a bitset that satisfies the class invariant and any
    choice of the counting primitives, [count] is between 0 and the size;
    it is 0 exactly when [none] holds, positive exactly when [any] holds,
    the size exactly when [all] holds; and the count of the complement is
    the size minus the count. *)
Theorem count_agrees_with_predicates (v : dynamic_bitset) :
  invariant v ->
  forall tools : Toolchain,
    exists c,
      @count Block tools v = Some c
      /\ 0 <= c <= size v
      /\ (c = 0 <-> none v = true)
      /\ (0 < c <-> any v = true)
      /\ (c = size v <-> all v = true)
      /\ @count Block tools (op_not v) = Some (size v - c).
Proof.
  intros Hv tools. pose proof (invariant_size_nonneg v Hv) as Hs.
  fold (size v) in Hs.
  exists (count_true (bit v) (Z.to_nat (size v)) 0).
  pose proof (count_true_bounds (bit v) (Z.to_nat (size v)) 0) as Hb.
  assert (count_true (bit v) (Z.to_nat (size v)) 0 = 0 <-> none v = true) as Hnone.
  { rewrite count_true_zero, none_bits by done. split.
    - intros H p. destruct (bit v p) eqn:E; [| done].
      pose proof (bit_true_in_range v p Hv E). rewrite H in E; [done | lia].
    - intros H p _. apply H. }
  split; [by apply count_spec |]. split; [lia |]. split; [done |].
  split; [| split].
  - unfold none in Hnone. rewrite negb_true_iff in Hnone.
    destruct (any v); split; intros H; try done.
    + destruct (Z.eq_dec (count_true (bit v) (Z.to_nat (size v)) 0) 0) as [H0 |];
        [| lia].
      apply Hnone in H0. done.
    + assert (count_true (bit v) (Z.to_nat (size v)) 0 = 0) by by apply Hnone.
      lia.
  - rewrite all_bits by done.
    pose proof (count_true_full (bit v) (Z.to_nat (size v)) 0) as Hfull.
    rewrite Z2Nat.id in Hfull by done. rewrite Hfull.
    split; intros H p Hp; apply H; lia.
  - destruct (op_not_spec v Hv) as (Hi & Hsz & Hbits).
    rewrite count_spec, Hsz by done. f_equal.
    pose proof (count_true_negb (bit v) (Z.to_nat (size v)) 0) as Hneg.
    rewrite Z2Nat.id in Hneg by done. rewrite <- Hneg. apply count_true_ext.
    intros p Hp. apply Hbits. lia.
Qed.

(** Extra X12.  For bitsets of equal size that satisfy the class
    invariant and any choice of the counting primitives, the counts of
    [a | b] and [a & b] add up to the counts of [a] and [b]. *)
Theorem count_of_union_and_intersection (a b : dynamic_bitset) :
  invariant a -> invariant b -> size a = size b ->
  forall tools : Toolchain,
    exists x o ca cb cx co,
      op_and a b = Some x /\ op_or a b = Some o
      /\ @count Block tools a = Some ca /\ @count Block tools b = Some cb
      /\ @count Block tools x = Some cx /\ @count Block tools o = Some co
      /\ co + cx = ca + cb.
Proof.
  intros Ha Hb Hs tools.
  destruct (op_and_assign_spec a b Ha Hb Hs) as (x & Hx & Hxi & Hxs & Hxb).
  destruct (op_or_assign_spec a b Ha Hb Hs) as (o & Ho & Hoi & Hos & Hob).
  exists x, o. eexists _, _, _, _.
  split; [done |]. split; [done |].
  rewrite !count_spec by done. repeat (split; [done |]).
  rewrite Hxs, Hos, <- Hs.
  rewrite <- (count_true_or_and (bit a) (bit b)). f_equal.
  - apply count_true_ext. intros p _. apply Hob.
  - apply count_true_ext. intros p _. apply Hxb.
Qed.

End CountLaws.

Section CountLawsWitness.

#[local] Existing Instance uint8.

Lemma count_agrees_with_predicates_witness :
  invariant sample
  /\ forall tools : Toolchain,
       exists c,
         @count uint8 tools sample = Some c
         /\ 0 <= c <= size sample
         /\ (c = 0 <-> none sample = true)
         /\ (0 < c <-> any sample = true)
         /\ (c = size sample <-> all sample = true)
         /\ @count uint8 tools (op_not sample) = Some (size sample - c).
Proof.
  split; [exact sample_invariant |].
  exact (count_agrees_with_predicates sample sample_invariant).
Defined.

Lemma count_of_union_and_intersection_witness :
  invariant sample /\ invariant (mk_bitset [223; 5] 11)
  /\ size sample = size (mk_bitset [223; 5] 11)
  /\ forall tools : Toolchain,
       exists x o ca cb cx co,
         op_and sample (mk_bitset [223; 5] 11) = Some x
         /\ op_or sample (mk_bitset [223; 5] 11) = Some o
         /\ @count uint8 tools sample = Some ca
         /\ @count uint8 tools (mk_bitset [223; 5] 11) = Some cb
         /\ @count uint8 tools x = Some cx /\ @count uint8 tools o = Some co
         /\ co + cx = ca + cb.
Proof.
  assert (invariant (mk_bitset [223; 5] 11)) as Hb.
  { apply check_consistency_spec; [| reflexivity].
    split; [| simpl; lia]. repeat constructor; vm_compute; congruence. }
  split; [exact sample_invariant |]. split; [exact Hb |]. split; [reflexivity |].
  exact (count_of_union_and_intersection sample (mk_bitset [223; 5] 11)
           sample_invariant Hb eq_refl).
Defined.

End CountLawsWitness.

Section RangeAndSizeChanges.

Context {Block : UnsignedBlock}.

(** Extra X13.  On a bitset that satisfies the class invariant, for a
    range [pos, pos + len) within its size, [set(pos, len, value)],
    [reset(pos, len)] and [flip(pos, len)] write [value], 0 and the
    negation to the bits of the range and leave the other bits and the size
    as they were; a second [flip(pos, len)] restores the bitset; and
    [set()], [reset()], [flip()] do the same to every bit. *)
Theorem range_writes (v : dynamic_bitset) (pos len : Z) (value : bool) :
  invariant v -> range_pre v pos len ->
  exists s r f,
    set_range v pos len value = Some s
    /\ reset_range v pos len = Some r
    /\ flip_range v pos len = Some f
    /\ flip_range f pos len = Some v
    /\ size s = size v /\ size r = size v /\ size f = size v
    /\ size (set_all v) = size v /\ size (reset_all v) = size v
    /\ size (flip_all v) = size v
    /\ forall p, 0 <= p < size v ->
         exists old,
           test v p = Some old
           /\ test s p = Some (if (pos <=? p) && (p <? pos + len) then value else old)
           /\ test r p = Some (if (pos <=? p) && (p <? pos + len) then false else old)
           /\ test f p = Some (if (pos <=? p) && (p <? pos + len) then negb old else old)
           /\ test (set_all v) p = Some true
           /\ test (reset_all v) p = Some false
           /\ test (flip_all v) p = Some (negb old).
Proof.
  intros Hv Hpre.
  destruct (set_range_spec v pos len value Hv Hpre) as (s & Hs & Hsi & Hss & Hsb).
  destruct (set_range_spec v pos len false Hv Hpre) as (r & Hr & Hri & Hrs & Hrb).
  destruct (flip_range_spec v pos len Hv Hpre) as (f & Hf & Hfi & Hfs & Hfb).
  destruct (set_all_spec v Hv) as (Hai & Has & Hab).
  destruct (reset_all_spec v Hv) as (Hzi & Hzs & Hzb).
  destruct (flip_all_spec v Hv) as (Hni & Hns & Hnb).
  exists s, r, f. split; [done |]. split; [done |]. split; [done |]. split.
  { destruct (flip_range_spec f pos len) as (g & Hg & Hgi & Hgs & Hgb); [done | |].
    - unfold range_pre in *. by rewrite Hfs.
    - rewrite Hg. f_equal. apply bitset_ext; [done | done | congruence |].
      intros p Hp. rewrite Hgb, Hfb.
      destruct ((pos <=? p) && (p <? pos + len)); [apply negb_involutive | done]. }
  repeat (split; [done |]).
  intros p Hp. exists (bit v p).
  rewrite !test_spec by (done || lia).
  rewrite Hsb, Hrb, Hfb, Hab, Hzb, Hnb.
  destruct (Z.leb_spec 0 p), (Z.ltb_spec p (size v)); try lia. simpl.
  by destruct ((pos <=? p) && (p <? pos + len)).
Qed.

(** Extra X14.  On a bitset that satisfies the class invariant,
    [resize(nbits, value)] gives a bitset of size [nbits] that keeps the
    bits below the old size and has [value] at the new positions;
    resizing to the current size changes nothing, and resizing to 0 gives
    what [clear] gives. *)
Theorem resize_keeps_and_fills (v : dynamic_bitset) (nbits : Z) (value : bool) :
  invariant v -> 0 <= nbits ->
  (exists w, resize v nbits value = Some w
             /\ size w = nbits
             /\ forall p, 0 <= p < nbits ->
                  test w p = if p <? size v then test v p else Some value)
  /\ resize v (size v) value = Some v
  /\ resize v 0 value = Some (clear v).
Proof.
  intros Hv Hn. split; [| split].
  - destruct (resize_spec v nbits value Hv Hn) as (w & Hw & Hwi & Hws & Hwb).
    exists w. split; [done |]. split; [done |]. intros p Hp.
    rewrite test_spec, Hwb by (done || lia).
    destruct (Z.ltb_spec p (size v)); [| done]. by rewrite test_spec by (done || lia).
  - unfold resize, size. by rewrite Z.eqb_refl.
  - destruct (resize_spec v 0 value Hv) as (w & Hw & Hwi & Hws & Hwb); [done |].
    destruct (clear_spec v) as (Hci & Hcs).
    rewrite Hw. f_equal. apply bitset_ext; [done | done | congruence |].
    intros p Hp. lia.
Qed.

(** Extra X15.  On a bitset that satisfies the class invariant,
    [push_back(value)] adds one position, with [value], above the others
    and leaves those as they were; it gives what [resize(size + 1, value)]
    gives; [pop_back] undoes it; and [pop_back] on an empty bitset leaves
    it empty. *)
Theorem push_back_then_pop_back (v : dynamic_bitset) (value : bool) :
  invariant v ->
  (exists w, push_back v value = Some w
             /\ size w = size v + 1
             /\ test w (size v) = Some value
             /\ (forall p, 0 <= p < size v -> test w p = test v p)
             /\ resize v (size v + 1) value = Some w
             /\ pop_back w = Some v)
  /\ (size v = 0 -> pop_back v = Some v).
Proof.
  intros Hv. pose proof (invariant_size_nonneg v Hv) as Hs. fold (size v) in Hs.
  split.
  - destruct (push_back_spec v value Hv) as (w & Hw & Hwi & Hws & Hwb).
    exists w. split; [done |]. split; [done |]. split; [| split; [| split]].
    + rewrite test_spec, Hwb, Z.eqb_refl by (done || lia). done.
    + intros p Hp. rewrite !test_spec, Hwb by (done || lia).
      destruct (Z.eqb_spec p (size v)); [lia | done].
    + destruct (resize_spec v (size v + 1) value Hv) as (u & Hu & Hui & Hus & Hub);
        [lia |].
      rewrite Hu. f_equal. apply bitset_ext; [done | done | congruence |].
      intros p Hp. rewrite Hub, Hwb by lia.
      destruct (Z.eqb_spec p (size v)), (Z.ltb_spec p (size v)); (done || lia).
    + destruct (pop_back_spec w Hwi) as (u & Hu & Hui & Hus & Hub).
      rewrite Hu. f_equal. apply bitset_ext; [done | done | lia |].
      intros p Hp. rewrite Hub, Hwb by lia.
      destruct (Z.eqb_spec p (size v)); [lia | done].
  - intros H0. destruct (pop_back_spec v Hv) as (u & Hu & Hui & Hus & Hub).
    rewrite Hu. f_equal. apply bitset_ext; [done | done | lia |].
    intros p Hp. lia.
Qed.

End RangeAndSizeChanges.

Section RangeAndSizeChangesWitness.

#[local] Existing Instance uint8.

Lemma range_writes_witness :
  invariant sample /\ range_pre sample 3 7
  /\ exists s r f,
       set_range sample 3 7 true = Some s
       /\ reset_range sample 3 7 = Some r
       /\ flip_range sample 3 7 = Some f
       /\ flip_range f 3 7 = Some sample
       /\ size s = size sample /\ size r = size sample /\ size f = size sample
       /\ size (set_all sample) = size sample /\ size (reset_all sample) = size sample
       /\ size (flip_all sample) = size sample
       /\ forall p, 0 <= p < size sample ->
            exists old,
              test sample p = Some old
              /\ test s p = Some (if (3 <=? p) && (p <? 3 + 7) then true else old)
              /\ test r p = Some (if (3 <=? p) && (p <? 3 + 7) then false else old)
              /\ test f p = Some (if (3 <=? p) && (p <? 3 + 7) then negb old else old)
              /\ test (set_all sample) p = Some true
              /\ test (reset_all sample) p = Some false
              /\ test (flip_all sample) p = Some (negb old).
Proof.
  assert (range_pre sample 3 7) as H.
  { unfold range_pre. change (size sample) with 11. lia. }
  split; [exact sample_invariant |]. split; [exact H |].
  exact (range_writes sample 3 7 true sample_invariant H).
Defined.

Lemma resize_keeps_and_fills_witness :
  invariant sample /\ 0 <= 20
  /\ (exists w, resize sample 20 true = Some w
                /\ size w = 20
                /\ forall p, 0 <= p < 20 ->
                     test w p = if p <? size sample then test sample p else Some true)
  /\ resize sample (size sample) true = Some sample
  /\ resize sample 0 true = Some (clear sample).
Proof.
  assert (0 <= 20) as H by lia.
  split; [exact sample_invariant |]. split; [exact H |].
  exact (resize_keeps_and_fills sample 20 true sample_invariant H).
Defined.

Lemma push_back_then_pop_back_witness :
  invariant sample
  /\ (exists w, push_back sample true = Some w
                /\ size w = size sample + 1
                /\ test w (size sample) = Some true
                /\ (forall p, 0 <= p < size sample -> test w p = test sample p)
                /\ resize sample (size sample + 1) true = Some w
                /\ pop_back w = Some sample)
  /\ (size sample = 0 -> pop_back sample = Some sample).
Proof.
  split; [exact sample_invariant |].
  exact (push_back_then_pop_back sample true sample_invariant).
Defined.

End RangeAndSizeChangesWitness.

Section StringConversions.

Context {Block : UnsignedBlock} {CharT : Type} `{EqDecision CharT}.

Lemma for_up_chk_fails {S : Type} (body : Z -> S -> option S) (n : nat) (lo k : Z)
    (s : S) :
  lo <= k < lo + Z.of_nat n -> (forall s', body k s' = None) ->
  for_up_chk n lo body s = None.
Proof.
  revert lo s. induction n as [| n IH]; intros lo s Hk Hfail; [lia |].
  cbn [for_up_chk]. destruct (body lo s) as [s' |] eqn:E; [| done].
  cbn [mbind option_bind]. destruct (Z.eq_dec k lo) as [-> |].
  - by rewrite Hfail in E.
  - apply IH; [lia | done].
Qed.

(** Extra X17.  For a bitset that satisfies the class invariant,
    [to_string] returns as many characters as the bitset has bits, the
    most significant bit first: the character at index [i] is [one] when
    the bit at position [size - 1 - i] is set and [zero] otherwise. *)
Theorem to_string_most_significant_first (v : dynamic_bitset) (zero one : CharT) :
  invariant v ->
  Z.of_nat (length (to_string v zero one)) = size v
  /\ forall i, 0 <= i < size v ->
       exists b, test v (size v - 1 - i) = Some b
                 /\ nth (Z.to_nat i) (to_string v zero one) zero
                    = if b then one else zero.
Proof.
  intros Hv. pose proof (invariant_size_nonneg v Hv) as Hs. fold (size v) in Hs.
  destruct (to_string_renders v zero one Hv) as (Hlen & Hstr).
  split; [lia |]. intros i Hi. exists (bit v (size v - 1 - i)).
  split; [apply test_spec; [done | lia] |].
  rewrite <- Hstr by lia. f_equal. lia.
Qed.

(** Extra X18.  The constructors from a part of a string: with
    [pos < str.size()] and every character of the part equal to [zero] or
    [one], the bitset has [min(n, str.size() - pos)] bits and the bit at
    position [i] is set exactly when the character [i] places before the
    end of the part is [one]; a character of the part that is neither
    [zero] nor [one], and a [pos] that is not below the length of the
    string, fail an assertion. *)
Theorem string_constructor_reads_a_part (str : list CharT) (pos n : Z)
    (zero one : CharT) :
  0 <= pos -> 0 <= n ->
  (pos < Z.of_nat (length str) ->
   (forall k, pos <= k < pos + Z.min n (Z.of_nat (length str) - pos) ->
              nth (Z.to_nat k) str zero = zero \/ nth (Z.to_nat k) str zero = one) ->
   exists v, dynamic_bitset_string str pos n zero one = Some v
             /\ size v = Z.min n (Z.of_nat (length str) - pos)
             /\ forall i, 0 <= i < size v ->
                  test v i
                  = Some (bool_decide
                            (nth (Z.to_nat (pos + size v - 1 - i)) str zero = one)))
  /\ (pos < Z.of_nat (length str) ->
      (exists k, pos <= k < pos + Z.min n (Z.of_nat (length str) - pos)
                 /\ nth (Z.to_nat k) str zero <> zero
                 /\ nth (Z.to_nat k) str zero <> one) ->
      dynamic_bitset_string str pos n zero one = None)
  /\ (Z.of_nat (length str) <= pos -> dynamic_bitset_string str pos n zero one = None).
Proof.
  intros Hpos Hn. split; [| split].
  - intros Hlt Hchars.
    destruct (dynamic_bitset_string_spec str pos n zero one)
      as (v & Hv & Hinv & Hsz & Hbits); [lia | done | done |].
    exists v. split; [done |]. split; [done |]. intros i Hi.
    rewrite test_spec by done. f_equal. by apply Hbits.
  - intros Hlt (k & Hk & Hz & Ho).
    unfold dynamic_bitset_string, init_from_string.
    rewrite !(assert_true (pos <? Z.of_nat (length str))) by (by apply Z.ltb_lt).
    cbn [mbind option_bind]. cbv zeta.
    set (sz := Z.min n (Z.of_nat (length str) - pos)) in *.
    apply (for_up_chk_fails _ _ _ (pos + sz - 1 - k)).
    + unfold trips_lt. lia.
    + intros s'. cbv beta.
      replace (pos + sz - 1 - (pos + sz - 1 - k)) with k by lia.
      rewrite bool_decide_eq_false_2, bool_decide_eq_false_2 by done. done.
  - intros Hge. unfold dynamic_bitset_string.
    destruct (Z.ltb_spec pos (Z.of_nat (length str))); [lia | done].
Qed.

End StringConversions.

Section StringConversionsWitness.

#[local] Existing Instance uint8.

Lemma to_string_most_significant_first_witness :
  invariant sample
  /\ Z.of_nat (length (to_string sample "0"%char "1"%char)) = size sample
  /\ forall i, 0 <= i < size sample ->
       exists b, test sample (size sample - 1 - i) = Some b
                 /\ nth (Z.to_nat i) (to_string sample "0"%char "1"%char) "0"%char
                    = if b then "1"%char else "0"%char.
Proof.
  split; [exact sample_invariant |].
  exact (to_string_most_significant_first sample "0"%char "1"%char sample_invariant).
Defined.

Lemma string_constructor_reads_a_part_witness :
  0 <= 1 /\ 0 <= 3
  /\ (1 < Z.of_nat (length ["x"; "1"; "0"; "1"; "y"]%char) ->
      (forall k, 1 <= k < 1 + Z.min 3 (Z.of_nat (length ["x"; "1"; "0"; "1"; "y"]%char) - 1) ->
                 nth (Z.to_nat k) ["x"; "1"; "0"; "1"; "y"]%char "0"%char = "0"%char
                 \/ nth (Z.to_nat k) ["x"; "1"; "0"; "1"; "y"]%char "0"%char = "1"%char) ->
      exists v, dynamic_bitset_string ["x"; "1"; "0"; "1"; "y"]%char 1 3 "0"%char "1"%char
                = Some v
                /\ size v = Z.min 3 (Z.of_nat (length ["x"; "1"; "0"; "1"; "y"]%char) - 1)
                /\ forall i, 0 <= i < size v ->
                     test v i
                     = Some (bool_decide
                               (nth (Z.to_nat (1 + size v - 1 - i))
                                  ["x"; "1"; "0"; "1"; "y"]%char "0"%char = "1"%char)))
  /\ (1 < Z.of_nat (length ["x"; "1"; "0"; "1"; "y"]%char) ->
      (exists k, 1 <= k < 1 + Z.min 3 (Z.of_nat (length ["x"; "1"; "0"; "1"; "y"]%char) - 1)
                 /\ nth (Z.to_nat k) ["x"; "1"; "0"; "1"; "y"]%char "0"%char <> "0"%char
                 /\ nth (Z.to_nat k) ["x"; "1"; "0"; "1"; "y"]%char "0"%char <> "1"%char) ->
      dynamic_bitset_string ["x"; "1"; "0"; "1"; "y"]%char 1 3 "0"%char "1"%char = None)
  /\ (Z.of_nat (length ["x"; "1"; "0"; "1"; "y"]%char) <= 1 ->
      dynamic_bitset_string ["x"; "1"; "0"; "1"; "y"]%char 1 3 "0"%char "1"%char = None).
Proof.
  assert (0 <= 1) as H1 by lia. assert (0 <= 3) as H2 by lia.
  split; [exact H1 |]. split; [exact H2 |].
  exact (string_constructor_reads_a_part ["x"; "1"; "0"; "1"; "y"]%char 1 3
           "0"%char "1"%char H1 H2).
Defined.

End StringConversionsWitness.

Section NumericValue.

Context {Block : UnsignedBlock}.

Lemma magnitude_bound (v : dynamic_bitset) :
  invariant v -> 0 <= magnitude v < 2 ^ size v.
Proof.
  intros Hv. pose proof (invariant_size_nonneg v Hv) as Hs. fold (size v) in Hs.
  pose proof (invariant_blocks v Hv) as Hm.
  assert (magnitude v = magnitude v mod 2 ^ size v) as ->.
  { apply Z.bits_inj'. intros p Hp. rewrite Z.testbit_mod_pow2 by done.
    destruct (Z.ltb_spec p (size v)); [done |]. simpl.
    rewrite testbit_magnitude by done. by apply bit_high. }
  apply Z.mod_pos_bound. by apply Z.pow_pos_nonneg.
Qed.

Lemma testbit_add_above (m x s p : Z) :
  0 <= m < 2 ^ s -> 0 <= s -> 0 <= p ->
  Z.testbit (m + x * 2 ^ s) p = if p <? s then Z.testbit m p else Z.testbit x (p - s).
Proof.
  intros Hm Hs Hp.
  assert (forall j, s <= j -> Z.testbit m j = false) as Hhigh.
  { intros j Hj. rewrite <- (Z.mod_small m (2 ^ s)) by done.
    rewrite Z.testbit_mod_pow2 by done.
    destruct (Z.ltb_spec j s); [lia | done]. }
  rewrite <- Z.shiftl_mul_pow2 by done.
  assert (Z.land m (Z.shiftl x s) = 0) as Hdisj.
  { apply Z.bits_inj'. intros j Hj. rewrite Z.land_spec, Z.bits_0.
    destruct (Z.lt_ge_cases j s).
    - rewrite Z.shiftl_spec_low by done. apply andb_false_r.
    - by rewrite Hhigh. }
  rewrite Z.add_nocarry_lxor by done.
  rewrite Z.lxor_spec, Z.shiftl_spec by done.
  destruct (Z.ltb_spec p s).
  - rewrite (Z.testbit_neg_r x) by lia. apply xorb_false_r.
  - by rewrite Hhigh.
Qed.

Lemma magnitude_bits (v : dynamic_bitset) (x : Z) :
  Forall is_block (m_blocks v) ->
  (forall p, 0 <= p -> Z.testbit x p = bit v p) -> magnitude v = x.
Proof.
  intros Hm Hbits. apply Z.bits_inj'. intros p Hp.
  by rewrite testbit_magnitude, Hbits.
Qed.

(** Extra X19.  On a bitset [v] of size [s] that satisfies the class
    invariant, seen as the unsigned number below [2^s] that its blocks
    represent, [v << k] is the product by [2^k] modulo [2^s] and [v >> k]
    the quotient by [2^k]. *)
Theorem shifts_multiply_and_divide (v : dynamic_bitset) (k : Z) :
  invariant v -> 0 <= k ->
  0 <= magnitude v < 2 ^ size v
  /\ exists l r,
       op_shl v k = Some l /\ op_shr v k = Some r
       /\ magnitude l = (magnitude v * 2 ^ k) mod 2 ^ size v
       /\ magnitude r = magnitude v / 2 ^ k.
Proof.
  intros Hv Hk. pose proof (invariant_size_nonneg v Hv) as Hs. fold (size v) in Hs.
  pose proof (invariant_blocks v Hv) as Hm.
  split; [by apply magnitude_bound |].
  destruct (op_shl_assign_spec v k Hv Hk) as (l & Hl & Hli & Hls & Hlb).
  destruct (op_shr_assign_spec v k Hv Hk) as (r & Hr & Hri & Hrs & Hrb).
  exists l, r. split; [done |]. split; [done |]. split.
  - apply magnitude_bits; [by apply invariant_blocks |]. intros p Hp.
    rewrite Z.testbit_mod_pow2, Z.mul_pow2_bits, Hlb by done. f_equal.
    destruct (Z.le_gt_cases 0 (p - k)).
    + by apply testbit_magnitude.
    + rewrite Z.testbit_neg_r, bit_neg by lia. done.
  - apply magnitude_bits; [by apply invariant_blocks |]. intros p Hp.
    rewrite Z.div_pow2_bits, Hrb, testbit_magnitude by (done || lia).
    destruct (Z.leb_spec 0 p); [done | lia].
Qed.

(** Extra X20.  On a bitset [v] of size [s] that satisfies the class
    invariant, seen as the unsigned number its blocks represent:
    [push_back(value)] adds [value * 2^s], [append(block)] adds
    [block * 2^s], the complement is [2^s - 1] minus the number, [reset()]
    gives 0 and [set()] gives [2^s - 1]; and [count], with any choice of
    the counting primitives, is the number of one bits of the number. *)
Theorem numeric_value_of_updates (v : dynamic_bitset) (value : bool) (block : Z) :
  invariant v -> is_block block ->
  (exists w, push_back v value = Some w
             /\ magnitude w = magnitude v + Z.b2z value * 2 ^ size v)
  /\ (exists u, append_block v block = Some u
                /\ magnitude u = magnitude v + block * 2 ^ size v)
  /\ magnitude (op_not v) = 2 ^ size v - 1 - magnitude v
  /\ magnitude (reset_all v) = 0
  /\ magnitude (set_all v) = 2 ^ size v - 1
  /\ forall tools : Toolchain, @count Block tools v = Some (popcount (magnitude v)).
Proof.
  intros Hv Hblock. pose proof (invariant_size_nonneg v Hv) as Hs. fold (size v) in Hs.
  pose proof (invariant_blocks v Hv) as Hm.
  pose proof (magnitude_bound v Hv) as Hbound.
  assert (forall p, 0 <= p ->
            Z.testbit (Z.ones (size v)) p = (p <? size v)) as Hones.
  { intros p Hp. destruct (Z.ltb_spec p (size v)).
    - apply Z.ones_spec_low. lia.
    - apply Z.ones_spec_high. lia. }
  assert (forall x, 0 <= x < 2 ^ size v ->
            forall p, 0 <= p ->
              Z.testbit (2 ^ size v - 1 - x) p = (p <? size v) && negb (Z.testbit x p))
    as Hcompl.
  { intros x Hx p Hp.
    replace (2 ^ size v - 1 - x) with (Z.ones (size v) - x)
      by (rewrite Z.ones_equiv; lia).
    rewrite Z.sub_nocarry_ldiff.
    - by rewrite Z.ldiff_spec, Hones.
    - apply Z.bits_inj'. intros j Hj.
      rewrite Z.ldiff_spec, Z.bits_0, Hones by done.
      destruct (Z.ltb_spec j (size v)); simpl; [apply andb_false_r |].
      rewrite <- (Z.mod_small x (2 ^ size v)) by done.
      rewrite Z.testbit_mod_pow2 by done.
      destruct (Z.ltb_spec j (size v)); [lia | done]. }
  split; [| split; [| split; [| split; [| split]]]].
  - destruct (push_back_spec v value Hv) as (w & Hw & Hwi & Hws & Hwb).
    exists w. split; [done |].
    apply magnitude_bits; [by apply invariant_blocks |]. intros p Hp.
    rewrite testbit_add_above, Hwb by done.
    destruct (Z.ltb_spec p (size v)), (Z.eqb_spec p (size v)); try lia.
    + by apply testbit_magnitude.
    + subst p. rewrite Z.sub_diag. by destruct value.
    + rewrite bit_high by (done || unfold size in *; lia).
      destruct value; simpl.
      * change 1 with (2 ^ 0). apply Z.pow2_bits_false. lia.
      * apply Z.bits_0.
  - destruct (append_block_spec v block Hv Hblock) as (u & Hu & Hui & Hus & Hub).
    exists u. split; [done |].
    apply magnitude_bits; [by apply invariant_blocks |]. intros p Hp.
    rewrite testbit_add_above, Hub by done.
    destruct (Z.ltb_spec p (size v)); [| done]. by apply testbit_magnitude.
  - destruct (flip_all_spec v Hv) as (Hni & Hns & Hnb).
    apply magnitude_bits; [by apply invariant_blocks |]. intros p Hp.
    unfold op_not. rewrite Hcompl, Hnb, testbit_magnitude by done.
    destruct (Z.leb_spec 0 p); [done | lia].
  - destruct (reset_all_spec v Hv) as (Hzi & Hzs & Hzb).
    apply magnitude_bits; [by apply invariant_blocks |]. intros p Hp.
    by rewrite Z.bits_0, Hzb.
  - destruct (set_all_spec v Hv) as (Hai & Has & Hab).
    apply magnitude_bits; [by apply invariant_blocks |]. intros p Hp.
    replace (2 ^ size v - 1) with (2 ^ size v - 1 - 0) by lia.
    rewrite Hcompl, Hab, Z.bits_0 by (done || lia).
    destruct (Z.leb_spec 0 p); [| lia]. simpl. apply andb_true_r.
  - intros tools. rewrite count_spec by done. f_equal.
    rewrite (popcount_bits (Z.to_nat (size v))) by (rewrite Z2Nat.id; done).
    apply count_true_ext. intros p Hp. symmetry. apply testbit_magnitude; [done | lia].
Qed.

End NumericValue.

Section NumericValueWitness.

#[local] Existing Instance uint8.

Lemma shifts_multiply_and_divide_witness :
  invariant sample /\ 0 <= 3
  /\ 0 <= magnitude sample < 2 ^ size sample
  /\ exists l r,
       op_shl sample 3 = Some l /\ op_shr sample 3 = Some r
       /\ magnitude l = (magnitude sample * 2 ^ 3) mod 2 ^ size sample
       /\ magnitude r = magnitude sample / 2 ^ 3.
Proof.
  assert (0 <= 3) as H by lia.
  split; [exact sample_invariant |]. split; [exact H |].
  exact (shifts_multiply_and_divide sample 3 sample_invariant H).
Defined.

Lemma numeric_value_of_updates_witness :
  invariant sample /\ is_block 201
  /\ (exists w, push_back sample true = Some w
                /\ magnitude w = magnitude sample + Z.b2z true * 2 ^ size sample)
  /\ (exists u, append_block sample 201 = Some u
                /\ magnitude u = magnitude sample + 201 * 2 ^ size sample)
  /\ magnitude (op_not sample) = 2 ^ size sample - 1 - magnitude sample
  /\ magnitude (reset_all sample) = 0
  /\ magnitude (set_all sample) = 2 ^ size sample - 1
  /\ forall tools : Toolchain,
       @count uint8 tools sample = Some (popcount (magnitude sample)).
Proof.
  assert (is_block 201) as H by (vm_compute; split; congruence).
  split; [exact sample_invariant |]. split; [exact H |].
  exact (numeric_value_of_updates sample true 201 sample_invariant H).
Defined.

End NumericValueWitness.

Section SetRelations.

Context {Block : UnsignedBlock}.

Lemma is_subset_of_true (a b : dynamic_bitset) :
  invariant a -> size a = size b ->
  is_subset_of a b = Some true <-> forall p, bit a p = true -> bit b p = true.
Proof.
  intros Ha Hs. destruct (is_subset_of_spec a b Ha Hs) as (r & Hr & Hiff).
  rewrite Hr. split.
  - intros [= ->]. by apply Hiff.
  - intros H. f_equal. by apply Hiff.
Qed.

Lemma is_proper_subset_of_true (a b : dynamic_bitset) :
  invariant a -> invariant b -> size a = size b ->
  is_proper_subset_of a b = Some true
  <-> a <> b /\ forall p, bit a p = true -> bit b p = true.
Proof.
  intros Ha Hb Hs. destruct (is_proper_subset_of_spec a b Ha Hb Hs) as (r & Hr & Hiff).
  rewrite Hr. split.
  - intros [= ->]. by apply Hiff.
  - intros H. f_equal. by apply Hiff.
Qed.

(** Extra X21.  On bitsets of equal size that satisfy the class
    invariant, [is_subset_of] is a partial order with respect to [==]
    (reflexive, transitive, antisymmetric), [is_proper_subset_of] is
    irreflexive and asymmetric, [intersects] is symmetric, and a subset of
    [b] intersects [b] exactly when it has a bit set. *)
Theorem subset_is_a_partial_order (a b c : dynamic_bitset) :
  invariant a -> invariant b -> invariant c -> size a = size b -> size b = size c ->
  is_subset_of a a = Some true
  /\ (is_subset_of a b = Some true -> is_subset_of b c = Some true ->
      is_subset_of a c = Some true)
  /\ (is_subset_of a b = Some true -> is_subset_of b a = Some true ->
      op_eq a b = true)
  /\ is_proper_subset_of a a = Some false
  /\ (is_proper_subset_of a b = Some true -> is_proper_subset_of b a = Some false)
  /\ intersects a b = intersects b a
  /\ (is_subset_of a b = Some true -> intersects a b = any a).
Proof.
  intros Ha Hb Hc Hab Hbc.
  split; [| split; [| split; [| split; [| split; [| split]]]]].
  - by apply is_subset_of_true.
  - rewrite !is_subset_of_true by (done || congruence). intros H1 H2 p Hp. auto.
  - rewrite !is_subset_of_true by (done || congruence). intros H1 H2.
    apply op_eq_eq, bitset_ext; [done | done | done |]. intros p Hp.
    destruct (bit a p) eqn:Ea, (bit b p) eqn:Eb; try done.
    + by rewrite (H1 p Ea) in Eb.
    + by rewrite (H2 p Eb) in Ea.
  - destruct (is_proper_subset_of_spec a a Ha Ha eq_refl) as (r & Hr & Hiff).
    rewrite Hr. f_equal. destruct r; [| done]. by destruct (proj1 Hiff eq_refl).
  - rewrite is_proper_subset_of_true by done. intros (Hne & Hsub).
    destruct (is_proper_subset_of_spec b a Hb Ha (eq_sym Hab)) as (r & Hr & Hiff).
    rewrite Hr. f_equal. destruct r; [| done].
    destruct (proj1 Hiff eq_refl) as (_ & Hsub'). exfalso. apply Hne.
    apply bitset_ext; [done | done | done |]. intros p Hp.
    destruct (bit a p) eqn:Ea, (bit b p) eqn:Eb; try done.
    + by rewrite (Hsub p Ea) in Eb.
    + by rewrite (Hsub' p Eb) in Ea.
  - apply eq_true_iff_eq. rewrite !intersects_bits by done.
    split; intros (p & Hp & H1 & H2); exists p; (split; [lia | done]).
  - rewrite is_subset_of_true by done. intros Hsub.
    apply eq_true_iff_eq.
    rewrite intersects_bits, any_bits by (done || by apply invariant_blocks).
    split.
    + intros (p & _ & H1 & _). by exists p.
    + intros (p & Hp). exists p. pose proof (bit_true_in_range a p Ha Hp).
      split; [lia |]. split; [done | by apply Hsub].
Qed.

End SetRelations.

Section SetRelationsWitness.

#[local] Existing Instance uint8.

Lemma subset_is_a_partial_order_witness :
  invariant (mk_bitset [5; 1] 11) /\ invariant sample /\ invariant (mk_bitset [223; 5] 11)
  /\ size (mk_bitset [5; 1] 11) = size sample
  /\ size sample = size (mk_bitset [223; 5] 11)
  /\ is_subset_of (mk_bitset [5; 1] 11) (mk_bitset [5; 1] 11) = Some true
  /\ (is_subset_of (mk_bitset [5; 1] 11) sample = Some true ->
      is_subset_of sample (mk_bitset [223; 5] 11) = Some true ->
      is_subset_of (mk_bitset [5; 1] 11) (mk_bitset [223; 5] 11) = Some true)
  /\ (is_subset_of (mk_bitset [5; 1] 11) sample = Some true ->
      is_subset_of sample (mk_bitset [5; 1] 11) = Some true ->
      op_eq (mk_bitset [5; 1] 11) sample = true)
  /\ is_proper_subset_of (mk_bitset [5; 1] 11) (mk_bitset [5; 1] 11) = Some false
  /\ (is_proper_subset_of (mk_bitset [5; 1] 11) sample = Some true ->
      is_proper_subset_of sample (mk_bitset [5; 1] 11) = Some false)
  /\ intersects (mk_bitset [5; 1] 11) sample = intersects sample (mk_bitset [5; 1] 11)
  /\ (is_subset_of (mk_bitset [5; 1] 11) sample = Some true ->
      intersects (mk_bitset [5; 1] 11) sample = any (mk_bitset [5; 1] 11)).
Proof.
  assert (invariant (mk_bitset [5; 1] 11)) as Ha.
  { apply check_consistency_spec; [| reflexivity].
    split; [| simpl; lia]. repeat constructor; vm_compute; congruence. }
  assert (invariant (mk_bitset [223; 5] 11)) as Hc.
  { apply check_consistency_spec; [| reflexivity].
    split; [| simpl; lia]. repeat constructor; vm_compute; congruence. }
  split; [exact Ha |]. split; [exact sample_invariant |]. split; [exact Hc |].
  split; [reflexivity |]. split; [reflexivity |].
  exact (subset_is_a_partial_order (mk_bitset [5; 1] 11) sample (mk_bitset [223; 5] 11)
           Ha sample_invariant Hc eq_refl eq_refl).
Defined.

End SetRelationsWitness.

Section SanitizeFacts.

Context {Block : UnsignedBlock}.

(** Extra X24.  On a bitset whose members have values of their types
    and that has [ceil(size / bits_per_block)] blocks, whatever its unused
    bits are, [sanitize] establishes the class invariant, keeps the size
    and every bit below the size, and clears the bits at and above it; on a
    bitset that satisfies the invariant already it changes nothing. *)
Theorem sanitize_restores_the_invariant (v : dynamic_bitset) :
  well_typed v -> sizing_invariant v ->
  invariant (sanitize v)
  /\ size (sanitize v) = size v
  /\ num_blocks (sanitize v) = num_blocks v
  /\ (forall p, p < size v -> bit (sanitize v) p = bit v p)
  /\ (forall p, size v <= p -> bit (sanitize v) p = false)
  /\ (invariant v -> sanitize v = v).
Proof.
  intros Hwt Hsz.
  assert (Vec.size (m_blocks v) = blocks_required (m_bits_number v)) as Hreq.
  { unfold sizing_invariant, num_blocks, size in Hsz.
    by rewrite blocks_required_ceil. }
  destruct (sanitize_spec v Hwt Hreq) as (Hinv & Hs & Hbits).
  split; [done |]. split; [done |]. split; [| split; [| split]].
  - unfold num_blocks. rewrite (invariant_num_blocks _ Hinv), Hs. by symmetry.
  - exact Hbits.
  - intros p Hp. apply bit_high; [done |]. unfold size in *. lia.
  - intros Hv. apply bitset_ext; [done | done | done |].
    intros p Hp. apply Hbits. unfold size in *. lia.
Qed.

End SanitizeFacts.

Section SanitizeFactsWitness.

#[local] Existing Instance uint8.

Lemma sanitize_restores_the_invariant_witness :
  well_typed (mk_bitset [157; 253] 11) /\ sizing_invariant (mk_bitset [157; 253] 11)
  /\ invariant (sanitize (mk_bitset [157; 253] 11))
  /\ size (sanitize (mk_bitset [157; 253] 11)) = size (mk_bitset [157; 253] 11)
  /\ num_blocks (sanitize (mk_bitset [157; 253] 11))
     = num_blocks (mk_bitset [157; 253] 11)
  /\ (forall p, p < size (mk_bitset [157; 253] 11) ->
        bit (sanitize (mk_bitset [157; 253] 11)) p = bit (mk_bitset [157; 253] 11) p)
  /\ (forall p, size (mk_bitset [157; 253] 11) <= p ->
        bit (sanitize (mk_bitset [157; 253] 11)) p = false)
  /\ (invariant (mk_bitset [157; 253] 11) ->
      sanitize (mk_bitset [157; 253] 11) = mk_bitset [157; 253] 11).
Proof.
  assert (well_typed (mk_bitset [157; 253] 11)) as H1.
  { split; [| simpl; lia]. repeat constructor; vm_compute; congruence. }
  assert (sizing_invariant (mk_bitset [157; 253] 11)) as H2 by reflexivity.
  split; [exact H1 |]. split; [exact H2 |].
  exact (sanitize_restores_the_invariant (mk_bitset [157; 253] 11) H1 H2).
Defined.

End SanitizeFactsWitness.

Section ResizeRoundTrip.

Context {Block : UnsignedBlock}.

(** Extra X25.  On a bitset that satisfies the class invariant, growing
    with [resize] and then resizing back to the former size restores the
    bitset, whatever the fill values; and shrinking to [nbits] keeps the
    number the blocks represent modulo [2^nbits]. *)
Theorem resize_round_trip (v : dynamic_bitset) (nbits : Z) (value value' : bool) :
  invariant v -> 0 <= nbits ->
  exists w, resize v nbits value = Some w
            /\ (size v <= nbits -> resize w (size v) value' = Some v)
            /\ (nbits <= size v -> magnitude w = magnitude v mod 2 ^ nbits).
Proof.
  intros Hv Hn. pose proof (invariant_size_nonneg v Hv) as Hs. fold (size v) in Hs.
  destruct (resize_spec v nbits value Hv Hn) as (w & Hw & Hwi & Hws & Hwb).
  exists w. split; [done |]. split.
  - intros Hle.
    destruct (resize_spec w (size v) value' Hwi Hs) as (u & Hu & Hui & Hus & Hub).
    rewrite Hu. f_equal. apply bitset_ext; [done | done | done |].
    intros p Hp. rewrite Hub, Hws by lia.
    destruct (Z.ltb_spec p nbits); [| lia]. rewrite Hwb by lia.
    destruct (Z.ltb_spec p (size v)); [done | lia].
  - intros Hle. apply magnitude_bits; [by apply invariant_blocks |]. intros p Hp.
    rewrite Z.testbit_mod_pow2, testbit_magnitude by (done || by apply invariant_blocks).
    destruct (Z.ltb_spec p nbits); simpl.
    + rewrite Hwb by lia. destruct (Z.ltb_spec p (size v)); [done | lia].
    + symmetry. apply bit_high; [done |]. unfold size in *. lia.
Qed.

End ResizeRoundTrip.

Section ResizeRoundTripWitness.

#[local] Existing Instance uint8.

Lemma resize_round_trip_witness :
  invariant sample /\ 0 <= 20
  /\ exists w, resize sample 20 true = Some w
               /\ (size sample <= 20 -> resize w (size sample) false = Some sample)
               /\ (20 <= size sample -> magnitude w = magnitude sample mod 2 ^ 20).
Proof.
  assert (0 <= 20) as H by lia.
  split; [exact sample_invariant |]. split; [exact H |].
  exact (resize_round_trip sample 20 true false sample_invariant H).
Defined.

End ResizeRoundTripWitness.

Section MutationsKeepInvariant.

Context {Block : UnsignedBlock}.

Lemma mutate_invariant (v : dynamic_bitset) (m : mutation) :
  invariant v -> mutation_pre v m -> exists v', mutate v m = Some v' /\ invariant v'.
Proof.
  intros Hv Hpre.
  destruct m; simpl in *.
  - destruct (resize_spec v nbits value Hv Hpre) as (v' & ? & ? & _). by exists v'.
  - eexists. split; [done |]. apply clear_spec.
  - destruct (push_back_spec v value Hv) as (v' & ? & ? & _). by exists v'.
  - destruct (pop_back_spec v Hv) as (v' & ? & ? & _). by exists v'.
  - destruct (append_block_spec v block Hv Hpre) as (v' & ? & ? & _). by exists v'.
  - destruct (append_range_spec v blocks Hv Hpre) as (v' & ? & ? & _). by exists v'.
  - destruct Hpre as [Hrhs Hsize].
    destruct (op_and_assign_spec v rhs Hv Hrhs Hsize) as (v' & ? & ? & _). by exists v'.
  - destruct Hpre as [Hrhs Hsize].
    destruct (op_or_assign_spec v rhs Hv Hrhs Hsize) as (v' & ? & ? & _). by exists v'.
  - destruct Hpre as [Hrhs Hsize].
    destruct (op_xor_assign_spec v rhs Hv Hrhs Hsize) as (v' & ? & ? & _). by exists v'.
  - destruct Hpre as [Hrhs Hsize].
    destruct (op_sub_assign_spec v rhs Hv Hrhs Hsize) as (v' & ? & ? & _). by exists v'.
  - destruct (op_shl_assign_spec v shift Hv Hpre) as (v' & ? & ? & _). by exists v'.
  - destruct (op_shr_assign_spec v shift Hv Hpre) as (v' & ? & ? & _). by exists v'.
  - destruct (set_range_spec v pos len value Hv Hpre) as (v' & ? & ? & _). by exists v'.
  - destruct (set_bit_spec v pos value Hv Hpre) as (v' & ? & ? & _). by exists v'.
  - eexists. split; [done |]. by apply set_all_spec.
  - destruct (set_range_spec v pos len false Hv Hpre) as (v' & ? & ? & _). by exists v'.
  - destruct (set_bit_spec v pos false Hv Hpre) as (v' & ? & ? & _). by exists v'.
  - eexists. split; [done |]. by apply reset_all_spec.
  - destruct (flip_range_spec v pos len Hv Hpre) as (v' & ? & ? & _). by exists v'.
  - destruct (flip_bit_spec v pos Hv Hpre) as (v' & ? & ? & _). by exists v'.
  - eexists. split; [done |]. by apply flip_all_spec.
Qed.

(** Extra X26.  Each mutating member ([resize], [clear], [push_back],
    [pop_back], [append] of a block or of a range, [&=], [|=], [^=], [-=],
    [<<=], [>>=], [set], [reset] and [flip] in all their forms), called on
    a bitset that satisfies the class invariant with arguments inside its
    documented precondition (for the range forms: the range lies inside the
    bitset, so that [pos + len - 1] does not wrap), passes its assertions
    and leaves a bitset that satisfies both structural invariants and
    [check_consistency]. *)
Theorem mutations_keep_the_invariant (v : dynamic_bitset) (m : mutation) :
  invariant v -> mutation_pre v m ->
  exists v', mutate v m = Some v'
             /\ num_blocks v' = ceil_div (size v') bits_per_block
             /\ (size v' mod bits_per_block <> 0 ->
                 forall j, size v' mod bits_per_block <= j < bits_per_block ->
                           Z.testbit (last_block v') j = false)
             /\ check_consistency v' = true.
Proof.
  intros Hv Hpre.
  destruct (mutate_invariant v m Hv Hpre) as (v' & Hrun & Hv').
  exists v'. split; [done |]. destruct Hv' as (Hwt & Hsizing & Hsan) eqn:E.
  split; [apply Hsizing |]. split; [apply Hsan |].
  by apply invariant_check.
Qed.

End MutationsKeepInvariant.

Section MutationsKeepInvariantWitness.

#[local] Existing Instance uint8.

Lemma mutations_keep_the_invariant_witness :
  invariant sample /\ mutation_pre sample (SetRange 1 2 true)
  /\ exists v', mutate sample (SetRange 1 2 true) = Some v'
                /\ num_blocks v' = ceil_div (size v') bits_per_block
                /\ (size v' mod bits_per_block <> 0 ->
                    forall j, size v' mod bits_per_block <= j < bits_per_block ->
                              Z.testbit (last_block v') j = false)
                /\ check_consistency v' = true.
Proof.
  assert (mutation_pre sample (SetRange 1 2 true)) as Hpre.
  { vm_compute. repeat split; try congruence. right. reflexivity. }
  split; [exact sample_invariant |]. split; [exact Hpre |].
  exact (mutations_keep_the_invariant sample (SetRange 1 2 true) sample_invariant Hpre).
Defined.

End MutationsKeepInvariantWitness.
